(** * NextBeat note post-processing and MIDI fallback writer

    A shallow embedding of [api/post_processing.py], of the sequence
    builders and the mido fallback writer of [api/magenta_continuator.py],
    of the velocity bounds of [api/config.py], of the two validators of
    [api/primer_generator.py], and of the instrument routing and the note
    counts of the handler of [api/main.py].

    Python floats are IEEE binary64 numbers: they are modelled by Rocq's
    primitive floats, whose operations are the same correctly rounded
    binary64 operations.  Python integers are unbounded: they are [Z].
    Exceptions are the [Err] results of an error monad; the process-wide
    generator of module [random] is a state threaded through the two
    functions that draw from it. *)

From Stdlib Require Import ZArith List Bool Lia Ascii String Floats.
From Stdlib Require Import Permutation Sorted.
Import ListNotations.

Local Open Scope Z_scope.

(** ** Exceptions and the error monad *)

Inductive exn : Type :=
| ZeroDivisionError
| ValueError
| OverflowError
| KeyError.

Inductive result (A : Type) : Type :=
| Ok (a : A)
| Err (e : exn).
Arguments Ok {A} a.
Arguments Err {A} e.

Definition bind {A B : Type} (m : result A) (k : A -> result B) : result B :=
  match m with
  | Ok a => k a
  | Err e => Err e
  end.

Declare Scope py_scope.
Delimit Scope py_scope with py.
Notation "x <- m ;; k" := (bind m (fun x => k))
  (at level 61, m at next level, right associativity) : py_scope.
Local Open Scope py_scope.

(** ** Python numbers *)

Module Py.

(** [int(x)] on a float: truncation toward zero; [nan] and the infinities
    raise. *)
Definition trunc_pos (m : positive) (e : Z) : Z := Z.shiftl (Zpos m) e.

Definition int_of_float (x : float) : result Z :=
  match Prim2SF x with
  | S754_zero _ => Ok 0
  | S754_infinity _ => Err OverflowError
  | S754_nan => Err ValueError
  | S754_finite s m e => Ok (cond_Zopp s (trunc_pos m e))
  end.

(** [round(x)] on a float, one argument: the nearest integer, ties to the
    even one. *)
Definition round_pos (m : positive) (e : Z) : Z :=
  if 0 <=? e then Z.shiftl (Zpos m) e
  else
    let d := Z.shiftl 1 (- e) in
    let q := Zpos m / d in
    let r := Zpos m mod d in
    match 2 * r ?= d with
    | Lt => q
    | Gt => q + 1
    | Eq => if Z.even q then q else q + 1
    end.

Definition round (x : float) : result Z :=
  match Prim2SF x with
  | S754_zero _ => Ok 0
  | S754_infinity _ => Err OverflowError
  | S754_nan => Err ValueError
  | S754_finite s m e => Ok (cond_Zopp s (round_pos m e))
  end.

(** An [int] used where a float is needed is converted to the nearest
    binary64 number, ties to even; an [int] too large for a finite float
    raises [OverflowError]. *)
Definition float_of_int (k : Z) : result float :=
  match binary_normalize prec emax k 0 false with
  | S754_infinity _ => Err OverflowError
  | sf => Ok (SF2Prim sf)
  end.

(** [x / y] on floats raises on a zero divisor of either sign. *)
Definition div (x y : float) : result float :=
  if PrimFloat.eqb y 0%float then Err ZeroDivisionError
  else Ok (PrimFloat.div x y).

(** [math.fmod]: the exact remainder, with the sign of the dividend. *)
Definition fmod (x y : float) : float :=
  match Prim2SF x, Prim2SF y with
  | S754_nan, _ | _, S754_nan => nan
  | S754_infinity _, _ => nan
  | _, S754_zero _ => nan
  | _, S754_infinity _ => x
  | S754_zero _, S754_finite _ _ _ => x
  | S754_finite sx mx ex, S754_finite _ my ey =>
      let e := Z.min ex ey in
      let r := Z.rem (Z.shiftl (Zpos mx) (ex - e)) (Z.shiftl (Zpos my) (ey - e)) in
      SF2Prim (binary_normalize prec emax (cond_Zopp sx r) e sx)
  end.

(** [x % y] on floats: [fmod], moved to the sign of the divisor. *)
Definition mod_ (x y : float) : result float :=
  if PrimFloat.eqb y 0%float then Err ZeroDivisionError
  else
    let m := fmod x y in
    if PrimFloat.eqb m 0%float then
      Ok (if PrimFloat.ltb y 0%float then (-0)%float else 0%float)
    else if Bool.eqb (PrimFloat.ltb y 0%float) (PrimFloat.ltb m 0%float) then Ok m
    else Ok (PrimFloat.add m y).

(** [max(a, b)] and [min(a, b)] keep the first argument unless the second
    one is strictly larger (smaller). *)
Definition fmax (a b : float) : float := if PrimFloat.ltb a b then b else a.
Definition fmin (a b : float) : float := if PrimFloat.ltb b a then b else a.

(** [k * x] and [x * k] with an int [k] and a float [x]. *)
Definition int_mul_float (k : Z) (x : float) : result float :=
  kf <- float_of_int k ;; Ok (PrimFloat.mul kf x).

(** [x / k] with a float [x] and an int [k]. *)
Definition float_div_int (x : float) (k : Z) : result float :=
  kf <- float_of_int k ;; div x kf.

Definition float_mul_int (x : float) (k : Z) : result float :=
  kf <- float_of_int k ;; Ok (PrimFloat.mul x kf).

End Py.

(** ** Strings: [str.lower] and the [in] test, on ASCII text *)

Local Open Scope string_scope.

Definition lower_ascii (c : ascii) : ascii :=
  let n := nat_of_ascii c in
  if ((65 <=? n) && (n <=? 90))%nat then ascii_of_nat (n + 32) else c.

Fixpoint lower (s : string) : string :=
  match s with
  | EmptyString => EmptyString
  | String c s' => String (lower_ascii c) (lower s')
  end.

Fixpoint starts_with (kw s : string) : bool :=
  match kw, s with
  | EmptyString, _ => true
  | String _ _, EmptyString => false
  | String a kw', String b s' => Ascii.eqb a b && starts_with kw' s'
  end.

(** [kw in s] *)
Fixpoint contains (kw s : string) : bool :=
  starts_with kw s ||
  match s with
  | EmptyString => false
  | String _ s' => contains kw s'
  end.

(** ** Style detection ([post_processing.py], lines 222-246) *)

Inductive StyleCategory : Type := Swing | Funk | Rock | Reggae | Neutral.

Definition SWING_STYLES : list string :=
  ["jazz"; "swing"; "blues"; "shuffle"; "bebop"; "dixieland"; "ragtime"; "big band"].
Definition ROCK_STYLES : list string :=
  ["rock"; "metal"; "punk"; "grunge"; "hard rock"; "classic rock"; "alternative"].
Definition FUNK_STYLES : list string :=
  ["funk"; "soul"; "motown"; "r&b"; "neo-soul"; "disco"].
Definition REGGAE_STYLES : list string :=
  ["reggae"; "ska"; "dub"; "dancehall"].

(** One [for keyword in STYLES: if keyword in prompt_lower: return c] loop:
    [Some c] is the early return, [None] falls through to the next loop. *)
Fixpoint scan_keywords (styles : list string) (prompt_lower : string)
    (c : StyleCategory) : option StyleCategory :=
  match styles with
  | [] => None
  | keyword :: rest =>
      if contains keyword prompt_lower then Some c
      else scan_keywords rest prompt_lower c
  end.

Definition _detect_style_category (style_prompt : string) : StyleCategory :=
  let prompt_lower := lower style_prompt in
  match scan_keywords SWING_STYLES prompt_lower Swing with
  | Some c => c
  | None =>
  match scan_keywords FUNK_STYLES prompt_lower Funk with
  | Some c => c
  | None =>
  match scan_keywords ROCK_STYLES prompt_lower Rock with
  | Some c => c
  | None =>
  match scan_keywords REGGAE_STYLES prompt_lower Reggae with
  | Some c => c
  | None => Neutral
  end end end end.

(** The keyword set of a category, and the categories tried before it. *)
Definition keywords (c : StyleCategory) : list string :=
  match c with
  | Swing => SWING_STYLES
  | Funk => FUNK_STYLES
  | Rock => ROCK_STYLES
  | Reggae => REGGAE_STYLES
  | Neutral => []
  end.

Definition tried_before (c : StyleCategory) : list StyleCategory :=
  match c with
  | Swing => []
  | Funk => [Swing]
  | Rock => [Swing; Funk]
  | Reggae => [Swing; Funk; Rock]
  | Neutral => [Swing; Funk; Rock; Reggae]
  end.

(** [s] occurs in [t] as a run of consecutive characters. *)
Definition occurs_in (kw s : string) : Prop :=
  exists pre post, s = pre ++ kw ++ post.

(** Some keyword of category [c] occurs in the text. *)
Definition matches (c : StyleCategory) (text : string) : Prop :=
  exists kw, In kw (keywords c) /\ occurs_in kw text.

(** ** Configuration ([config.py], post-processing parameters) *)

Local Open Scope list_scope.
Local Open Scope float_scope.
Set Warnings "-inexact-float".

Record Settings : Type := {
  quantize_grid : float;
  swing_ratio : float;
  humanize_timing : float;
  humanize_velocity : Z;
  velocity_min : Z;
  velocity_max : Z
}.

Definition settings : Settings := {|
  quantize_grid := 0.25;
  swing_ratio := 0.66;
  humanize_timing := 0.015;
  humanize_velocity := 8%Z;
  velocity_min := 40%Z;
  velocity_max := 120%Z
|}.

(** ** Notes

    A note is a dict.  Drum notes carry the keys [drum], [midi_note],
    [time], [velocity]; piano notes carry [pitch], [time], [duration],
    [velocity] ([primer_generator.py], the two validators).  A key that a
    dict may lack is an [option] field; [time] and [velocity] are in every
    note. *)

Record Note : Type := {
  drum : option string;
  midi_note : option Z;
  pitch : option Z;
  duration : option float;
  time : float;
  velocity : Z
}.

Definition with_time (n : Note) (t : float) : Note :=
  {| drum := drum n; midi_note := midi_note n; pitch := pitch n;
     duration := duration n; time := t; velocity := velocity n |}.

Definition with_duration (n : Note) (d : float) : Note :=
  {| drum := drum n; midi_note := midi_note n; pitch := pitch n;
     duration := Some d; time := time n; velocity := velocity n |}.

Definition with_velocity (n : Note) (v : Z) : Note :=
  {| drum := drum n; midi_note := midi_note n; pitch := pitch n;
     duration := duration n; time := time n; velocity := v |}.

Definition drum_note (name : string) (key : Z) (t : float) (v : Z) : Note :=
  {| drum := Some name; midi_note := Some key; pitch := None;
     duration := None; time := t; velocity := v |}.

Definition piano_note (p : Z) (t d : float) (v : Z) : Note :=
  {| drum := None; midi_note := None; pitch := Some p;
     duration := Some d; time := t; velocity := v |}.

(** ** Quantization ([post_processing.py], lines 25-47) *)

(** [round(x / grid) * grid] *)
Definition snap (x grid : float) : result float :=
  q <- Py.div x grid ;;
  k <- Py.round q ;;
  Py.int_mul_float k grid.

(** The body of the loop of [quantize_notes], on one note. *)
Definition quantize_note (grid : float) (note : Note) : result Note :=
  t <- snap (time note) grid ;;
  let n := with_time note t in
  match duration n with
  | Some d =>
      x <- snap d grid ;;
      Ok (with_duration n (Py.fmax grid x))
  | None => Ok n
  end.

Fixpoint quantize_loop (grid : float) (notes quantized : list Note)
    : result (list Note) :=
  match notes with
  | [] => Ok quantized
  | note :: rest =>
      n <- quantize_note grid note ;;
      quantize_loop grid rest (quantized ++ [n])
  end.

(** [if grid is None: grid = settings.quantize_grid] *)
Definition effective_grid (cfg : Settings) (grid : option float) : float :=
  match grid with
  | Some g => g
  | None => quantize_grid cfg
  end.

Definition quantize_notes (cfg : Settings) (notes : list Note)
    (grid : option float) : result (list Note) :=
  let grid := effective_grid cfg grid in
  quantize_loop grid notes [].

(** ** Style transforms ([post_processing.py], lines 52-115, 156-176) *)

(** [abs(x) < eps] *)
Definition near_zero (x eps : float) : bool := PrimFloat.ltb (PrimFloat.abs x) eps.

Definition swing_note (ratio : float) (note : Note) : result Note :=
  beat_pos <- Py.mod_ (time note) 1.0 ;;
  if near_zero (beat_pos - 0.5) 0.01 then
    let beat_floor := time note - beat_pos in
    Ok (with_time note (beat_floor + ratio))
  else if near_zero (beat_pos - 0.75) 0.01 then
    let beat_floor := time note - beat_pos in
    Ok (with_time note (beat_floor + 0.5 + ratio / 2))
  else Ok note.

(** A loop [for note in notes: n = body(note); out.append(n)]. *)
Fixpoint for_each (body : Note -> result Note) (notes out : list Note)
    : result (list Note) :=
  match notes with
  | [] => Ok out
  | note :: rest =>
      n <- body note ;;
      for_each body rest (out ++ [n])
  end.

Definition apply_swing (cfg : Settings) (notes : list Note)
    (ratio : option float) : result (list Note) :=
  let ratio := match ratio with Some r => r | None => swing_ratio cfg end in
  if near_zero (ratio - 0.5) 0.01 then Ok notes
  else for_each (swing_note ratio) notes [].

(** [int(velocity * factor)] *)
Definition scale_velocity (v : Z) (factor : float) : result Z :=
  x <- Py.int_mul_float v factor ;;
  Py.int_of_float x.

Definition rock_note (cfg : Settings) (note : Note) : result Note :=
  beat_pos <- Py.mod_ (time note) 4.0 ;;
  if near_zero beat_pos 0.01 || near_zero (beat_pos - 2.0) 0.01 then
    v <- scale_velocity (velocity note) 1.15 ;;
    Ok (with_velocity note (Z.min (velocity_max cfg) v))
  else if near_zero (beat_pos - 1.0) 0.01 || near_zero (beat_pos - 3.0) 0.01 then
    v <- scale_velocity (velocity note) 0.95 ;;
    Ok (with_velocity note (Z.max (velocity_min cfg) v))
  else Ok note.

Definition apply_rock_emphasis (cfg : Settings) (notes : list Note)
    : result (list Note) :=
  for_each (rock_note cfg) notes [].

Definition reggae_note (cfg : Settings) (note : Note) : result Note :=
  beat_pos <- Py.mod_ (time note) 1.0 ;;
  if near_zero (beat_pos - 0.5) 0.1 then
    v <- scale_velocity (velocity note) 1.2 ;;
    Ok (with_velocity note (Z.min (velocity_max cfg) v))
  else if near_zero beat_pos 0.1 then
    v <- scale_velocity (velocity note) 0.85 ;;
    Ok (with_velocity note (Z.max (velocity_min cfg) v))
  else Ok note.

Definition apply_reggae_offbeat (cfg : Settings) (notes : list Note)
    : result (list Note) :=
  for_each (reggae_note cfg) notes [].

(** ** The generator of module [random]

    [random.random], [random.randint] and [random.gauss] read and advance
    one generator that belongs to the process.  Its algorithm is the
    standard library's; here it is any state with the three draws, and
    [randint] keeps its documented range. *)

Record RandomSource : Type := {
  rng : Type;
  next_random : rng -> float * rng;
  next_randint : Z -> Z -> rng -> Z * rng;
  next_gauss : float -> float -> rng -> float * rng;
  next_randint_range :
    forall a b g, (a <= b)%Z ->
      (a <= fst (next_randint a b g) <= b)%Z
}.

(** A computation that may raise and that advances the generator. *)
Definition Rand (G A : Type) : Type := G -> result A * G.

Definition ret {G A : Type} (a : A) : Rand G A := fun g => (Ok a, g).

Definition lift {G A : Type} (r : result A) : Rand G A := fun g => (r, g).

Definition rbind {G A B : Type} (m : Rand G A) (k : A -> Rand G B) : Rand G B :=
  fun g =>
    match m g with
    | (Ok a, g') => k a g'
    | (Err e, g') => (Err e, g')
    end.

Declare Scope rand_scope.
Delimit Scope rand_scope with rand.
Notation "x <~ m ;; k" := (rbind m (fun x => k))
  (at level 61, m at next level, right associativity) : rand_scope.

Section Random.

Context (R : RandomSource).

Definition random_random : Rand (rng R) float :=
  fun g => let (x, g') := next_random R g in (Ok x, g').

(** [random.randint(a, b)] raises on an empty range. *)
Definition random_randint (a b : Z) : Rand (rng R) Z :=
  fun g =>
    if (b <? a)%Z then (Err ValueError, g)
    else let (x, g') := next_randint R a b g in (Ok x, g').

Definition random_gauss (mu sigma : float) : Rand (rng R) float :=
  fun g => let (x, g') := next_gauss R mu sigma g in (Ok x, g').

End Random.

(** ** Funk ghost notes and humanization
       ([post_processing.py], lines 118-153 and 181-217) *)

(** [{n["time"] for n in result if n.get("drum") == "snare"}] *)
Definition is_snare (n : Note) : bool :=
  match drum n with
  | Some d => String.eqb d "snare"
  | None => false
  end.

Definition snare_times_of (notes : list Note) : list float :=
  map time (filter is_snare notes).

(** [max((n["time"] for n in result), default=0)] *)
Definition max_time_of (notes : list Note) : float :=
  match notes with
  | [] => 0
  | n :: rest => fold_left Py.fmax (map time rest) (time n)
  end.

(** [any(abs(time - t) < 0.01 for t in snare_times)] *)
Definition near_snare (t : float) (snare_times : list float) : bool :=
  existsb (fun s => near_zero (t - s) 0.01) snare_times.

(** [bar * 4.0 + sixteenth * 0.25] *)
Definition slot_time (bar sixteenth : Z) : result float :=
  a <- Py.int_mul_float bar 4.0 ;;
  b <- Py.int_mul_float sixteenth 0.25 ;;
  Ok (a + b).

Definition ghost_note (t : float) (v : Z) : Note :=
  drum_note "snare" 38 t v.

Local Open Scope rand_scope.

Section Stochastic.

Context (R : RandomSource).

(** The inner loop [for sixteenth in range(16)]: [break] ends it,
    [continue] goes on with the next slot. *)
Fixpoint ghost_slots (bar : Z) (max_time : float) (snare_times : list float)
    (sixteenths : list Z) (new_ghosts : list Note) : Rand (rng R) (list Note) :=
  match sixteenths with
  | [] => ret new_ghosts
  | sixteenth :: rest =>
      t <~ lift (slot_time bar sixteenth) ;;
      if PrimFloat.ltb max_time t then ret new_ghosts
      else if near_snare t snare_times then
        ghost_slots bar max_time snare_times rest new_ghosts
      else
        let beat_sub := (sixteenth mod 4)%Z in
        if (beat_sub =? 1)%Z || (beat_sub =? 3)%Z then
          x <~ random_random R ;;
          if PrimFloat.ltb x 0.4 then
            v <~ random_randint R 35 55 ;;
            ghost_slots bar max_time snare_times rest
              (new_ghosts ++ [ghost_note t v])
          else ghost_slots bar max_time snare_times rest new_ghosts
        else ghost_slots bar max_time snare_times rest new_ghosts
  end.

Definition range16 : list Z := map Z.of_nat (seq 0 16).

(** The outer loop [for bar in range(bars)]. *)
Fixpoint ghost_bars (max_time : float) (snare_times : list float)
    (bars : list Z) (new_ghosts : list Note) : Rand (rng R) (list Note) :=
  match bars with
  | [] => ret new_ghosts
  | bar :: rest =>
      g <~ ghost_slots bar max_time snare_times range16 new_ghosts ;;
      ghost_bars max_time snare_times rest g
  end.

(** [range(n)] *)
Definition range (n : Z) : list Z := map Z.of_nat (seq 0 (Z.to_nat n)).

Definition add_funk_ghost_notes (notes : list Note) : Rand (rng R) (list Note) :=
  let result := notes in
  let snare_times := snare_times_of result in
  let max_time := max_time_of result in
  q <~ lift (Py.div max_time 4.0) ;;
  b <~ lift (Py.int_of_float q) ;;
  let bars := (b + 1)%Z in
  new_ghosts <~ ghost_bars max_time snare_times (range bars) [] ;;
  ret (result ++ new_ghosts).

Definition humanize_note (cfg : Settings) (timing_amount : float)
    (velocity_amount : Z) (note : Note) : Rand (rng R) Note :=
  time_offset <~ random_gauss R 0 (timing_amount / 2) ;;
  let time_offset := Py.fmax (- timing_amount) (Py.fmin timing_amount time_offset) in
  let n := with_time note (Py.fmax 0.0 (time note + time_offset)) in
  vel_offset <~ random_randint R (- velocity_amount) velocity_amount ;;
  ret (with_velocity n
         (Z.max (velocity_min cfg)
            (Z.min (velocity_max cfg) (velocity n + vel_offset)))).

Fixpoint humanize_loop (cfg : Settings) (timing_amount : float)
    (velocity_amount : Z) (notes humanized : list Note)
    : Rand (rng R) (list Note) :=
  match notes with
  | [] => ret humanized
  | note :: rest =>
      n <~ humanize_note cfg timing_amount velocity_amount note ;;
      humanize_loop cfg timing_amount velocity_amount rest (humanized ++ [n])
  end.

Definition humanize (cfg : Settings) (notes : list Note)
    (timing_amount : option float) (velocity_amount : option Z)
    : Rand (rng R) (list Note) :=
  let timing_amount :=
    match timing_amount with Some t => t | None => humanize_timing cfg end in
  let velocity_amount :=
    match velocity_amount with Some v => v | None => humanize_velocity cfg end in
  humanize_loop cfg timing_amount velocity_amount notes [].

(** The style step of [post_process] (lines 273-292). *)
Definition style_transform (cfg : Settings) (category : StyleCategory)
    (instrument : string) (processed : list Note) : Rand (rng R) (list Note) :=
  match category with
  | Swing => lift (apply_swing cfg processed None)
  | Rock => lift (apply_rock_emphasis cfg processed)
  | Funk =>
      processed <~ lift (apply_rock_emphasis cfg processed) ;;
      if String.eqb instrument "drums" then add_funk_ghost_notes processed
      else ret processed
  | Reggae => lift (apply_reggae_offbeat cfg processed)
  | Neutral => ret processed
  end.

End Stochastic.

(** [list.sort(key=...)] is stable: an element goes before the first one
    whose key is strictly larger than its own. *)
Fixpoint insert_by {A : Type} (lt : A -> A -> bool) (x : A) (l : list A) : list A :=
  match l with
  | [] => [x]
  | y :: l' => if lt y x then y :: insert_by lt x l' else x :: y :: l'
  end.

Fixpoint sort_by {A : Type} (lt : A -> A -> bool) (l : list A) : list A :=
  match l with
  | [] => []
  | x :: l' => insert_by lt x (sort_by lt l')
  end.

Definition post_process (R : RandomSource) (cfg : Settings)
    (notes : list Note) (style instrument : string) : Rand (rng R) (list Note) :=
  match notes with
  | [] => ret notes
  | _ =>
      processed <~ lift (quantize_notes cfg notes None) ;;
      let category := _detect_style_category style in
      processed <~ style_transform R cfg category instrument processed ;;
      processed <~ humanize R cfg processed None None ;;
      ret (sort_by (fun a b => PrimFloat.ltb (time a) (time b)) processed)
  end.

(** ** Sequence conversion ([magenta_continuator.py], lines 40-47, 173-263,
       401-414, 465-493)

    The sequence is the [FallbackSequence] of the module, the object the
    builders return when [note_seq] is not installed and the one
    [_write_midi_with_mido] is given.  Its [tempos] hold one
    [_FallbackTempo], here the [qpm] it carries. *)

Record FallbackNote : Type := {
  fn_pitch : Z;
  start_time : float;
  end_time : float;
  fn_velocity : Z;
  is_drum : bool;
  instrument : Z
}.

Record FallbackSequence : Type := {
  notes : list FallbackNote;
  tempos : list Z;
  tempo : Z;
  ticks_per_quarter : Z;
  total_time : float
}.

(** [FallbackSequence(tempo)] *)
Definition new_sequence (tempo : Z) : FallbackSequence :=
  {| notes := []; tempos := [tempo]; tempo := tempo;
     ticks_per_quarter := 480; total_time := 0.0 |}.

Definition add_note (seq : FallbackSequence) (pitch : Z) (start_time end_time : float)
    (velocity : Z) (is_drum : bool) (instrument : Z) : FallbackSequence :=
  {| notes := notes seq ++
       [ {| fn_pitch := pitch; start_time := start_time; end_time := end_time;
            fn_velocity := velocity; is_drum := is_drum; instrument := instrument |} ];
     tempos := tempos seq;
     tempo := tempo seq;
     ticks_per_quarter := ticks_per_quarter seq;
     total_time := Py.fmax (total_time seq) end_time |}.

(** [beats * 60.0 / tempo] *)
Definition _beats_to_seconds (beats : float) (tempo : Z) : result float :=
  Py.float_div_int (beats * 60.0) tempo.

(** [note[key]] raises [KeyError] on a missing key. *)
Definition get_key {A : Type} (field : option A) : result A :=
  match field with
  | Some a => Ok a
  | None => Err KeyError
  end.

Fixpoint drum_loop (tempo : Z) (notes : list Note) (seq : FallbackSequence)
    : result FallbackSequence :=
  match notes with
  | [] => Ok seq
  | note :: rest =>
      start_seconds <- _beats_to_seconds (time note) tempo ;;
      p <- get_key (midi_note note) ;;
      drum_loop tempo rest
        (add_note seq p start_seconds (start_seconds + 0.05)
           (velocity note) true 9)
  end.

Definition _drum_notes_to_sequence (notes : list Note) (tempo : Z)
    : result FallbackSequence :=
  drum_loop tempo notes (new_sequence tempo).

Fixpoint piano_loop (tempo : Z) (notes : list Note) (seq : FallbackSequence)
    : result FallbackSequence :=
  match notes with
  | [] => Ok seq
  | note :: rest =>
      start_seconds <- _beats_to_seconds (time note) tempo ;;
      d <- get_key (duration note) ;;
      len <- _beats_to_seconds d tempo ;;
      let end_seconds := start_seconds + len in
      p <- get_key (pitch note) ;;
      piano_loop tempo rest
        (add_note seq p start_seconds end_seconds (velocity note) false 0)
  end.

Definition _piano_notes_to_sequence (notes : list Note) (tempo : Z)
    : result FallbackSequence :=
  piano_loop tempo notes (new_sequence tempo).

Definition primer_only_to_sequence (notes : list Note) (instrument : string)
    (tempo : Z) : result FallbackSequence :=
  if String.eqb instrument "drums" then _drum_notes_to_sequence notes tempo
  else _piano_notes_to_sequence notes tempo.

(** ** The fallback MIDI writer ([magenta_continuator.py], lines 419-462)

    The track is the list of the messages the function hands to mido, in
    order: the tempo message with the BPM given to [mido.bpm2tempo], then
    one message per event with its delta time.  What mido does with them
    (the conversion of the tempo, the range checks of its constructors,
    the bytes of the file) is the library's and is not part of the model. *)

Inductive msg_type : Type := note_on | note_off.

(** [(tick, msg_type, pitch, velocity, channel)] *)
Record Event : Type := {
  ev_tick : Z;
  ev_type : msg_type;
  ev_pitch : Z;
  ev_velocity : Z;
  ev_channel : Z
}.

Inductive TrackMessage : Type :=
| MetaSetTempo (bpm : Z)
| Message (type : msg_type) (note velocity channel time : Z).

(** [int(seconds / 60 * tempo_bpm * 480)] *)
Definition seconds_to_tick (seconds : float) (tempo_bpm : Z) : result Z :=
  a <- Py.float_div_int seconds 60 ;;
  b <- Py.float_mul_int a tempo_bpm ;;
  c <- Py.float_mul_int b 480 ;;
  Py.int_of_float c.

Definition note_events (tempo_bpm : Z) (n : FallbackNote) : result (list Event) :=
  start_tick <- seconds_to_tick (start_time n) tempo_bpm ;;
  end_tick <- seconds_to_tick (end_time n) tempo_bpm ;;
  let channel := if is_drum n then 9%Z else 0%Z in
  let velocity := fn_velocity n in
  Ok [ {| ev_tick := start_tick; ev_type := note_on; ev_pitch := fn_pitch n;
          ev_velocity := velocity; ev_channel := channel |};
       {| ev_tick := end_tick; ev_type := note_off; ev_pitch := fn_pitch n;
          ev_velocity := 0; ev_channel := channel |} ].

Fixpoint collect_events (tempo_bpm : Z) (notes : list FallbackNote)
    (events : list Event) : result (list Event) :=
  match notes with
  | [] => Ok events
  | n :: rest =>
      evs <- note_events tempo_bpm n ;;
      collect_events tempo_bpm rest (events ++ evs)
  end.

(** [events.sort(key=lambda e: e[0])] *)
Definition sort_events (events : list Event) : list Event :=
  sort_by (fun a b => (ev_tick a <? ev_tick b)%Z) events.

(** The loop that turns absolute ticks into delta ticks. *)
Fixpoint delta_loop (prev_tick : Z) (events : list Event) : list TrackMessage :=
  match events with
  | [] => []
  | e :: rest =>
      let delta := Z.max 0 (ev_tick e - prev_tick) in
      Message (ev_type e) (ev_pitch e) (ev_velocity e) (ev_channel e) delta
      :: delta_loop (ev_tick e) rest
  end.

(** [int(sequence.tempos[0].qpm)] when there is a tempo, [sequence.tempo]
    otherwise. *)
Definition sequence_tempo_bpm (sequence : FallbackSequence) : Z :=
  match tempos sequence with
  | qpm :: _ => qpm
  | [] => tempo sequence
  end.

Definition _write_midi_with_mido (sequence : FallbackSequence)
    : result (list TrackMessage) :=
  let tempo_bpm := sequence_tempo_bpm sequence in
  events <- collect_events tempo_bpm (notes sequence) [] ;;
  let events := sort_events events in
  Ok (MetaSetTempo tempo_bpm :: delta_loop 0 events).

(** ** Reading a track back

    A reader of the file accumulates the delta times of the messages into
    absolute ticks. *)
Fixpoint accumulate (now : Z) (track : list TrackMessage) : list Event :=
  match track with
  | [] => []
  | MetaSetTempo _ :: rest => accumulate now rest
  | Message ty p v ch delta :: rest =>
      let now := (now + delta)%Z in
      {| ev_tick := now; ev_type := ty; ev_pitch := p;
         ev_velocity := v; ev_channel := ch |} :: accumulate now rest
  end.

Definition decode_track (track : list TrackMessage) : list Event :=
  accumulate 0 track.

(** The ticks of a list of events never go down, starting from [prev]. *)
Fixpoint ticks_from (prev : Z) (events : list Event) : Prop :=
  match events with
  | [] => True
  | e :: rest => (prev <= ev_tick e)%Z /\ ticks_from (ev_tick e) rest
  end.



(** ** A generator for examples: a tape of prepared draws

    Each draw takes the next number of the tape (0 when the tape is used
    up) and maps it into the range of the draw. *)

Definition tape_next (g : list Z) : Z * list Z :=
  match g with
  | [] => (0%Z, [])
  | x :: g' => (x, g')
  end.

Definition Z2F (z : Z) : float := SF2Prim (binary_normalize prec emax z 0 false).

Definition tape_random (g : list Z) : float * list Z :=
  let (x, g') := tape_next g in (Z2F (x mod 100) / 100, g').

Definition tape_randint (a b : Z) (g : list Z) : Z * list Z :=
  let (x, g') := tape_next g in ((a + x mod (b - a + 1))%Z, g').

Definition tape_gauss (mu sigma : float) (g : list Z) : float * list Z :=
  let (x, g') := tape_next g in (mu + sigma * Z2F (x mod 7 - 3), g').

Lemma tape_randint_range (a b : Z) (g : list Z) :
  (a <= b -> a <= fst (tape_randint a b g) <= b)%Z.
Proof.
  intros Hab. unfold tape_randint. destruct (tape_next g) as [x g']. simpl.
  pose proof (Z.mod_pos_bound x (b - a + 1)). lia.
Qed.

Definition TapeSource : RandomSource :=
  {| rng := list Z;
     next_random := tape_random;
     next_randint := tape_randint;
     next_gauss := tape_gauss;
     next_randint_range := tape_randint_range |}.



Definition note_on_event (tick pitch velocity channel : Z) : Event :=
  {| ev_tick := tick; ev_type := note_on; ev_pitch := pitch;
     ev_velocity := velocity; ev_channel := channel |}.

Definition note_off_event (tick pitch channel : Z) : Event :=
  {| ev_tick := tick; ev_type := note_off; ev_pitch := pitch;
     ev_velocity := 0; ev_channel := channel |}.

Definition channel_of (n : FallbackNote) : Z := if is_drum n then 9%Z else 0%Z.

(** ** Validated drum notes ([primer_generator.py], lines 21-34, 127-150)

    The raw notes are the parsed JSON objects, their [time] already a
    float and their [velocity] already an int. *)

Definition DRUM_MIDI_MAP : list (string * Z) :=
  [ ("kick", 36%Z); ("snare", 38%Z); ("rimshot", 37%Z); ("clap", 39%Z);
    ("hihat", 42%Z); ("hihat_open", 46%Z); ("ride", 51%Z); ("crash", 49%Z);
    ("tom_high", 50%Z); ("tom_mid", 47%Z); ("tom_low", 45%Z);
    ("cowbell", 56%Z) ]%string.

Fixpoint lookup (key : string) (table : list (string * Z)) : option Z :=
  match table with
  | [] => None
  | (k, v) :: rest => if String.eqb k key then Some v else lookup key rest
  end.

Record RawDrumNote : Type := {
  raw_drum : string;
  raw_time : float;
  raw_velocity : Z
}.

Fixpoint _validate_drum_notes (cfg : Settings) (notes : list RawDrumNote)
    (max_time : float) : list Note :=
  match notes with
  | [] => []
  | note :: rest =>
      match lookup (raw_drum note) DRUM_MIDI_MAP with
      | None => _validate_drum_notes cfg rest max_time
      | Some key =>
          let t := Py.fmax 0.0 (Py.fmin (raw_time note) max_time) in
          let v := Z.max (velocity_min cfg)
                     (Z.min (raw_velocity note) (velocity_max cfg)) in
          drum_note (raw_drum note) key t v
          :: _validate_drum_notes cfg rest max_time
      end
  end.

(** The keys a builder reads from a note. *)
Definition has_keys (instrument : string) (n : Note) : Prop :=
  if String.eqb instrument "drums" then midi_note n <> None
  else pitch n <> None /\ duration n <> None.



(** What [_drum_notes_to_sequence] makes of one note. *)
Definition drum_built (tempo : Z) (n : Note) (fn : FallbackNote) : Prop :=
  _beats_to_seconds (time n) tempo = Ok (start_time fn)
  /\ end_time fn = (start_time fn + 0.05)%float
  /\ midi_note n = Some (fn_pitch fn)
  /\ fn_velocity fn = velocity n
  /\ is_drum fn = true.

(** The sequence the drum builder makes of one kick at beat 0, tempo 120. *)
Definition kick_sequence : FallbackSequence :=
  {| notes := [ {| fn_pitch := 36%Z; start_time := 0; end_time := 0.05;
                  fn_velocity := 100%Z; is_drum := true; instrument := 9%Z |} ];
     tempos := [120%Z]; tempo := 120%Z; ticks_per_quarter := 480%Z;
     total_time := 0.05 |}.

(** ** Velocity bounds, ghost notes and draws *)

Definition in_bounds (cfg : Settings) (n : Note) : Prop :=
  (velocity_min cfg <= velocity n <= velocity_max cfg)%Z.

(** The configured bounds are MIDI velocities. *)
Definition midi_bounds (cfg : Settings) : Prop :=
  (0 <= velocity_min cfg <= velocity_max cfg)%Z /\ (velocity_max cfg <= 127)%Z.

(** What the loops of [add_funk_ghost_notes] guarantee of a note they
    append, given the latest time and the snare times of the input. *)
Definition ghost_of (max_time : float) (snare_times : list float) (n : Note) : Prop :=
  exists bar sixteenth t v,
    n = ghost_note t v
    /\ slot_time bar sixteenth = Ok t
    /\ In sixteenth range16
    /\ ((sixteenth mod 4 = 1)%Z \/ (sixteenth mod 4 = 3)%Z)
    /\ (35 <= v <= 55)%Z
    /\ near_snare t snare_times = false
    /\ PrimFloat.ltb max_time t = false.

(** [draws R n g g']: the generator goes from state [g] to state [g'] by
    [n] draws. *)
Inductive draws (R : RandomSource) : nat -> rng R -> rng R -> Prop :=
| draws_none (g : rng R) : draws R 0 g g
| draws_random (n : nat) (g g' : rng R) :
    draws R n (snd (next_random R g)) g' -> draws R (S n) g g'
| draws_randint (n : nat) (a b : Z) (g g' : rng R) :
    draws R n (snd (next_randint R a b g)) g' -> draws R (S n) g g'
| draws_gauss (n : nat) (mu sigma : float) (g g' : rng R) :
    draws R n (snd (next_gauss R mu sigma g)) g' -> draws R (S n) g g'.

(** [int(v * factor)] is defined and on the side of [v] that [up] names. *)
Definition scales (factor : float) (up : bool) (v : Z) : bool :=
  match scale_velocity v factor with
  | Ok r => if up then (v <=? r)%Z else (r <=? v)%Z
  | Err _ => false
  end.

(** ** Exact binary64 values *)

Local Open Scope Z_scope.

Definition exact_record (m : Z) : shr_record :=
  {| shr_m := m; shr_r := false; shr_s := false |}.

Definition two52 : positive := 4503599627370496.

(** A normal float: a full mantissa of 53 bits. *)
Definition normal (m : positive) (e : Z) : Prop :=
  Zpos (digits2_pos m) = 53 /\ -1074 <= e <= 971.

(** [f] is the float of the int [k], exactly. *)
Definition int_float (k : Z) (f : float) : Prop :=
  (k = 0 /\ f = 0%float)
  \/ exists s m e K,
       Prim2SF f = S754_finite s m e /\ normal m e /\ -52 <= e
       /\ k = cond_Zopp s K
       /\ (0 <= e -> K = Zpos m * 2 ^ e)
       /\ (e < 0 -> Zpos m = K * 2 ^ (- e)).

(** A grid that is a power of two, at most 1: 1, 1/2, 1/4, 1/8, ... *)
Definition pow2_grid (g : float) : Prop :=
  exists eg, Prim2SF g = S754_finite false two52 eg /\ -1074 <= eg <= -52.

(** ** The quantizer as the specification words it

    [round(x / g) * g] as one float expression, for a quotient that is a
    finite number, and the note it gives. *)

Definition finite (x : float) : bool :=
  match Prim2SF x with
  | S754_zero _ | S754_finite _ _ _ => true
  | _ => false
  end.

Definition round_or_zero (x : float) : Z :=
  match Py.round x with
  | Ok k => k
  | Err _ => 0
  end.

Definition snapped (x g : float) : float :=
  (Z2F (round_or_zero (x / g)) * g)%float.

Definition quantized (g : float) (n : Note) : Note :=
  {| drum := drum n; midi_note := midi_note n; pitch := pitch n;
     duration :=
       match duration n with
       | Some d => Some (Py.fmax g (snapped d g))
       | None => None
       end;
     time := snapped (time n) g;
     velocity := velocity n |}.

(** The quotients the quantizer rounds are finite numbers. *)
Definition quantizable (g : float) (n : Note) : Prop :=
  finite (time n / g) = true
  /\ forall d, duration n = Some d -> finite (d / g) = true.

(** ** Numbers and their order

    [x == x] holds of every float but [nan]. *)

Definition is_number (x : float) : bool := PrimFloat.eqb x x.

(** The times of a list of notes never go down, starting from [prev]. *)
Fixpoint times_from (prev : float) (ns : list Note) : Prop :=
  match ns with
  | [] => True
  | n :: rest => PrimFloat.leb prev (time n) = true /\ times_from (time n) rest
  end.

(** ** What a stage keeps of a note *)

(** The two notes differ in their time at most. *)
Definition same_but_time (n n' : Note) : Prop := n' = with_time n (time n').

(** The two notes differ in their velocity at most. *)
Definition same_but_velocity (n n' : Note) : Prop :=
  n' = with_velocity n (velocity n').

(** What quantization keeps of a note, and the least duration it gives. *)
Definition quantized_frame (g : float) (n n' : Note) : Prop :=
  drum n' = drum n /\ midi_note n' = midi_note n /\ pitch n' = pitch n
  /\ velocity n' = velocity n
  /\ match duration n, duration n' with
     | Some _, Some d' => PrimFloat.ltb d' g = false
     | None, None => True
     | _, _ => False
     end.

(** ** What the Humanizer makes of a note

    [timing_of] and [velocity_amount_of] are the amounts in force: the
    argument, or the configured one when the argument is [None]. *)

Definition timing_of (cfg : Settings) (timing_amount : option float) : float :=
  match timing_amount with Some t => t | None => humanize_timing cfg end.

Definition velocity_amount_of (cfg : Settings) (velocity_amount : option Z) : Z :=
  match velocity_amount with Some v => v | None => humanize_velocity cfg end.

Definition humanized (cfg : Settings) (ta : float) (va : Z) (n n' : Note) : Prop :=
  drum n' = drum n /\ midi_note n' = midi_note n /\ pitch n' = pitch n
  /\ duration n' = duration n
  /\ (exists offset : float,
        time n' = Py.fmax 0 (time n + offset)
        /\ (PrimFloat.leb 0 ta = true ->
            PrimFloat.leb (- ta) offset = true /\ PrimFloat.leb offset ta = true))
  /\ exists offset : Z,
       (- va <= offset <= va)%Z
       /\ velocity n' =
          Z.max (velocity_min cfg) (Z.min (velocity_max cfg) (velocity n + offset)).

(** The key of the sort that ends [post_process]. *)
Definition time_lt (a b : Note) : bool := PrimFloat.ltb (time a) (time b).

(** The one style step that adds notes: Funk on drums. *)
Definition adds_ghosts (style instrument : string) : bool :=
  match _detect_style_category style with
  | Funk => String.eqb instrument "drums"
  | _ => false
  end.

(** ** The messages of a track, apart from their delta times *)

(** [a] comes before [b] in [l]. *)
Definition precedes {A : Type} (a b : A) (l : list A) : Prop :=
  exists l1 l2 l3, l = l1 ++ a :: l2 ++ b :: l3.

Definition delta_time (m : TrackMessage) : Z :=
  match m with
  | MetaSetTempo _ => 0%Z
  | Message _ _ _ _ delta => delta
  end.

(** A message with its delta time set to 0. *)
Definition untimed (m : TrackMessage) : TrackMessage :=
  match m with
  | MetaSetTempo bpm => MetaSetTempo bpm
  | Message ty p v ch _ => Message ty p v ch 0%Z
  end.

Definition event_message (e : Event) : TrackMessage :=
  Message (ev_type e) (ev_pitch e) (ev_velocity e) (ev_channel e) 0%Z.

(** The Note-On and the Note-Off of a note: the Note-Off has velocity 0,
    the channel is 9 for a drum note and 0 otherwise. *)
Definition note_on_message (n : FallbackNote) : TrackMessage :=
  Message note_on (fn_pitch n) (fn_velocity n) (channel_of n) 0%Z.

Definition note_off_message (n : FallbackNote) : TrackMessage :=
  Message note_off (fn_pitch n) 0%Z (channel_of n) 0%Z.

Definition note_messages (n : FallbackNote) : list TrackMessage :=
  [note_on_message n; note_off_message n].

(** The events of a note, none when a tick cannot be computed. *)
Definition events_of (tempo_bpm : Z) (n : FallbackNote) : list Event :=
  match note_events tempo_bpm n with
  | Ok evs => evs
  | Err _ => []
  end.

(** ** What the builders make of a note *)

(** The entry [_drum_notes_to_sequence] adds for a note. *)
Definition drum_entry (tempo : Z) (n : Note) (fn : FallbackNote) : Prop :=
  drum_built tempo n fn /\ instrument fn = 9%Z.

(** The entry [_piano_notes_to_sequence] adds for a note. *)
Definition piano_entry (tempo : Z) (n : Note) (fn : FallbackNote) : Prop :=
  _beats_to_seconds (time n) tempo = Ok (start_time fn)
  /\ (exists d len,
        duration n = Some d /\ _beats_to_seconds d tempo = Ok len
        /\ end_time fn = (start_time fn + len)%float)
  /\ pitch n = Some (fn_pitch fn)
  /\ fn_velocity fn = velocity n
  /\ is_drum fn = false
  /\ instrument fn = 0%Z.

(** [total_time] after the notes were added one by one. *)
Definition latest_end (fns : list FallbackNote) : float :=
  fold_left Py.fmax (map end_time fns) 0%float.

(** ** Validated piano notes ([primer_generator.py], lines 153-175)

    A key that the parsed object lacks reads as the default of
    [note.get]; the values that are present are already ints and floats. *)

Record RawPianoNote : Type := {
  raw_pitch : option Z;
  raw_piano_time : option float;
  raw_duration : option float;
  raw_piano_velocity : option Z
}.

(** [note.get(key, default)] *)
Definition get_or {A : Type} (field : option A) (default : A) : A :=
  match field with
  | Some a => a
  | None => default
  end.

Fixpoint _validate_piano_notes (cfg : Settings) (notes : list RawPianoNote)
    (max_time : float) : list Note :=
  match notes with
  | [] => []
  | note :: rest =>
      let pitch := get_or (raw_pitch note) 60%Z in
      let time := get_or (raw_piano_time note) 0%float in
      let duration := get_or (raw_duration note) 1.0%float in
      let velocity := get_or (raw_piano_velocity note) 80%Z in
      let pitch := Z.max 21 (Z.min pitch 108) in
      let time := Py.fmax 0.0 (Py.fmin time max_time) in
      let duration := Py.fmax 0.125 (Py.fmin duration 8.0) in
      let velocity := Z.max (velocity_min cfg) (Z.min velocity (velocity_max cfg)) in
      piano_note pitch time duration velocity
      :: _validate_piano_notes cfg rest max_time
  end.

(** [drum in DRUM_MIDI_MAP] *)
Definition known_drum (note : RawDrumNote) : bool :=
  match lookup (raw_drum note) DRUM_MIDI_MAP with
  | Some _ => true
  | None => false
  end.




(** ** Instrument routing ([main.py], lines 165-174;
       [primer_generator.py], line 207) *)

(** [s in (a, b, ...)] *)
Definition among (s : string) (names : list string) : bool :=
  existsb (String.eqb s) names.

(** The instrument of a request as the handler routes it; [None] is the
    HTTP error 400 of an unknown instrument. *)
Definition route_instrument (instrument : string) : option string :=
  let instrument := lower instrument in
  if among instrument ["drums"; "percussion"; "drum"]%string then Some "drums"%string
  else if among instrument ["piano"; "melody"; "keys"; "keyboard"]%string
       then Some "piano"%string
  else None.

(** [is_drums] of [generate_primer]. *)
Definition is_drums (instrument : string) : bool :=
  among (lower instrument) ["drums"; "percussion"; "drum"]%string.

(** The slots of a bar that may get a ghost note: the "e" and the "a" of a
    beat. *)
Definition ghost_slot (sixteenth : Z) : bool :=
  ((sixteenth mod 4 =? 1) || (sixteenth mod 4 =? 3))%Z.

(** The swing ratio in force: the argument, or the configured one. *)
Definition swing_ratio_of (cfg : Settings) (ratio : option float) : float :=
  match ratio with Some r => r | None => swing_ratio cfg end.

(** The place of a float in the order of the numbers: an integer that
    grows with the float ([+0.0] and [-0.0] share the place 0). *)
Definition float_key (x : spec_float) : Z :=
  match x with
  | S754_zero _ => 0
  | S754_nan => 0
  | S754_infinity s => cond_Zopp s (2 ^ 65)
  | S754_finite s m e => cond_Zopp s ((e + 1075) * 2 ^ 53 + Zpos m)
  end.

(** [t] lies on the grid [g]: the quotient [t / g] is an integer, exactly,
    and [t] is that integer times [g], exactly. *)
Definition on_grid (g t : float) : Prop :=
  exists k kf,
    Py.float_of_int k = Ok kf
    /\ t = (kf * g)%float
    /\ (t / g)%float = kf
    /\ Py.round (t / g) = Ok k.

(** ** The note counts of the response ([main.py], lines 247-248, 286)

    [generated_notes = total_notes - primer_count], reported as
    [max(0, generated_notes)]; [primer_count] is the number of notes of
    the primer before post-processing, [total_notes] the number of notes
    of the sequence. *)
Definition generated_notes (primer_count total_notes : Z) : Z :=
  Z.max 0 (total_notes - primer_count).

(** What a note plays: its drum name, its MIDI key, its pitch. *)
Definition sound (n : Note) : option string * option Z * option Z :=
  (drum n, midi_note n, pitch n).

Definition ghost_sound : option string * option Z * option Z :=
  (Some "snare"%string, Some 38%Z, None).

(** The exception [round] raises on a quotient, if any. *)
Definition quotient_error (q : float) : option exn :=
  match Prim2SF q with
  | S754_nan => Some ValueError
  | S754_infinity _ => Some OverflowError
  | _ => None
  end.

(** * Properties *)

(** ** The [in] test and the keyword loops *)

Local Open Scope string_scope.

Lemma starts_with_spec (kw s : string) :
  starts_with kw s = true <-> exists post, s = kw ++ post.
Proof.
  revert s. induction kw as [|a kw IH]; intros s; simpl.
  - split; [intros _; now exists s | reflexivity].
  - destruct s as [|b s].
    + split; [discriminate | intros [post H]; discriminate].
    + rewrite andb_true_iff, Ascii.eqb_eq, IH. split.
      * intros [-> [post ->]]. now exists post.
      * intros [post H]. injection H as -> ->. split; [reflexivity | now exists post].
Qed.

Lemma contains_spec (kw s : string) :
  contains kw s = true <-> occurs_in kw s.
Proof.
  unfold occurs_in. induction s as [|b s IH].
  - simpl. rewrite orb_false_r, starts_with_spec. split.
    + intros [post H]. now exists "", post.
    + intros [pre [post H]]. destruct pre; simpl in H.
      * now exists post.
      * discriminate.
  - cbn [contains]. rewrite orb_true_iff, IH, starts_with_spec. split.
    + intros [[post H] | [pre [post H]]].
      * now exists "", post.
      * exists (String b pre), post. simpl. now rewrite H.
    + intros [pre [post H]]. destruct pre as [|c pre]; simpl in H.
      * left. now exists post.
      * right. injection H as _ H. now exists pre, post.
Qed.

Lemma scan_keywords_hit (styles : list string) (text : string) (c : StyleCategory) :
  (exists kw, In kw styles /\ occurs_in kw text) ->
  scan_keywords styles text c = Some c.
Proof.
  induction styles as [|k styles IH]; intros [kw [Hin Hocc]]; simpl.
  - destruct Hin.
  - destruct (contains k text) eqn:E; [reflexivity|].
    destruct Hin as [-> | Hin].
    + apply contains_spec in Hocc. congruence.
    + apply IH. now exists kw.
Qed.

Lemma scan_keywords_cases (styles : list string) (text : string) (c : StyleCategory) :
  (scan_keywords styles text c = Some c /\ exists kw, In kw styles /\ occurs_in kw text)
  \/ (scan_keywords styles text c = None /\ ~ exists kw, In kw styles /\ occurs_in kw text).
Proof.
  induction styles as [|k styles IH]; simpl.
  - right. split; [reflexivity | intros [kw [[] _]]].
  - destruct (contains k text) eqn:E.
    + left. split; [reflexivity|]. exists k. split; [now left | now apply contains_spec].
    + destruct IH as [[H1 [kw [Hin Hocc]]] | [H1 Hno]].
      * left. split; [assumption|]. exists kw. split; [now right | assumption].
      * right. split; [assumption|]. intros [kw [[<- | Hin] Hocc]].
        -- apply contains_spec in Hocc. congruence.
        -- apply Hno. now exists kw.
Qed.

Ltac split_forall :=
  repeat match goal with
         | H : Forall _ (_ :: _) |- _ => inversion H; clear H; subst
         end.

(** The four loops, in order: the first category with a keyword in the
    text is returned. *)
Lemma detect_style_category_cases (style_prompt : string) :
  let text := lower style_prompt in
  (matches Swing text /\ _detect_style_category style_prompt = Swing)
  \/ (~ matches Swing text /\ matches Funk text
      /\ _detect_style_category style_prompt = Funk)
  \/ (~ matches Swing text /\ ~ matches Funk text /\ matches Rock text
      /\ _detect_style_category style_prompt = Rock)
  \/ (~ matches Swing text /\ ~ matches Funk text /\ ~ matches Rock text
      /\ matches Reggae text /\ _detect_style_category style_prompt = Reggae)
  \/ (~ matches Swing text /\ ~ matches Funk text /\ ~ matches Rock text
      /\ ~ matches Reggae text /\ _detect_style_category style_prompt = Neutral).
Proof.
  unfold _detect_style_category, matches. cbn zeta.
  destruct (scan_keywords_cases SWING_STYLES (lower style_prompt) Swing) as [[-> Hs] | [-> Hs]];
    [now left | right].
  destruct (scan_keywords_cases FUNK_STYLES (lower style_prompt) Funk) as [[-> Hf] | [-> Hf]];
    [now left | right].
  destruct (scan_keywords_cases ROCK_STYLES (lower style_prompt) Rock) as [[-> Hr] | [-> Hr]];
    [now left | right].
  destruct (scan_keywords_cases REGGAE_STYLES (lower style_prompt) Reggae) as [[-> Hg] | [-> Hg]];
    [now left | now right].
Qed.

Lemma matches_Neutral (text : string) : ~ matches Neutral text.
Proof. intros [kw [[] _]]. Qed.

(** C7: the detected category is [c] exactly when no keyword of a category
    tried before [c] (in the order Swing, Funk, Rock, Reggae) occurs in the
    lower-cased prompt and, unless [c] is Neutral, some keyword of [c]
    occurs in it.  The function is total and has one value per prompt. *)
Theorem detect_style_category_priority (style_prompt : string) (c : StyleCategory) :
  _detect_style_category style_prompt = c <->
  (Forall (fun c' => ~ matches c' (lower style_prompt)) (tried_before c)
   /\ (c = Neutral \/ matches c (lower style_prompt))).
Proof.
  pose proof (matches_Neutral (lower style_prompt)) as HN.
  destruct (detect_style_category_cases style_prompt)
    as [[Hs ->] | [[Hs [Hf ->]] | [[Hs [Hf [Hr ->]]] | [[Hs [Hf [Hr [Hg ->]]]] | [Hs [Hf [Hr [Hg ->]]]]]]]].
  all: split;
    [ intros <-; simpl; split; [repeat constructor; assumption | auto]
    | intros [Hbefore Hc]; destruct c; simpl in Hbefore; split_forall;
      try reflexivity; try contradiction;
      destruct Hc as [Hc | Hc]; try discriminate; contradiction ].
Qed.

(** C9, as stated, fails on a prompt with keywords of two categories:
    "dubstep funk" contains the Reggae keyword "dub" and is classified Funk. *)
Lemma substring_match_not_always_own_category :
  ~ (forall prompt c kw,
       In kw (keywords c) -> occurs_in kw (lower prompt) ->
       _detect_style_category prompt = c).
Proof.
  intros H.
  specialize (H "dubstep funk" Reggae "dub").
  assert (E : _detect_style_category "dubstep funk" = Funk) by reflexivity.
  rewrite E in H.
  assert (Funk = Reggae); [|discriminate].
  apply H.
  - simpl. tauto.
  - now exists "", "step funk".
Qed.

(** C9, amended: a keyword is matched as a substring of the lower-cased
    prompt, also inside a longer word; a prompt in which a keyword of
    category [c] occurs is never Neutral, and it is classified [c] when no
    keyword of a category tried before [c] occurs in it. *)
Theorem substring_match_category (prompt : string) (c : StyleCategory) (kw : string) :
  In kw (keywords c) ->
  occurs_in kw (lower prompt) ->
  _detect_style_category prompt <> Neutral
  /\ (Forall (fun c' => ~ matches c' (lower prompt)) (tried_before c) ->
      _detect_style_category prompt = c).
Proof.
  intros Hin Hocc.
  assert (Hm : matches c (lower prompt)) by (now exists kw).
  destruct (detect_style_category_cases prompt)
    as [[Hs E] | [[Hs [Hf E]] | [[Hs [Hf [Hr E]]] | [[Hs [Hf [Hr [Hg E]]]] | [Hs [Hf [Hr [Hg E]]]]]]]];
    rewrite E; (split; [| intros Hbefore]).
  all: try discriminate.
  all: destruct c; simpl in *; split_forall; try reflexivity; contradiction.
Qed.

Lemma not_matches_by_scan (c : StyleCategory) (text : string) :
  scan_keywords (keywords c) text c = None -> ~ matches c text.
Proof.
  intros E Hm. unfold matches in Hm.
  rewrite (scan_keywords_hit _ _ c Hm) in E. discriminate.
Qed.

(** "dub" inside "dubstep" makes the prompt Reggae. *)
Lemma substring_match_category_dubstep :
  _detect_style_category "dubstep" <> Neutral
  /\ _detect_style_category "dubstep" = Reggae.
Proof.
  destruct (substring_match_category "dubstep" Reggae "dub") as [H1 H2].
  - simpl. tauto.
  - now exists "", "step".
  - split; [exact H1|]. apply H2.
    repeat constructor; apply not_matches_by_scan; reflexivity.
Defined.

(** ** The error monad *)

Lemma bind_ok {A B : Type} (m : result A) (k : A -> result B) (b : B) :
  bind m k = Ok b -> exists a, m = Ok a /\ k a = Ok b.
Proof.
  destruct m as [a | e]; simpl; intros H; [now exists a | discriminate].
Qed.

Ltac bind_inv H :=
  let a := fresh "x" in
  let E := fresh "E" in
  apply bind_ok in H; destruct H as [a [E H]].

(** ** The stable sort of the events *)

Local Open Scope list_scope.
Local Open Scope Z_scope.

Section StableSort.

Context {A : Type} (lt : A -> A -> bool).

Lemma insert_by_perm (x : A) (l : list A) :
  Permutation (x :: l) (insert_by lt x l).
Proof.
  induction l as [|y l IH]; simpl; [apply Permutation_refl|].
  destruct (lt y x).
  - eapply Permutation_trans; [apply perm_swap|]. now apply perm_skip.
  - apply Permutation_refl.
Qed.

Lemma sort_by_perm (l : list A) : Permutation l (sort_by lt l).
Proof.
  induction l as [|x l IH]; simpl; [constructor|].
  eapply Permutation_trans; [apply perm_skip, IH | apply insert_by_perm].
Qed.

End StableSort.



Lemma sort_events_perm (l : list Event) : Permutation l (sort_events l).
Proof. apply sort_by_perm. Qed.

(** ** Delta times and their accumulation *)


Lemma collect_events_acc (bpm : Z) (ns : list FallbackNote) (acc : list Event) :
  collect_events bpm ns acc =
  (evs <- collect_events bpm ns [] ;; Ok (acc ++ evs))%py.
Proof.
  revert acc. induction ns as [|n ns IH]; intros acc; simpl.
  - now rewrite app_nil_r.
  - destruct (note_events bpm n) as [evs|e]; simpl; [|reflexivity].
    rewrite (IH (acc ++ evs)), (IH evs).
    destruct (collect_events bpm ns []) as [rest|e]; simpl; [|reflexivity].
    now rewrite app_assoc.
Qed.

(** ** The builder of drum sequences *)



(** ** The events of the writer *)




(** ** Binary64: values that round to themselves *)

Lemma digits2_pos_bounds (p : positive) :
  2 ^ (Zpos (digits2_pos p) - 1) <= Zpos p < 2 ^ Zpos (digits2_pos p).
Proof.
  induction p as [p IH | p IH |]; cbn [digits2_pos].
  - rewrite Pos2Z.inj_succ, Z.pow_succ_r by lia.
    replace (Z.succ (Zpos (digits2_pos p)) - 1) with (Z.succ (Zpos (digits2_pos p) - 1)) by lia.
    rewrite Z.pow_succ_r by lia. lia.
  - rewrite Pos2Z.inj_succ, Z.pow_succ_r by lia.
    replace (Z.succ (Zpos (digits2_pos p)) - 1) with (Z.succ (Zpos (digits2_pos p) - 1)) by lia.
    rewrite Z.pow_succ_r by lia. lia.
  - simpl. lia.
Qed.

Lemma digits2_pos_unique (p : positive) (d : Z) :
  2 ^ (d - 1) <= Zpos p < 2 ^ d -> Zpos (digits2_pos p) = d.
Proof.
  intros [Hlo Hhi]. pose proof (digits2_pos_bounds p) as [Blo Bhi].
  assert (0 < d).
  { destruct (Z.ltb_spec 0 d); [assumption|].
    assert (2 ^ d <= 2 ^ 0) by (apply Z.pow_le_mono_r; lia || (destruct (Z.ltb_spec d 0); [rewrite Z.pow_neg_r in Hhi; lia|lia])).
    simpl in *. lia. }
  destruct (Z.lt_trichotomy (Zpos (digits2_pos p)) d) as [Hlt | [Heq | Hgt]]; [|assumption|].
  - assert (2 ^ Zpos (digits2_pos p) <= 2 ^ (d - 1)) by (apply Z.pow_le_mono_r; lia). lia.
  - assert (2 ^ d <= 2 ^ (Zpos (digits2_pos p) - 1)) by (apply Z.pow_le_mono_r; lia). lia.
Qed.

Lemma digits2_mul_pow2 (p q : positive) (j : Z) :
  0 <= j -> Zpos q = Zpos p * 2 ^ j ->
  Zpos (digits2_pos q) = Zpos (digits2_pos p) + j.
Proof.
  intros Hj Hq. apply digits2_pos_unique. rewrite Hq.
  pose proof (digits2_pos_bounds p) as [Blo Bhi].
  replace (Zpos (digits2_pos p) + j - 1) with ((Zpos (digits2_pos p) - 1) + j) by lia.
  rewrite !Z.pow_add_r by lia.
  assert (0 < 2 ^ j) by (apply Z.pow_pos_nonneg; lia).
  split; nia.
Qed.

Lemma iter_pos_nat {A : Type} (f : A -> A) (n : positive) (x : A) :
  iter_pos f n x = Nat.iter (Pos.to_nat n) f x.
Proof.
  revert x. induction n as [n IH | n IH |]; intros x; cbn [iter_pos].
  - rewrite !IH, Pos2Nat.inj_xI. 
    replace (S (2 * Pos.to_nat n))%nat with (Pos.to_nat n + (Pos.to_nat n + 1))%nat by lia.
    rewrite !Nat.iter_add. reflexivity.
  - rewrite !IH, Pos2Nat.inj_xO.
    replace (2 * Pos.to_nat n)%nat with (Pos.to_nat n + Pos.to_nat n)%nat by lia.
    rewrite Nat.iter_add. reflexivity.
  - reflexivity.
Qed.

Lemma shr_1_double (z : Z) : shr_1 (exact_record (2 * z)) = exact_record z.
Proof. destruct z; reflexivity. Qed.

Lemma iter_shr_1_pow2 (n : nat) (z : Z) :
  Nat.iter n shr_1 (exact_record (z * 2 ^ Z.of_nat n)) = exact_record z.
Proof.
  revert z. induction n as [|n IH]; intros z.
  - simpl. now rewrite Z.mul_1_r.
  - rewrite Nat.iter_succ_r.
    rewrite Nat2Z.inj_succ, Z.pow_succ_r by lia.
    replace (z * (2 * 2 ^ Z.of_nat n)) with (2 * (z * 2 ^ Z.of_nat n)) by ring.
    rewrite shr_1_double. apply IH.
Qed.

Lemma shr_exact (z e j : Z) :
  0 <= j ->
  shr (exact_record (z * 2 ^ j)) e j = (exact_record z, e + j).
Proof.
  intros Hj. destruct j as [|p|p]; [| |lia].
  - simpl. now rewrite Z.mul_1_r, Z.add_0_r.
  - unfold shr. rewrite iter_pos_nat.
    rewrite <- (positive_nat_Z p) at 1. now rewrite iter_shr_1_pow2.
Qed.

(** Rounding a number that is already a canonical float changes nothing. *)
Lemma binary_round_aux_exact (s : bool) (m : positive) (e j : Z) :
  bounded prec emax m e = true ->
  0 <= j ->
  binary_round_aux prec emax s (Zpos m * 2 ^ j) (e - j) loc_Exact
  = S754_finite s m e.
Proof.
  intros Hb Hj. unfold bounded, canonical_mantissa in Hb.
  apply andb_prop in Hb. destruct Hb as [Hc He].
  apply Z.eqb_eq in Hc.
  assert (Hpos : exists q, Zpos q = Zpos m * 2 ^ j).
  { assert (0 < 2 ^ j) by (apply Z.pow_pos_nonneg; lia).
    destruct (Zpos m * 2 ^ j) eqn:E; try lia. now exists p. }
  destruct Hpos as [q Hq].
  unfold binary_round_aux, shr_fexp. rewrite <- Hq.
  cbn [Zdigits2 shr_record_of_loc]. rewrite (digits2_mul_pow2 m q j Hj Hq).
  replace (Zpos (digits2_pos m) + j + (e - j)) with (Zpos (digits2_pos m) + e) by lia.
  rewrite Hc. replace (e - (e - j)) with j by lia.
  rewrite Hq. fold (exact_record (Zpos m * 2 ^ j)).
  rewrite (shr_exact _ _ _ Hj). cbn [exact_record shr_m loc_of_shr_record round_nearest_even Zdigits2 shr_record_of_loc].
  replace (e - j + j) with e by lia. rewrite Hc, Z.sub_diag. cbn [shr shr_m].
  now rewrite He.
Qed.

Lemma binary_round_aux_repr (s : bool) (m : positive) (e j M e0 : Z) :
  bounded prec emax m e = true ->
  0 <= j -> M = Zpos m * 2 ^ j -> e0 = e - j ->
  binary_round_aux prec emax s M e0 loc_Exact = S754_finite s m e.
Proof. intros Hb Hj -> ->. now apply binary_round_aux_exact. Qed.

Lemma div_eucl_pair (a b : Z) : Z.div_eucl a b = (a / b, a mod b).
Proof. unfold Z.div, Z.modulo. now destruct (Z.div_eucl a b). Qed.

Lemma normal_bounded (m : positive) (e : Z) :
  normal m e -> bounded prec emax m e = true.
Proof.
  intros [Hd He]. unfold bounded, canonical_mantissa. rewrite Hd.
  apply andb_true_intro. split.
  - apply Z.eqb_eq. unfold fexp, emin, prec, emax. lia.
  - apply Z.leb_le. unfold prec, emax. lia.
Qed.

Lemma SFmul_pow2 (s : bool) (m : positive) (e eg : Z) :
  normal m e -> normal m (e + eg + 52) ->
  SFmul prec emax (S754_finite s m e) (S754_finite false two52 eg)
  = S754_finite s m (e + eg + 52).
Proof.
  intros _ Hn. cbn [SFmul]. rewrite xorb_false_r.
  apply (binary_round_aux_repr s m (e + eg + 52) 52);
    [now apply normal_bounded | lia | reflexivity | lia].
Qed.

Lemma SFdiv_pow2 (s : bool) (m : positive) (e eg : Z) :
  normal m e -> normal m (e + eg + 52) -> -52 <= e ->
  SFdiv prec emax (S754_finite s m (e + eg + 52)) (S754_finite false two52 eg)
  = S754_finite s m e.
Proof.
  intros Hn [Hd Hn'] He. cbn [SFdiv]. rewrite xorb_false_r.
  unfold SFdiv_core_binary. cbn [Zdigits2]. rewrite Hd.
  change (Zpos (digits2_pos two52)) with 53.
  replace (Z.min (fexp prec emax (53 + (e + eg + 52) - (53 + eg))) (e + eg + 52 - eg))
    with (e - 1) by (unfold fexp, emin, prec, emax; lia).
  replace (e + eg + 52 - eg - (e - 1)) with 53 by lia.
  rewrite div_eucl_pair, Z.shiftl_mul_pow2 by lia.
  replace (Zpos m * 2 ^ 53) with (Zpos m * 2 ^ 1 * Zpos two52)
    by (change (Zpos two52) with (2 ^ 52); change (2 ^ 53) with (2 * 2 ^ 52);
        change (2 ^ 1) with 2; ring).
  rewrite Z.div_mul, Z.mod_mul by discriminate.
  change (new_location (Zpos two52) 0) with loc_Exact.
  apply (binary_round_aux_repr s m e 1);
    [now apply normal_bounded | lia | reflexivity | lia].
Qed.

Lemma pos_iter_xO (p q : positive) : Zpos (Pos.iter xO p q) = Zpos p * 2 ^ Zpos q.
Proof.
  induction q as [|q IH] using Pos.peano_ind.
  - simpl. lia.
  - rewrite Pos.iter_succ, Pos2Z.inj_succ, Z.pow_succ_r by lia.
    rewrite Pos2Z.inj_xO, IH. ring.
Qed.

(** The float of a positive int below [2^53] is exact. *)
Lemma binary_normalize_small (s : bool) (p : positive) :
  Zpos p < 2 ^ 53 ->
  exists m e,
    binary_normalize prec emax (cond_Zopp s (Zpos p)) 0 false = S754_finite s m e
    /\ normal m e /\ -52 <= e <= 0 /\ Zpos m = Zpos p * 2 ^ (- e).
Proof.
  intros Hp.
  pose proof (digits2_pos_bounds p) as [Blo Bhi].
  assert (Hd : Zpos (digits2_pos p) <= 53).
  { destruct (Z.leb_spec (Zpos (digits2_pos p)) 53); [assumption|].
    assert (2 ^ 53 <= 2 ^ (Zpos (digits2_pos p) - 1)) by (apply Z.pow_le_mono_r; lia). lia. }
  assert (E : binary_normalize prec emax (cond_Zopp s (Zpos p)) 0 false
              = binary_round prec emax s p 0) by (now destruct s).
  rewrite E. unfold binary_round, shl_align.
  replace (fexp prec emax (Zpos (digits2_pos p) + 0) - 0)
    with (Zpos (digits2_pos p) - 53) by (unfold fexp, emin, prec, emax; lia).
  replace (fexp prec emax (Zpos (digits2_pos p) + 0))
    with (Zpos (digits2_pos p) - 53) by (unfold fexp, emin, prec, emax; lia).
  destruct (Zpos (digits2_pos p) - 53) as [|q|q] eqn:Eq; [| lia |].
  - exists p, 0. assert (Hn : normal p 0) by (split; lia).
    split; [|split; [assumption | split; [lia | simpl; lia]]].
    apply (binary_round_aux_repr s p 0 0); [now apply normal_bounded | lia | simpl; lia | lia].
  - exists (Pos.iter xO p q), (Zneg q).
    assert (Hv : Zpos (Pos.iter xO p q) = Zpos p * 2 ^ Zpos q) by apply pos_iter_xO.
    assert (Hn : normal (Pos.iter xO p q) (Zneg q)).
    { split; [|lia]. rewrite (digits2_mul_pow2 p _ (Zpos q)); [lia | lia | assumption]. }
    split; [|split; [assumption | split; [lia | exact Hv]]].
    apply (binary_round_aux_repr s _ (Zneg q) 0);
      [now apply normal_bounded | lia | simpl; lia | lia].
Qed.

(** The float of an int that is the value of a float with a non-negative
    exponent is that float. *)
Lemma binary_normalize_big (s : bool) (m : positive) (e : Z) :
  normal m e -> 0 <= e ->
  binary_normalize prec emax (cond_Zopp s (Zpos m * 2 ^ e)) 0 false
  = S754_finite s m e.
Proof.
  intros Hn He.
  assert (Hpos : exists q, Zpos q = Zpos m * 2 ^ e).
  { assert (0 < 2 ^ e) by (apply Z.pow_pos_nonneg; lia).
    destruct (Zpos m * 2 ^ e) eqn:E; try lia. now exists p. }
  destruct Hpos as [q Hq]. rewrite <- Hq.
  assert (E : binary_normalize prec emax (cond_Zopp s (Zpos q)) 0 false
              = binary_round prec emax s q 0) by (now destruct s).
  rewrite E. unfold binary_round, shl_align.
  rewrite (digits2_mul_pow2 m q e He Hq). destruct Hn as [Hd Hr]. rewrite Hd.
  replace (fexp prec emax (53 + e + 0)) with e by (unfold fexp, emin, prec, emax; lia).
  rewrite Z.sub_0_r.
  assert (Hb : bounded prec emax m e = true) by (apply normal_bounded; split; assumption).
  destruct e as [|pe|pe]; [| |lia].
  - apply (binary_round_aux_repr s m 0 0); [assumption | lia | rewrite Hq; reflexivity | lia].
  - apply (binary_round_aux_repr s m (Zpos pe) (Zpos pe)); [assumption | lia | exact Hq | lia].
Qed.

Lemma finite_bounded (x : float) (s : bool) (m : positive) (e : Z) :
  Prim2SF x = S754_finite s m e -> bounded prec emax m e = true.
Proof. intros H. pose proof (Prim2SF_valid x) as V. now rewrite H in V. Qed.

Lemma bounded_range (m : positive) (e : Z) :
  bounded prec emax m e = true ->
  Zpos m < 2 ^ 53 /\ -1074 <= e <= 971 /\ (-1074 < e -> Zpos (digits2_pos m) = 53).
Proof.
  unfold bounded, canonical_mantissa. intros H. apply andb_prop in H.
  destruct H as [Hc He]. apply Z.eqb_eq in Hc. apply Z.leb_le in He.
  unfold fexp, emin, prec, emax in *.
  pose proof (digits2_pos_bounds m) as [Blo Bhi].
  assert (Zpos (digits2_pos m) <= 53) by lia.
  repeat split; try lia.
  assert (2 ^ Zpos (digits2_pos m) <= 2 ^ 53) by (apply Z.pow_le_mono_r; lia). lia.
Qed.

Lemma round_pos_small (m : positive) (e : Z) :
  Zpos m < 2 ^ 53 -> e < 0 -> 0 <= Py.round_pos m e <= 2 ^ 52.
Proof.
  intros Hm He. unfold Py.round_pos.
  destruct (Z.leb_spec 0 e); [lia|].
  rewrite Z.shiftl_mul_pow2, Z.mul_1_l by lia.
  assert (Hd : 2 ^ 1 <= 2 ^ (- e)) by (apply Z.pow_le_mono_r; lia).
  change (2 ^ 1) with 2 in Hd.
  assert (Hq : 0 <= Zpos m / 2 ^ (- e)) by (apply Z.div_pos; lia).
  assert (Hq' : Zpos m / 2 ^ (- e) < 2 ^ 52).
  { apply Z.div_lt_upper_bound; [lia|]. change (2 ^ 53) with (2 * 2 ^ 52) in Hm. nia. }
  destruct (2 * (Zpos m mod 2 ^ (- e)) ?= 2 ^ (- e)); try lia.
  destruct (Z.even _); lia.
Qed.

Lemma float_of_int_finite (k : Z) (s : bool) (m : positive) (e : Z) :
  binary_normalize prec emax k 0 false = S754_finite s m e ->
  normal m e ->
  Py.float_of_int k = Ok (SF2Prim (S754_finite s m e))
  /\ Prim2SF (SF2Prim (S754_finite s m e)) = S754_finite s m e.
Proof.
  intros H Hn. unfold Py.float_of_int. rewrite H. split; [reflexivity|].
  apply Prim2SF_SF2Prim. cbn [valid_binary]. now apply normal_bounded.
Qed.

Lemma round_float_of_int (q : float) (k : Z) :
  Py.round q = Ok k -> exists kf, Py.float_of_int k = Ok kf /\ int_float k kf.
Proof.
  unfold Py.round. destruct (Prim2SF q) as [sz | si | | s m e] eqn:Eq; try discriminate.
  - intros H. injection H as <-. exists 0%float. split; [reflexivity | left; auto].
  - intros H. injection H as <-.
    pose proof (finite_bounded _ _ _ _ Eq) as Hb.
    destruct (bounded_range _ _ Hb) as [Hm [He Hd]].
    destruct (Z.leb_spec 0 e) as [Hpos | Hneg].
    + assert (Hn : normal m e) by (split; [apply Hd; lia | lia]).
      assert (Hr : Py.round_pos m e = Zpos m * 2 ^ e).
      { unfold Py.round_pos. destruct (Z.leb_spec 0 e); [|lia].
        now rewrite Z.shiftl_mul_pow2. }
      rewrite Hr.
      destruct (float_of_int_finite _ s m e (binary_normalize_big s m e Hn Hpos) Hn) as [H1 H2].
      eexists. split; [exact H1|]. right. exists s, m, e, (Zpos m * 2 ^ e).
      split; [exact H2|]. split; [exact Hn|]. split; [lia|].
      split; [reflexivity|]. split; [reflexivity | lia].
    + pose proof (round_pos_small m e Hm Hneg) as Hr.
      destruct (Py.round_pos m e) as [|p|p] eqn:Ep; [| |lia].
      * exists 0%float. replace (cond_Zopp s 0) with 0 by (now destruct s).
        split; [reflexivity | left; auto].
      * assert (Hp : Zpos p < 2 ^ 53) by (change (2 ^ 53) with (2 * 2 ^ 52); lia).
        destruct (binary_normalize_small s p Hp) as [m' [e' [Hbn [Hn [He' Hv]]]]].
        destruct (float_of_int_finite _ s m' e' Hbn Hn) as [H1 H2].
        eexists. split; [exact H1|]. right. exists s, m', e', (Zpos p).
        split; [exact H2|]. split; [exact Hn|]. split; [lia|].
        split; [reflexivity|]. split; [|intros _; exact Hv].
        intros He0. assert (e' = 0) by lia. subst e'. simpl in Hv. lia.
Qed.

Lemma round_int_float (k : Z) (kf : float) :
  int_float k kf -> Py.round kf = Ok k.
Proof.
  intros [[-> ->] | [s [m [e [K [Hf [Hn [He [-> [Hpos Hneg]]]]]]]]]]; [reflexivity|].
  unfold Py.round. rewrite Hf. f_equal. f_equal.
  unfold Py.round_pos. destruct (Z.leb_spec 0 e) as [H0 | H0].
  - rewrite Z.shiftl_mul_pow2 by lia. symmetry. now apply Hpos.
  - rewrite Z.shiftl_mul_pow2, Z.mul_1_l by lia.
    rewrite (Hneg H0).
    assert (0 < 2 ^ (- e)) by (apply Z.pow_pos_nonneg; lia).
    rewrite Z.div_mul, Z.mod_mul by lia.
    replace (2 * 0 ?= 2 ^ (- e)) with Lt by (symmetry; apply Z.compare_lt_iff; lia).
    reflexivity.
Qed.


Lemma mul_pow2_grid (kf g : float) (s : bool) (m : positive) (e eg : Z) :
  Prim2SF kf = S754_finite s m e -> normal m e -> -52 <= e ->
  Prim2SF g = S754_finite false two52 eg -> -1074 <= eg <= -52 ->
  Prim2SF (kf * g) = S754_finite s m (e + eg + 52)
  /\ (kf * g / g)%float = kf.
Proof.
  intros Hk Hn He Hg Heg.
  assert (Hn' : normal m (e + eg + 52)) by (destruct Hn; split; [assumption | lia]).
  assert (Hy : Prim2SF (kf * g) = S754_finite s m (e + eg + 52)).
  { rewrite mul_spec, Hk, Hg. now apply SFmul_pow2. }
  split; [exact Hy|].
  apply Prim2SF_inj. rewrite div_spec, Hy, Hg, Hk. now apply SFdiv_pow2.
Qed.


Lemma snap_result (x g y : float) :
  snap x g = Ok y ->
  exists k kf, int_float k kf /\ Py.float_of_int k = Ok kf /\ y = (kf * g)%float.
Proof.
  unfold snap. intros H. bind_inv H. bind_inv H.
  unfold Py.int_mul_float in H. bind_inv H. injection H as <-.
  destruct (round_float_of_int _ _ E0) as [kf [Hf Hk]].
  rewrite Hf in E1. injection E1 as <-. now exists x1, kf.
Qed.



(** ** Loops that build a list *)

Lemma for_each_acc (body : Note -> result Note) (ns acc : list Note) :
  for_each body ns acc = (l <- for_each body ns [] ;; Ok (acc ++ l))%py.
Proof.
  revert acc. induction ns as [|n ns IH]; intros acc; simpl.
  - now rewrite app_nil_r.
  - destruct (body n) as [n'|e]; simpl; [|reflexivity].
    rewrite (IH (acc ++ [n'])), (IH [n']).
    destruct (for_each body ns []) as [rest|e]; simpl; [|reflexivity].
    now rewrite <- app_assoc.
Qed.

Lemma for_each_cons (body : Note -> result Note) (n : Note) (ns : list Note) :
  for_each body (n :: ns) [] =
  (n' <- body n ;; l <- for_each body ns [] ;; Ok (n' :: l))%py.
Proof.
  simpl. destruct (body n) as [n'|e]; simpl; [|reflexivity].
  now rewrite for_each_acc.
Qed.

Lemma for_each_map (body : Note -> result Note) (f : Note -> Note) (ns : list Note) :
  Forall (fun n => body n = Ok (f n)) ns ->
  for_each body ns [] = Ok (map f ns).
Proof.
  induction 1 as [|n ns Hn _ IH]; [reflexivity|].
  now rewrite for_each_cons, Hn, IH.
Qed.

Lemma for_each_Forall2 (body : Note -> result Note) (ns out : list Note) :
  for_each body ns [] = Ok out <-> Forall2 (fun n n' => body n = Ok n') ns out.
Proof.
  revert out. induction ns as [|n ns IH]; intros out.
  - simpl. split.
    + intros H. injection H as <-. constructor.
    + intros H. inversion H. reflexivity.
  - rewrite for_each_cons. split.
    + intros H. bind_inv H. bind_inv H. injection H as <-.
      constructor; [assumption | now apply IH].
    + intros H. inversion H as [|? n' ? l Hn Hl]; subst.
      rewrite Hn. simpl. apply IH in Hl. now rewrite Hl.
Qed.

Lemma quantize_loop_for_each (g : float) (ns acc : list Note) :
  quantize_loop g ns acc = for_each (quantize_note g) ns acc.
Proof.
  revert acc. induction ns as [|n ns IH]; intros acc; simpl; [reflexivity|].
  destruct (quantize_note g n); simpl; [apply IH | reflexivity].
Qed.

(** ** Quantization *)

Lemma float_of_int_Z2F (k : Z) (kf : float) :
  Py.float_of_int k = Ok kf -> kf = Z2F k.
Proof.
  unfold Py.float_of_int, Z2F.
  destruct (binary_normalize prec emax k 0 false); intros H; now inversion H.
Qed.

Lemma snap_snapped (x g : float) :
  PrimFloat.eqb g 0 = false -> finite (x / g) = true ->
  snap x g = Ok (snapped x g).
Proof.
  intros Hg Hfin. unfold snap, snapped, round_or_zero, Py.div. rewrite Hg. cbn [bind].
  assert (Hr : exists k, Py.round (x / g) = Ok k).
  { unfold finite in Hfin. unfold Py.round.
    destruct (Prim2SF (x / g)); try discriminate; eauto. }
  destruct Hr as [k Hr]. rewrite Hr. cbn [bind].
  destruct (round_float_of_int _ _ Hr) as [kf [Hf _]].
  unfold Py.int_mul_float. rewrite Hf. cbn [bind].
  now rewrite (float_of_int_Z2F _ _ Hf).
Qed.

Lemma quantize_note_quantized (g : float) (n : Note) :
  PrimFloat.eqb g 0 = false -> quantizable g n ->
  quantize_note g n = Ok (quantized g n).
Proof.
  intros Hg [Ht Hd]. unfold quantize_note, quantized.
  rewrite (snap_snapped _ _ Hg Ht). cbn [bind duration with_time].
  destruct (duration n) as [d|] eqn:Ed.
  - rewrite (snap_snapped _ _ Hg (Hd d eq_refl)). reflexivity.
  - destruct n; simpl in *. now subst.
Qed.

(** C6, as stated, fails for the grid 0: the division raises. *)
Lemma quantize_zero_grid_raises :
  quantize_notes settings [drum_note "kick" 36 0.5 100] (Some 0%float)
  = Err ZeroDivisionError.
Proof. reflexivity. Qed.

(** C6, amended: the empty list quantizes to the empty list for every grid;
    for a grid [g] other than zero and notes whose quotients [time / g]
    and [duration / g] are finite numbers, quantization returns the list
    in which each time is [round(time / g) * g], each duration that is
    present is [max(g, round(duration / g) * g)], and a note without a
    duration (a drum hit) gets none. *)
Theorem quantize_notes_spec (cfg : Settings) (notes : list Note) (grid : option float) :
  quantize_notes cfg [] grid = Ok []
  /\ (PrimFloat.eqb (effective_grid cfg grid) 0 = false ->
      Forall (quantizable (effective_grid cfg grid)) notes ->
      quantize_notes cfg notes grid
      = Ok (map (quantized (effective_grid cfg grid)) notes)).
Proof.
  split; [reflexivity|]. intros Hg Hq.
  unfold quantize_notes. cbn zeta.
  rewrite quantize_loop_for_each. apply for_each_map.
  eapply Forall_impl; [|exact Hq]. intros n Hn.
  now apply quantize_note_quantized.
Qed.

Lemma quantize_notes_spec_default :
  quantize_notes settings [] None = Ok []
  /\ quantize_notes settings
       [drum_note "kick" 36 0.498 100; piano_note 60 1.3 0.05 80] None
     = Ok [drum_note "kick" 36 0.5 100; piano_note 60 1.25 0.25 80].
Proof.
  destruct (quantize_notes_spec settings
              [drum_note "kick" 36 0.498 100; piano_note 60 1.3 0.05 80] None)
    as [H0 H1].
  split; [exact H0|]. rewrite H1.
  - reflexivity.
  - reflexivity.
  - repeat constructor; simpl; intros d Hd; inversion Hd; reflexivity.
Defined.






(** ** Sequence assembly and the tempo *)

Lemma float_of_int_nonzero (k : Z) :
  k <> 0 -> Z.abs k < 2 ^ 53 ->
  exists kf, Py.float_of_int k = Ok kf /\ PrimFloat.eqb kf 0 = false.
Proof.
  intros Hk Hb.
  assert (Hs : exists s p, k = cond_Zopp s (Zpos p) /\ Zpos p < 2 ^ 53).
  { destruct k as [|p|p]; [congruence | exists false, p | exists true, p]; split;
      try reflexivity; simpl in Hb; lia. }
  destruct Hs as [s [p [-> Hp]]].
  destruct (binary_normalize_small s p Hp) as [m [e [Hbn [Hn _]]]].
  destruct (float_of_int_finite _ s m e Hbn Hn) as [H1 H2].
  eexists. split; [exact H1|]. rewrite eqb_spec, H2. now destruct s.
Qed.

Lemma float_of_int_defined (k : Z) :
  Z.abs k < 2 ^ 53 -> exists kf, Py.float_of_int k = Ok kf.
Proof.
  intros Hb. destruct (Z.eq_dec k 0) as [-> | Hk].
  - now exists 0%float.
  - destruct (float_of_int_nonzero k Hk Hb) as [kf [H _]]. now exists kf.
Qed.

Lemma beats_to_seconds_defined (beats : float) (tempo : Z) :
  tempo <> 0 -> Z.abs tempo < 2 ^ 53 ->
  exists s, _beats_to_seconds beats tempo = Ok s.
Proof.
  intros H0 Hb. destruct (float_of_int_nonzero tempo H0 Hb) as [kf [Hf Hz]].
  unfold _beats_to_seconds, Py.float_div_int, Py.div. rewrite Hf. cbn [bind].
  rewrite Hz. eauto.
Qed.

Lemma drum_loop_defined (tempo : Z) (ns : list Note) (seq : FallbackSequence) :
  tempo <> 0 -> Z.abs tempo < 2 ^ 53 ->
  Forall (fun n => midi_note n <> None) ns ->
  exists seq', drum_loop tempo ns seq = Ok seq'.
Proof.
  intros H0 Hb Hk. revert seq. induction Hk as [|n ns Hn _ IH]; intros seq; simpl.
  - eauto.
  - destruct (beats_to_seconds_defined (time n) tempo H0 Hb) as [s ->]. cbn [bind].
    destruct (midi_note n); [|congruence]. cbn [get_key bind]. apply IH.
Qed.

Lemma piano_loop_defined (tempo : Z) (ns : list Note) (seq : FallbackSequence) :
  tempo <> 0 -> Z.abs tempo < 2 ^ 53 ->
  Forall (fun n => pitch n <> None /\ duration n <> None) ns ->
  exists seq', piano_loop tempo ns seq = Ok seq'.
Proof.
  intros H0 Hb Hk. revert seq. induction Hk as [|n ns [Hp Hd] _ IH]; intros seq; simpl.
  - eauto.
  - destruct (beats_to_seconds_defined (time n) tempo H0 Hb) as [s ->]. cbn [bind].
    destruct (duration n) as [d|]; [|congruence]. cbn [get_key bind].
    destruct (beats_to_seconds_defined d tempo H0 Hb) as [l ->]. cbn [bind].
    destruct (pitch n); [|congruence]. cbn [get_key bind]. apply IH.
Qed.

(** C2, as stated, fails: a tempo of 2000 is outside [1, 1000] and the
    sequence is assembled all the same. *)
Lemma tempo_2000_is_assembled :
  exists seq,
    primer_only_to_sequence [drum_note "kick" 36 0 100] "drums" 2000 = Ok seq.
Proof. eexists. reflexivity. Qed.

(** C2, amended: the builders do not look at the range of the tempo.  For
    notes that carry the keys the builder reads, assembly succeeds for
    every tempo other than 0 (of magnitude below [2^53]), inside [1, 1000]
    or not; with tempo 0 and at least one note it raises
    ZeroDivisionError. *)
Theorem assembly_has_no_tempo_range (notes : list Note) (instrument : string)
    (tempo : Z) :
  Forall (has_keys instrument) notes ->
  (tempo <> 0 -> Z.abs tempo < 2 ^ 53 ->
   exists seq, primer_only_to_sequence notes instrument tempo = Ok seq)
  /\ (tempo = 0 -> notes <> [] ->
      primer_only_to_sequence notes instrument tempo = Err ZeroDivisionError).
Proof.
  intros Hk. unfold primer_only_to_sequence, has_keys in *.
  destruct (String.eqb instrument "drums"); split.
  - intros H0 Hb. now apply drum_loop_defined.
  - intros -> Hne. destruct notes as [|n ns]; [congruence | reflexivity].
  - intros H0 Hb. now apply piano_loop_defined.
  - intros -> Hne. destruct notes as [|n ns]; [congruence | reflexivity].
Qed.

Lemma assembly_has_no_tempo_range_kick :
  (exists seq,
     primer_only_to_sequence [drum_note "kick" 36 0 100] "drums" 120 = Ok seq)
  /\ primer_only_to_sequence [drum_note "kick" 36 0 100] "drums" 0
     = Err ZeroDivisionError.
Proof.
  split.
  - apply (assembly_has_no_tempo_range [drum_note "kick" 36 0 100] "drums" 120);
      [repeat constructor; discriminate | discriminate | reflexivity].
  - apply (assembly_has_no_tempo_range [drum_note "kick" 36 0 100] "drums" 0);
      [repeat constructor; discriminate | reflexivity | discriminate].
Defined.

(** ** Scenario A *)



(** ** Ticks are truncated *)



(** ** Draws *)

Lemma draws_trans (R : RandomSource) (n m : nat) (g1 g2 g3 : rng R) :
  draws R n g1 g2 -> draws R m g2 g3 -> draws R (n + m) g1 g3.
Proof.
  intros H12 H23. induction H12; simpl.
  - assumption.
  - apply draws_random. now apply IHdraws.
  - apply draws_randint with (a := a) (b := b). now apply IHdraws.
  - apply draws_gauss with (mu := mu) (sigma := sigma). now apply IHdraws.
Qed.

(** ** Velocity scaling *)

Lemma in_range (n v : Z) : 0 <= v < n -> In v (range n).
Proof.
  intros H. unfold range. apply in_map_iff. exists (Z.to_nat v).
  split; [lia|]. apply in_seq. lia.
Qed.

Lemma scales_midi (factor : float) (up : bool) :
  forallb (scales factor up) (range 128) = true ->
  forall v, 0 <= v <= 127 ->
    exists r, scale_velocity v factor = Ok r /\ (if up then v <= r else r <= v).
Proof.
  intros H v Hv. rewrite forallb_forall in H.
  specialize (H v (in_range 128 v ltac:(lia))). unfold scales in H.
  destruct (scale_velocity v factor) as [r|]; [|discriminate].
  exists r. split; [reflexivity|]. destruct up; lia.
Qed.

Lemma mod_defined (x y : float) :
  PrimFloat.eqb y 0 = false -> exists m, Py.mod_ x y = Ok m.
Proof.
  intros Hy. unfold Py.mod_. rewrite Hy.
  destruct (PrimFloat.eqb (Py.fmod x y) 0); [eauto|].
  destruct (Bool.eqb _ _); eauto.
Qed.

Lemma rock_note_bounds (cfg : Settings) (n : Note) :
  midi_bounds cfg -> in_bounds cfg n ->
  exists n', rock_note cfg n = Ok n' /\ in_bounds cfg n'.
Proof.
  intros [Hb Hmax] Hn. unfold in_bounds in *. unfold rock_note.
  destruct (mod_defined (time n) 4 eq_refl) as [beat_pos ->]. cbn [bind].
  destruct (_ || _).
  - destruct (scales_midi 1.15 true eq_refl (velocity n) ltac:(lia)) as [r [-> Hr]].
    cbn [bind]. eexists. split; [reflexivity|]. simpl. lia.
  - destruct (_ || _).
    + destruct (scales_midi 0.95 false eq_refl (velocity n) ltac:(lia)) as [r [-> Hr]].
      cbn [bind]. eexists. split; [reflexivity|]. simpl. lia.
    + eauto.
Qed.

Lemma reggae_note_bounds (cfg : Settings) (n : Note) :
  midi_bounds cfg -> in_bounds cfg n ->
  exists n', reggae_note cfg n = Ok n' /\ in_bounds cfg n'.
Proof.
  intros [Hb Hmax] Hn. unfold in_bounds in *. unfold reggae_note.
  destruct (mod_defined (time n) 1 eq_refl) as [beat_pos ->]. cbn [bind].
  destruct (near_zero _ _).
  - destruct (scales_midi 1.2 true eq_refl (velocity n) ltac:(lia)) as [r [-> Hr]].
    cbn [bind]. eexists. split; [reflexivity|]. simpl. lia.
  - destruct (near_zero _ _).
    + destruct (scales_midi 0.85 false eq_refl (velocity n) ltac:(lia)) as [r [-> Hr]].
      cbn [bind]. eexists. split; [reflexivity|]. simpl. lia.
    + eauto.
Qed.

Lemma swing_note_bounds (cfg : Settings) (ratio : float) (n : Note) :
  in_bounds cfg n ->
  exists n', swing_note ratio n = Ok n' /\ in_bounds cfg n'.
Proof.
  intros Hn. unfold swing_note.
  destruct (mod_defined (time n) 1 eq_refl) as [beat_pos ->]. cbn [bind].
  destruct (near_zero _ _); [eauto|]. destruct (near_zero _ _); eauto.
Qed.

Lemma for_each_bounds (P : Note -> Prop) (body : Note -> result Note) (ns : list Note) :
  (forall n, P n -> exists n', body n = Ok n' /\ P n') ->
  Forall P ns ->
  exists out, for_each body ns [] = Ok out /\ Forall P out.
Proof.
  intros Hbody. induction 1 as [|n ns Hn _ [out [IH1 IH2]]].
  - exists []. split; [reflexivity | constructor].
  - destruct (Hbody n Hn) as [n' [Hn1 Hn2]].
    exists (n' :: out). rewrite for_each_cons, Hn1, IH1. split; [reflexivity|].
    now constructor.
Qed.

(** ** The ghost-note loops *)

Local Open Scope rand_scope.

Section Ghosts.

Context (R : RandomSource).

Lemma ghost_slots_spec (bar : Z) (max_time : float) (snares : list float)
    (sixteenths : list Z) :
  incl sixteenths range16 ->
  forall (acc : list Note) (g g' : rng R) (r : result (list Note)),
  ghost_slots R bar max_time snares sixteenths acc g = (r, g') ->
  (exists n, draws R n g g')
  /\ match r with
     | Ok out => exists new, out = acc ++ new /\ Forall (ghost_of max_time snares) new
     | Err e => exists s, In s sixteenths /\ slot_time bar s = Err e
     end.
Proof.
  induction sixteenths as [|s rest IH]; intros Hincl acc g g' r H.
  - injection H as <- <-. split; [exists 0%nat; constructor|].
    exists []. rewrite app_nil_r. split; [reflexivity | constructor].
  - assert (Hs : In s range16) by (apply Hincl; now left).
    assert (Hrest : incl rest range16) by (intros x Hx; apply Hincl; now right).
    assert (Hlater : forall r0, 
              match r0 with
              | Ok out => exists new : list Note, out = acc ++ new /\ Forall (ghost_of max_time snares) new
              | Err e => exists s0, In s0 rest /\ slot_time bar s0 = Err e
              end ->
              match r0 with
              | Ok out => exists new : list Note, out = acc ++ new /\ Forall (ghost_of max_time snares) new
              | Err e => exists s0, In s0 (s :: rest) /\ slot_time bar s0 = Err e
              end).
    { intros [out|e]; [trivial|]. intros [s0 [H1 H2]]. exists s0. split; [now right | assumption]. }
    cbn [ghost_slots] in H. unfold rbind at 1, lift at 1 in H.
    destruct (slot_time bar s) as [t|e] eqn:Et.
    2:{ injection H as <- <-. split; [exists 0%nat; constructor|].
        exists s. split; [now left | assumption]. }
    destruct (PrimFloat.ltb max_time t) eqn:Elt.
    { injection H as <- <-. split; [exists 0%nat; constructor|].
      exists []. rewrite app_nil_r. split; [reflexivity | constructor]. }
    destruct (near_snare t snares) eqn:Ens.
    { destruct (IH Hrest _ _ _ _ H) as [Hd Hr]. split; [assumption | exact (Hlater _ Hr)]. }
    destruct ((s mod 4 =? 1) || (s mod 4 =? 3)) eqn:Esub.
    2:{ destruct (IH Hrest _ _ _ _ H) as [Hd Hr]. split; [assumption | exact (Hlater _ Hr)]. }
    unfold rbind at 1, random_random at 1 in H.
    destruct (next_random R g) as [x g1] eqn:Ex.
    assert (Eg1 : g1 = snd (next_random R g)) by (now rewrite Ex).
    destruct (PrimFloat.ltb x 0.4).
    2:{ destruct (IH Hrest _ _ _ _ H) as [[n Hd] Hr].
        split; [|exact (Hlater _ Hr)]. exists (S n). apply draws_random. now rewrite <- Eg1. }
    unfold rbind at 1, random_randint at 1 in H.
    change (55 <? 35) with false in H. cbv iota in H.
    destruct (next_randint R 35 55 g1) as [v g2] eqn:Ev.
    assert (Eg2 : g2 = snd (next_randint R 35 55 g1)) by (now rewrite Ev).
    assert (Hv : 35 <= v <= 55).
    { pose proof (next_randint_range R 35 55 g1 ltac:(lia)) as Hr. now rewrite Ev in Hr. }
    destruct (IH Hrest _ _ _ _ H) as [[n Hd] Hr]. split.
    { exists (S (S n)). apply draws_random. rewrite <- Eg1.
      apply draws_randint with (a := 35) (b := 55). now rewrite <- Eg2. }
    destruct r as [out|e].
    + destruct Hr as [new [-> Hnew]]. exists (ghost_note t v :: new).
      rewrite <- app_assoc. split; [reflexivity|]. constructor; [|assumption].
      exists bar, s, t, v. repeat split; try assumption; lia.
    + destruct Hr as [s0 [H1 H2]]. exists s0. split; [now right | assumption].
Qed.

End Ghosts.

Section GhostBars.

Context (R : RandomSource).

Lemma ghost_bars_cons (max_time : float) (snares : list float) (bar : Z)
    (rest : list Z) (acc : list Note) (g : rng R) :
  ghost_bars R max_time snares (bar :: rest) acc g =
  match ghost_slots R bar max_time snares range16 acc g with
  | (Ok a, g1) => ghost_bars R max_time snares rest a g1
  | (Err e, g1) => (Err e, g1)
  end.
Proof. reflexivity. Qed.

Lemma ghost_bars_spec (max_time : float) (snares : list float) (bars : list Z) :
  forall (acc : list Note) (g g' : rng R) (r : result (list Note)),
  ghost_bars R max_time snares bars acc g = (r, g') ->
  (exists n, draws R n g g')
  /\ match r with
     | Ok out => exists new, out = acc ++ new /\ Forall (ghost_of max_time snares) new
     | Err e => exists bar s, In bar bars /\ In s range16 /\ slot_time bar s = Err e
     end.
Proof.
  induction bars as [|bar rest IH]; intros acc g g' r H.
  - injection H as <- <-. split; [exists 0%nat; constructor|].
    exists []. rewrite app_nil_r. split; [reflexivity | constructor].
  - rewrite ghost_bars_cons in H.
    destruct (ghost_slots R bar max_time snares range16 acc g) as [r1 g1] eqn:E1.
    destruct (ghost_slots_spec R bar max_time snares range16 (incl_refl _) _ _ _ _ E1)
      as [[n1 Hd1] Hr1].
    destruct r1 as [out1|e1].
    + destruct Hr1 as [new1 [-> Hnew1]].
      destruct (IH _ _ _ _ H) as [[n2 Hd2] Hr2]. split.
      * exists (n1 + n2)%nat. apply draws_trans with (g2 := g1); assumption.
      * destruct r as [out|e].
        -- destruct Hr2 as [new2 [-> Hnew2]]. exists (new1 ++ new2).
           rewrite app_assoc. split; [reflexivity|].
           apply Forall_app. split; assumption.
        -- destruct Hr2 as [b [s [Hb [Hs He]]]]. exists b, s.
           split; [right; assumption | split; assumption].
    + injection H as <- <-. split; [exists n1; exact Hd1|].
      destruct Hr1 as [s [Hs He]]. exists bar, s. split; [left; reflexivity | split; assumption].
Qed.

Lemma add_funk_ghost_notes_spec (notes : list Note) (g g' : rng R)
    (r : result (list Note)) :
  add_funk_ghost_notes R notes g = (r, g') ->
  (exists n, draws R n g g')
  /\ match r with
     | Ok out =>
         exists ghosts,
           out = notes ++ ghosts
           /\ Forall (ghost_of (max_time_of notes) (snare_times_of notes)) ghosts
     | Err e =>
         Py.int_of_float (max_time_of notes / 4) = Err e
         \/ exists b bar s,
              Py.int_of_float (max_time_of notes / 4) = Ok b
              /\ In bar (range (b + 1)) /\ In s range16
              /\ slot_time bar s = Err e
     end.
Proof.
  unfold add_funk_ghost_notes. intros H.
  unfold rbind at 1, lift at 1 in H.
  change (Py.div (max_time_of notes) 4) with (Ok (A := float) (max_time_of notes / 4)%float) in H.
  cbv iota in H. unfold rbind at 1, lift at 1 in H.
  destruct (Py.int_of_float (max_time_of notes / 4)) as [b|e] eqn:Eb.
  - unfold rbind at 1 in H.
    destruct (ghost_bars R (max_time_of notes) (snare_times_of notes) (range (b + 1)) [] g)
      as [r1 g1] eqn:E1.
    destruct (ghost_bars_spec _ _ _ _ _ _ _ E1) as [Hd Hr].
    destruct r1 as [new|e1]; injection H as <- <-; (split; [assumption|]).
    + destruct Hr as [new' [-> Hnew]]. exists new'. split; [reflexivity | exact Hnew].
    + right. destruct Hr as [bar [s [Hr1 [Hr2 Hr3]]]]. exists b, bar, s.
      repeat split; assumption.
  - injection H as <- <-. split; [exists 0%nat; constructor | left; reflexivity].
Qed.

Lemma range_bounds (n v : Z) : In v (range n) -> 0 <= v < n.
Proof.
  unfold range. intros H. apply in_map_iff in H. destruct H as [k [<- Hk]].
  apply in_seq in Hk. lia.
Qed.

Lemma slot_time_defined (bar s : Z) :
  0 <= bar < 2 ^ 53 -> In s range16 -> exists t, slot_time bar s = Ok t.
Proof.
  intros Hbar Hs. unfold slot_time, Py.int_mul_float.
  destruct (float_of_int_defined bar ltac:(lia)) as [bf ->]. cbn [bind].
  assert (Hs' : 0 <= s < 16) by (apply range_bounds; exact Hs).
  destruct (float_of_int_defined s ltac:(lia)) as [sf ->]. cbn [bind]. eauto.
Qed.

Lemma add_funk_ghost_notes_defined (notes : list Note) (g : rng R) (b : Z) :
  Py.int_of_float (max_time_of notes / 4) = Ok b -> b < 2 ^ 53 ->
  exists ghosts g',
    add_funk_ghost_notes R notes g = (Ok (notes ++ ghosts), g')
    /\ Forall (ghost_of (max_time_of notes) (snare_times_of notes)) ghosts.
Proof.
  intros Hb Hlt.
  destruct (add_funk_ghost_notes R notes g) as [r g'] eqn:E.
  destruct (add_funk_ghost_notes_spec _ _ _ _ E) as [_ Hr].
  destruct r as [out|e].
  - destruct Hr as [ghosts [-> Hg]]. now exists ghosts, g'.
  - exfalso. destruct Hr as [Hr | [b' [bar [s [Hb' [Hbar [Hs He]]]]]]]; [congruence|].
    assert (b' = b) by congruence. subst b'.
    apply range_bounds in Hbar.
    destruct (slot_time_defined bar s ltac:(lia) Hs) as [t Ht]. congruence.
Qed.

Lemma humanize_note_spec (cfg : Settings) (ta : float) (va : Z) (n : Note) (g : rng R) :
  0 <= va ->
  exists n' g',
    humanize_note R cfg ta va n g = (Ok n', g')
    /\ (velocity_min cfg <= velocity_max cfg -> in_bounds cfg n')
    /\ draws R 2 g g'.
Proof.
  intros Hva. unfold humanize_note, rbind, random_gauss, random_randint, ret.
  destruct (next_gauss R 0 (ta / 2) g) as [off g1] eqn:E1.
  assert (Eg1 : g1 = snd (next_gauss R 0 (ta / 2) g)) by (now rewrite E1).
  destruct (Z.ltb_spec va (- va)); [lia|].
  destruct (next_randint R (- va) va g1) as [v g2] eqn:E2.
  assert (Eg2 : g2 = snd (next_randint R (- va) va g1)) by (now rewrite E2).
  eexists. exists g2. split; [reflexivity|]. split.
  - unfold in_bounds. simpl. lia.
  - apply draws_gauss with (mu := 0%float) (sigma := (ta / 2)%float). rewrite <- Eg1.
    apply draws_randint with (a := - va) (b := va). rewrite <- Eg2. constructor.
Qed.

Lemma humanize_loop_spec (cfg : Settings) (ta : float) (va : Z) (notes : list Note) :
  0 <= va ->
  forall (acc : list Note) (g : rng R),
  exists out g',
    humanize_loop R cfg ta va notes acc g = (Ok (acc ++ out), g')
    /\ (velocity_min cfg <= velocity_max cfg -> Forall (in_bounds cfg) out)
    /\ List.length out = List.length notes
    /\ draws R (2 * List.length notes) g g'.
Proof.
  intros Hva. induction notes as [|n ns IH]; intros acc g.
  - exists [], g. rewrite app_nil_r. repeat split; constructor.
  - destruct (humanize_note_spec cfg ta va n g Hva) as [n' [g1 [Hn [Hin Hd]]]].
    destruct (IH (acc ++ [n']) g1) as [out [g' [Hl [Hall [Hlen Hd']]]]].
    exists (n' :: out), g'. cbn [humanize_loop]. unfold rbind at 1. rewrite Hn, Hl.
    rewrite <- app_assoc. repeat split.
    + intros Hb. constructor; auto.
    + simpl. now rewrite Hlen.
    + replace (2 * List.length (n :: ns))%nat with (2 + 2 * List.length ns)%nat
        by (simpl; lia).
      apply draws_trans with (g2 := g1); assumption.
Qed.

End GhostBars.

(** ** Velocity bounds of the stages *)

Lemma ghost_of_velocity (max_time : float) (snares : list float) (n : Note) :
  ghost_of max_time snares n -> 35 <= velocity n <= 55.
Proof. intros [bar [s [t [v [-> [_ [_ [_ [Hv _]]]]]]]]]. exact Hv. Qed.

Lemma apply_swing_bounds (cfg : Settings) (notes : list Note) (ratio : option float) :
  Forall (in_bounds cfg) notes ->
  exists out, apply_swing cfg notes ratio = Ok out /\ Forall (in_bounds cfg) out.
Proof.
  intros H. unfold apply_swing. destruct (near_zero _ _); [eauto|].
  apply for_each_bounds; [|assumption]. intros n. apply swing_note_bounds.
Qed.

Lemma apply_rock_emphasis_bounds (cfg : Settings) (notes : list Note) :
  midi_bounds cfg -> Forall (in_bounds cfg) notes ->
  exists out, apply_rock_emphasis cfg notes = Ok out /\ Forall (in_bounds cfg) out.
Proof.
  intros Hb H. apply for_each_bounds; [|assumption].
  intros n. now apply rock_note_bounds.
Qed.

Lemma apply_reggae_offbeat_bounds (cfg : Settings) (notes : list Note) :
  midi_bounds cfg -> Forall (in_bounds cfg) notes ->
  exists out, apply_reggae_offbeat cfg notes = Ok out /\ Forall (in_bounds cfg) out.
Proof.
  intros Hb H. apply for_each_bounds; [|assumption].
  intros n. now apply reggae_note_bounds.
Qed.

(** C3, as stated, fails for the Funk stage on drums: the input velocity
    100 is within [40, 120], and the stage appends a ghost note of velocity
    35, below [velocity_min]. *)
Lemma funk_ghost_note_below_velocity_min :
  Forall (in_bounds settings) [drum_note "kick" 36 1 100]
  /\ fst (style_transform TapeSource settings Funk "drums"
            [drum_note "kick" 36 1 100] [0; 0; 50])
     = Ok [drum_note "kick" 36 1 95; ghost_note 0.25 35]
  /\ ~ in_bounds settings (ghost_note 0.25 35).
Proof.
  split; [|split].
  - repeat constructor; simpl; lia.
  - reflexivity.
  - unfold in_bounds. simpl. lia.
Qed.

(** C3, amended: with configured bounds that are MIDI velocities
    (0 <= velocity_min <= velocity_max <= 127) and input velocities within
    them, every style transform other than Funk on drums (Swing, Rock
    emphasis, Funk on another instrument, Reggae, Neutral) returns notes
    with velocities within the bounds; Funk on drums returns notes that are
    within the bounds or are ghost notes with a velocity in [35, 55]; and
    the Humanizer, for any input velocities, returns notes within the
    bounds. *)
Theorem velocity_bounds (R : RandomSource) (cfg : Settings) (notes : list Note) :
  midi_bounds cfg ->
  Forall (in_bounds cfg) notes ->
  (forall category instrument g,
     (category = Funk -> instrument <> "drums") ->
     exists out,
       style_transform R cfg category instrument notes g = (Ok out, g)
       /\ Forall (in_bounds cfg) out)
  /\ (forall g out g',
        style_transform R cfg Funk "drums" notes g = (Ok out, g') ->
        Forall (fun n => in_bounds cfg n \/ 35 <= velocity n <= 55) out)
  /\ (forall any timing_amount g,
        0 <= humanize_velocity cfg ->
        exists out g',
          humanize R cfg any timing_amount None g = (Ok out, g')
          /\ Forall (in_bounds cfg) out).
Proof.
  intros Hb Hn.
  destruct (apply_rock_emphasis_bounds cfg notes Hb Hn) as [rock [Hrock Hrock_b]].
  split; [|split].
  - intros category instrument g Hfunk. unfold style_transform, lift, ret.
    destruct category.
    + destruct (apply_swing_bounds cfg notes None Hn) as [out [-> Hout]]. eauto.
    + unfold rbind. rewrite Hrock.
      assert (E : String.eqb instrument "drums" = false)
        by (apply String.eqb_neq; auto).
      rewrite E. eauto.
    + rewrite Hrock. eauto.
    + destruct (apply_reggae_offbeat_bounds cfg notes Hb Hn) as [out [-> Hout]]. eauto.
    + eauto.
  - intros g out g' H. unfold style_transform, rbind, lift in H.
    rewrite Hrock in H. change (String.eqb "drums" "drums") with true in H.
    cbv iota in H.
    destruct (add_funk_ghost_notes_spec R _ _ _ _ H) as [_ [ghosts [-> Hg]]].
    apply Forall_app. split.
    + eapply Forall_impl; [|exact Hrock_b]. intros n Hin. left. exact Hin.
    + eapply Forall_impl; [|exact Hg]. intros n Hin. right.
      exact (ghost_of_velocity _ _ _ Hin).
  - intros any timing_amount g Hva. unfold humanize.
    destruct (humanize_loop_spec R cfg
                match timing_amount with Some t => t | None => humanize_timing cfg end
                (humanize_velocity cfg) any Hva [] g)
      as [out [g' [Hl [Hall _]]]].
    exists out, g'. split; [exact Hl|]. apply Hall. destruct Hb as [Hb _]. lia.
Qed.

Lemma velocity_bounds_default :
  (exists out,
     style_transform TapeSource settings Rock "drums"
       [drum_note "kick" 36 1 100] [] = (Ok out, [])
     /\ Forall (in_bounds settings) out)
  /\ (exists out g',
        humanize TapeSource settings [ghost_note 0.25 35] None None [0; 0]
        = (Ok out, g')
        /\ Forall (in_bounds settings) out).
Proof.
  assert (Hb : midi_bounds settings) by (unfold midi_bounds; simpl; lia).
  assert (Hn : Forall (in_bounds settings) [drum_note "kick" 36 1 100])
    by (repeat constructor; simpl; lia).
  destruct (velocity_bounds TapeSource settings [drum_note "kick" 36 1 100] Hb Hn)
    as [H1 [_ H3]].
  split.
  - apply H1. discriminate.
  - apply H3. simpl. lia.
Defined.

(** ** The shared generator *)




(** ** The frame of the ghost-note stage *)

(** C10: whenever the stage returns, its output is the input list followed
    by ghost notes only, each a snare hit of key 38 with a velocity in
    [35, 55], at the time of a slot [bar * 4.0 + sixteenth * 0.25] whose
    index within the bar is 1 or 3 modulo 4, not within 0.01 of a snare
    time of the input and not later than the latest input time; and it
    returns whenever the latest input time is a finite number whose bar
    count is below [2^53]. *)
Theorem ghost_notes_frame (R : RandomSource) (notes : list Note) (g : rng R) :
  (forall out g',
     add_funk_ghost_notes R notes g = (Ok out, g') ->
     exists ghosts,
       out = notes ++ ghosts
       /\ Forall (ghost_of (max_time_of notes) (snare_times_of notes)) ghosts)
  /\ (forall b,
        Py.int_of_float (max_time_of notes / 4) = Ok b -> b < 2 ^ 53 ->
        exists ghosts g',
          add_funk_ghost_notes R notes g = (Ok (notes ++ ghosts), g')
          /\ Forall (ghost_of (max_time_of notes) (snare_times_of notes)) ghosts).
Proof.
  split.
  - intros out g' H. exact (proj2 (add_funk_ghost_notes_spec R notes g g' (Ok out) H)).
  - intros b Hb Hlt. exact (add_funk_ghost_notes_defined R notes g b Hb Hlt).
Qed.

Lemma ghost_notes_frame_kick :
  exists ghosts g',
    add_funk_ghost_notes TapeSource [drum_note "kick" 36 1 100] [0; 0; 50]
    = (Ok ([drum_note "kick" 36 1 100] ++ ghosts), g')
    /\ Forall (ghost_of 1 []) ghosts.
Proof.
  apply (proj2 (ghost_notes_frame TapeSource [drum_note "kick" 36 1 100] [0; 0; 50]) 0).
  - reflexivity.
  - reflexivity.
Defined.

(** * Further properties of the stages *)

(** ** The order of the floats *)

Local Open Scope Z_scope.

Lemma SFcompare_antisym (x y : spec_float) :
  SFcompare y x = option_map CompOpp (SFcompare x y).
Proof.
  destruct x as [sx | sx | | sx mx ex], y as [sy | sy | | sy my ey]; simpl;
    try reflexivity;
    try (destruct sx; reflexivity); try (destruct sy; reflexivity);
    try (destruct sx, sy; reflexivity).
  destruct sx, sy; try reflexivity;
    rewrite (Z.compare_antisym ex ey); destruct (ex ?= ey); simpl; try reflexivity;
    pose proof (Pos.compare_cont_antisym mx my Eq) as H; simpl in H;
    now rewrite H.
Qed.

Lemma SFcompare_refl (x : spec_float) :
  x <> S754_nan -> SFcompare x x = Some Eq.
Proof.
  destruct x as [s | s | | s m e]; simpl; intros H; try reflexivity.
  - now destruct s.
  - congruence.
  - destruct s; now rewrite Z.compare_refl, Pos.compare_cont_refl.
Qed.

Lemma is_number_spec (a : float) :
  is_number a = true <-> Prim2SF a <> S754_nan.
Proof.
  unfold is_number. rewrite eqb_spec. unfold SFeqb. split.
  - intros H E. now rewrite E in H.
  - intros H. now rewrite SFcompare_refl.
Qed.

Lemma ltb_leb (a b : float) : PrimFloat.ltb a b = true -> PrimFloat.leb a b = true.
Proof.
  rewrite ltb_spec, leb_spec. unfold SFltb, SFleb.
  now destruct (SFcompare (Prim2SF a) (Prim2SF b)) as [[]|].
Qed.

Lemma ltb_asym (a b : float) : PrimFloat.ltb a b = true -> PrimFloat.ltb b a = false.
Proof.
  rewrite !ltb_spec. unfold SFltb. rewrite (SFcompare_antisym (Prim2SF a) (Prim2SF b)).
  now destruct (SFcompare (Prim2SF a) (Prim2SF b)) as [[]|].
Qed.

Lemma ltb_irrefl (a : float) : PrimFloat.ltb a a = false.
Proof.
  destruct (PrimFloat.ltb a a) eqn:E; [|reflexivity].
  now rewrite (ltb_asym _ _ E) in E.
Qed.

Lemma compare_numbers (a b : float) :
  is_number a = true -> is_number b = true ->
  exists c, SFcompare (Prim2SF a) (Prim2SF b) = Some c.
Proof.
  rewrite !is_number_spec.
  destruct (Prim2SF a), (Prim2SF b); simpl; try congruence; eauto.
Qed.

Lemma not_ltb_leb (a b : float) :
  is_number a = true -> is_number b = true ->
  PrimFloat.ltb a b = false -> PrimFloat.leb b a = true.
Proof.
  intros Ha Hb. destruct (compare_numbers a b Ha Hb) as [c Hc].
  rewrite ltb_spec, leb_spec. unfold SFltb, SFleb.
  rewrite (SFcompare_antisym (Prim2SF a) (Prim2SF b)), Hc. now destruct c.
Qed.

Lemma leb_numbers (a b : float) :
  PrimFloat.leb a b = true -> is_number a = true /\ is_number b = true.
Proof.
  rewrite leb_spec, !is_number_spec. unfold SFleb.
  destruct (Prim2SF a), (Prim2SF b); simpl; try discriminate; intros _; split;
    discriminate.
Qed.


Lemma leb_refl (a : float) : is_number a = true -> PrimFloat.leb a a = true.
Proof.
  intros H. apply is_number_spec in H. rewrite leb_spec. unfold SFleb.
  now rewrite SFcompare_refl.
Qed.

Lemma fmax_lower (a x : float) :
  is_number a = true -> PrimFloat.leb a (Py.fmax a x) = true.
Proof.
  intros Ha. unfold Py.fmax. destruct (PrimFloat.ltb a x) eqn:E.
  - now apply ltb_leb.
  - now apply leb_refl.
Qed.

Lemma fmax_not_below (g x : float) : PrimFloat.ltb (Py.fmax g x) g = false.
Proof.
  unfold Py.fmax. destruct (PrimFloat.ltb g x) eqn:E.
  - now apply ltb_asym.
  - apply ltb_irrefl.
Qed.

Lemma opp_leb (a : float) :
  PrimFloat.leb 0 a = true ->
  PrimFloat.leb (- a) a = true /\ is_number (- a) = true.
Proof.
  rewrite is_number_spec, !leb_spec, opp_spec. unfold SFleb.
  change (Prim2SF 0) with (S754_zero false).
  destruct (Prim2SF a) as [s|s| |s m e]; simpl; try discriminate.
  - intros _. split; [reflexivity | discriminate].
  - destruct s; [discriminate|]. intros _. split; [reflexivity | discriminate].
  - destruct s; [discriminate|]. intros _. split; [reflexivity | discriminate].
Qed.

(** ** What the quantizer and the style stages keep *)

Lemma with_time_same (n : Note) : with_time n (time n) = n.
Proof. now destruct n. Qed.

Lemma with_velocity_same (n : Note) : with_velocity n (velocity n) = n.
Proof. now destruct n. Qed.

Lemma quantize_note_frame (g : float) (n n' : Note) :
  quantize_note g n = Ok n' -> quantized_frame g n n'.
Proof.
  unfold quantize_note, quantized_frame. intros H. bind_inv H.
  cbn [duration with_time] in H. destruct (duration n) as [d|] eqn:Ed.
  - bind_inv H. injection H as <-. simpl. repeat split. apply fmax_not_below.
  - injection H as <-. simpl. rewrite Ed. repeat split.
Qed.

Lemma quantize_notes_Forall2 (cfg : Settings) (notes out : list Note)
    (grid : option float) :
  quantize_notes cfg notes grid = Ok out ->
  Forall2 (quantized_frame (effective_grid cfg grid)) notes out.
Proof.
  unfold quantize_notes. cbn zeta. rewrite quantize_loop_for_each, for_each_Forall2.
  apply Forall2_impl. intros n n'. apply quantize_note_frame.
Qed.

(** X1: whenever quantization returns, it returns one note for each input
    note, in the same order; the note keeps its drum name, MIDI key, pitch
    and velocity; a note without a duration gets none, and a duration that
    is present is never below one grid step afterwards. *)
Theorem quantize_notes_frame (cfg : Settings) (notes out : list Note)
    (grid : option float) :
  quantize_notes cfg notes grid = Ok out ->
  List.length out = List.length notes
  /\ Forall2 (quantized_frame (effective_grid cfg grid)) notes out.
Proof.
  intros H. apply quantize_notes_Forall2 in H. split; [|exact H].
  symmetry. exact (Forall2_length H).
Qed.

Lemma quantize_notes_frame_default :
  List.length [drum_note "kick" 36 0.5 100; piano_note 60 1.25 0.25 80] = 2%nat
  /\ Forall2 (quantized_frame 0.25)
       [drum_note "kick" 36 0.498 100; piano_note 60 1.3 0.05 80]
       [drum_note "kick" 36 0.5 100; piano_note 60 1.25 0.25 80].
Proof.
  apply (quantize_notes_frame settings
           [drum_note "kick" 36 0.498 100; piano_note 60 1.3 0.05 80] _ None).
  reflexivity.
Defined.

Lemma swing_note_total (ratio : float) (n : Note) :
  exists n', swing_note ratio n = Ok n' /\ same_but_time n n'.
Proof.
  unfold swing_note, same_but_time.
  destruct (mod_defined (time n) 1 eq_refl) as [beat_pos ->]. cbn [bind].
  destruct (near_zero _ _); [eexists; split; [reflexivity|]; reflexivity|].
  destruct (near_zero _ _); eexists; (split; [reflexivity|]).
  - reflexivity.
  - now rewrite with_time_same.
Qed.

Lemma for_each_total (P : Note -> Note -> Prop) (body : Note -> result Note)
    (ns : list Note) :
  (forall n, exists n', body n = Ok n' /\ P n n') ->
  exists out, for_each body ns [] = Ok out /\ Forall2 P ns out.
Proof.
  intros Hbody. induction ns as [|n ns [out [IH1 IH2]]].
  - exists []. split; [reflexivity | constructor].
  - destruct (Hbody n) as [n' [Hn1 Hn2]].
    exists (n' :: out). rewrite for_each_cons, Hn1, IH1. split; [reflexivity|].
    now constructor.
Qed.

Lemma Forall2_same (P : Note -> Note -> Prop) (ns : list Note) :
  (forall n, P n n) -> Forall2 P ns ns.
Proof. intros H. induction ns; constructor; auto. Qed.

Lemma apply_swing_defined (cfg : Settings) (notes : list Note) (ratio : option float) :
  exists out,
    apply_swing cfg notes ratio = Ok out
    /\ Forall2 same_but_time notes out
    /\ (near_zero (swing_ratio_of cfg ratio - 0.5) 0.01 = true -> out = notes).
Proof.
  unfold apply_swing.
  change (match ratio with Some r => r | None => swing_ratio cfg end)
    with (swing_ratio_of cfg ratio).
  destruct (near_zero (swing_ratio_of cfg ratio - 0.5) 0.01).
  - exists notes. split; [reflexivity|]. split; [|reflexivity]. apply Forall2_same.
    intros n. unfold same_but_time. now rewrite with_time_same.
  - destruct (for_each_total same_but_time (swing_note (swing_ratio_of cfg ratio)) notes
                (swing_note_total _)) as [out [H1 H2]].
    exists out. split; [exact H1|]. split; [exact H2 | discriminate].
Qed.

(** X2: the swing stage never raises, whatever the times and the ratio
    (a [nan] or an infinite time included); it returns one note for each
    input note, in the same order, and changes nothing of a note but its
    time; with a ratio within 0.01 of 0.5 it returns its input as it
    is. *)
Theorem apply_swing_total (cfg : Settings) (notes : list Note) (ratio : option float) :
  exists out,
    apply_swing cfg notes ratio = Ok out
    /\ List.length out = List.length notes
    /\ Forall2 same_but_time notes out
    /\ (near_zero (swing_ratio_of cfg ratio - 0.5) 0.01 = true -> out = notes).
Proof.
  destruct (apply_swing_defined cfg notes ratio) as [out [H1 [H2 H3]]].
  exists out. repeat split; try assumption.
  symmetry. exact (Forall2_length H2).
Qed.

Lemma rock_note_frame (cfg : Settings) (n n' : Note) :
  rock_note cfg n = Ok n' -> same_but_velocity n n'.
Proof.
  unfold rock_note, same_but_velocity. intros H. bind_inv H.
  destruct (_ || _).
  - bind_inv H. now injection H as <-.
  - destruct (_ || _).
    + bind_inv H. now injection H as <-.
    + injection H as <-. now rewrite with_velocity_same.
Qed.

Lemma reggae_note_frame (cfg : Settings) (n n' : Note) :
  reggae_note cfg n = Ok n' -> same_but_velocity n n'.
Proof.
  unfold reggae_note, same_but_velocity. intros H. bind_inv H.
  destruct (near_zero _ _).
  - bind_inv H. now injection H as <-.
  - destruct (near_zero _ _).
    + bind_inv H. now injection H as <-.
    + injection H as <-. now rewrite with_velocity_same.
Qed.

Lemma apply_rock_emphasis_Forall2 (cfg : Settings) (notes out : list Note) :
  apply_rock_emphasis cfg notes = Ok out -> Forall2 same_but_velocity notes out.
Proof.
  unfold apply_rock_emphasis. rewrite for_each_Forall2.
  apply Forall2_impl. intros n n'. apply rock_note_frame.
Qed.

Lemma apply_reggae_offbeat_Forall2 (cfg : Settings) (notes out : list Note) :
  apply_reggae_offbeat cfg notes = Ok out -> Forall2 same_but_velocity notes out.
Proof.
  unfold apply_reggae_offbeat. rewrite for_each_Forall2.
  apply Forall2_impl. intros n n'. apply reggae_note_frame.
Qed.

(** X3: the two accent stages, rock emphasis and reggae offbeat, move no
    note: whenever one of them returns, it returns one note for each input
    note, in the same order, with the same time, duration, pitch, drum name
    and MIDI key; the velocity is all it may change. *)
Theorem accent_stages_keep_times (cfg : Settings) (notes out : list Note) :
  apply_rock_emphasis cfg notes = Ok out \/ apply_reggae_offbeat cfg notes = Ok out ->
  List.length out = List.length notes
  /\ Forall2 same_but_velocity notes out
  /\ map time out = map time notes.
Proof.
  intros H.
  assert (HF : Forall2 same_but_velocity notes out).
  { destruct H as [H | H];
      [exact (apply_rock_emphasis_Forall2 cfg _ _ H)
      | exact (apply_reggae_offbeat_Forall2 cfg _ _ H)]. }
  split; [symmetry; exact (Forall2_length HF)|]. split; [exact HF|].
  clear H. induction HF as [|n n' ns out' Hn _ IH]; [reflexivity|].
  simpl. rewrite IH. f_equal. unfold same_but_velocity in Hn. now rewrite Hn.
Qed.

Lemma accent_stages_keep_times_rock :
  List.length [drum_note "kick" 36 0 114; drum_note "snare" 38 1 95] = 2%nat
  /\ Forall2 same_but_velocity
       [drum_note "kick" 36 0 100; drum_note "snare" 38 1 100]
       [drum_note "kick" 36 0 114; drum_note "snare" 38 1 95]
  /\ map time [drum_note "kick" 36 0 114; drum_note "snare" 38 1 95]
     = map time [drum_note "kick" 36 0 100; drum_note "snare" 38 1 100].
Proof.
  apply (accent_stages_keep_times settings
           [drum_note "kick" 36 0 100; drum_note "snare" 38 1 100]).
  left. reflexivity.
Defined.

(** ** The Humanizer *)

Local Open Scope rand_scope.

Lemma clamp_offset (ta x : float) :
  PrimFloat.leb 0 ta = true ->
  PrimFloat.leb (- ta) (Py.fmax (- ta) (Py.fmin ta x)) = true
  /\ PrimFloat.leb (Py.fmax (- ta) (Py.fmin ta x)) ta = true.
Proof.
  intros Hta. destruct (opp_leb ta Hta) as [Hopp Hnum].
  destruct (leb_numbers _ _ Hta) as [_ Hn].
  split; [now apply fmax_lower|].
  unfold Py.fmax. destruct (PrimFloat.ltb (- ta) (Py.fmin ta x)); [|exact Hopp].
  unfold Py.fmin. destruct (PrimFloat.ltb x ta) eqn:E.
  - now apply ltb_leb.
  - now apply leb_refl.
Qed.

Section Humanizer.

Context (R : RandomSource).

Lemma humanize_note_inv (cfg : Settings) (ta : float) (va : Z) (n : Note)
    (g g' : rng R) (r : result Note) :
  humanize_note R cfg ta va n g = (r, g') ->
  match r with
  | Ok n' => humanized cfg ta va n n' /\ draws R 2 g g'
  | Err e => e = ValueError /\ va < 0 /\ draws R 1 g g'
  end.
Proof.
  unfold humanize_note, rbind, random_gauss, random_randint, ret.
  destruct (next_gauss R 0 (ta / 2) g) as [off g1] eqn:E1.
  assert (Eg1 : g1 = snd (next_gauss R 0 (ta / 2) g)) by (now rewrite E1).
  destruct (Z.ltb_spec va (- va)) as [Hneg | Hpos].
  - intros H. injection H as <- <-. split; [reflexivity|]. split; [lia|].
    apply draws_gauss with (mu := 0%float) (sigma := (ta / 2)%float).
    rewrite <- Eg1. constructor.
  - destruct (next_randint R (- va) va g1) as [v g2] eqn:E2.
    assert (Eg2 : g2 = snd (next_randint R (- va) va g1)) by (now rewrite E2).
    pose proof (next_randint_range R (- va) va g1 Hpos) as Hv. rewrite E2 in Hv.
    simpl in Hv.
    intros H. injection H as <- <-. split.
    + unfold humanized. simpl. repeat split.
      * eexists. split; [reflexivity|]. apply clamp_offset.
      * exists v. split; [exact Hv | reflexivity].
    + apply draws_gauss with (mu := 0%float) (sigma := (ta / 2)%float). rewrite <- Eg1.
      apply draws_randint with (a := - va) (b := va). rewrite <- Eg2. constructor.
Qed.

Lemma humanize_loop_cons (cfg : Settings) (ta : float) (va : Z) (n : Note)
    (ns acc : list Note) (g : rng R) :
  humanize_loop R cfg ta va (n :: ns) acc g =
  match humanize_note R cfg ta va n g with
  | (Ok n', g1) => humanize_loop R cfg ta va ns (acc ++ [n']) g1
  | (Err e, g1) => (Err e, g1)
  end.
Proof. reflexivity. Qed.

Lemma humanize_loop_inv (cfg : Settings) (ta : float) (va : Z) (notes : list Note) :
  forall (acc : list Note) (g g' : rng R) (r : result (list Note)),
  humanize_loop R cfg ta va notes acc g = (r, g') ->
  match r with
  | Ok out => exists new, out = acc ++ new /\ Forall2 (humanized cfg ta va) notes new
  | Err e => e = ValueError /\ va < 0 /\ notes <> []
  end.
Proof.
  induction notes as [|n ns IH]; intros acc g g' r H.
  - injection H as <- <-. exists []. rewrite app_nil_r. split; [reflexivity | constructor].
  - rewrite humanize_loop_cons in H.
    destruct (humanize_note R cfg ta va n g) as [r1 g1] eqn:E1.
    apply humanize_note_inv in E1. destruct r1 as [n'|e].
    + destruct E1 as [Hn _]. specialize (IH _ _ _ _ H). destruct r as [out|e].
      * destruct IH as [new [-> Hnew]]. exists (n' :: new).
        rewrite <- app_assoc. split; [reflexivity|]. constructor; assumption.
      * destruct IH as [He [Hva _]]. repeat split; try assumption. discriminate.
    + injection H as <- <-. destruct E1 as [He [Hva _]].
      repeat split; try assumption. discriminate.
Qed.

Lemma humanize_inv (cfg : Settings) (notes out : list Note)
    (timing_amount : option float) (velocity_amount : option Z) (g g' : rng R) :
  humanize R cfg notes timing_amount velocity_amount g = (Ok out, g') ->
  Forall2 (humanized cfg (timing_of cfg timing_amount)
             (velocity_amount_of cfg velocity_amount)) notes out.
Proof.
  intros H. apply humanize_loop_inv in H. destruct H as [new [-> H]]. exact H.
Qed.

End Humanizer.

Lemma humanized_time (cfg : Settings) (ta : float) (va : Z) (n n' : Note) :
  humanized cfg ta va n n' -> PrimFloat.leb 0 (time n') = true.
Proof.
  intros [_ [_ [_ [_ [[off [-> _]] _]]]]]. now apply fmax_lower.
Qed.

Lemma humanized_bounds (cfg : Settings) (ta : float) (va : Z) (n n' : Note) :
  velocity_min cfg <= velocity_max cfg -> humanized cfg ta va n n' -> in_bounds cfg n'.
Proof.
  intros Hb [_ [_ [_ [_ [_ [off [_ Hv]]]]]]]. unfold in_bounds. lia.
Qed.

Lemma Forall2_Forall_r {A B : Type} (P : A -> B -> Prop) (Q : B -> Prop)
    (l : list A) (l' : list B) :
  (forall a b, P a b -> Q b) -> Forall2 P l l' -> Forall Q l'.
Proof. intros H. induction 1; constructor; eauto. Qed.

(** X4: whenever the Humanizer returns, no note of its output has a
    negative time, and none has the time [nan], whatever the input times,
    the amounts and the draws: each time is [max(0.0, ...)]. *)
Theorem humanize_times_not_negative (R : RandomSource) (cfg : Settings)
    (notes out : list Note) (timing_amount : option float)
    (velocity_amount : option Z) (g g' : rng R) :
  humanize R cfg notes timing_amount velocity_amount g = (Ok out, g') ->
  Forall (fun n => PrimFloat.leb 0 (time n) = true /\ is_number (time n) = true) out.
Proof.
  intros H. apply humanize_inv in H.
  eapply Forall2_Forall_r; [|exact H]. intros n n' Hn.
  pose proof (humanized_time _ _ _ _ _ Hn) as Ht.
  split; [exact Ht | exact (proj2 (leb_numbers _ _ Ht))].
Qed.

Lemma humanize_times_not_negative_tape :
  Forall (fun n => PrimFloat.leb 0 (time n) = true /\ is_number (time n) = true)
    [drum_note "kick" 36 0 100].
Proof.
  apply (humanize_times_not_negative TapeSource settings
           [drum_note "kick" 36 0 100] _ None None [0; 8] []).
  reflexivity.
Defined.

(** X5: whenever the Humanizer returns, it returns one note for each input
    note, in the same order, with the same drum name, MIDI key, pitch and
    duration; and the velocity of a note that was within the configured
    bounds stays within them and moves by at most the velocity amount. *)
Theorem humanize_velocity_jitter (R : RandomSource) (cfg : Settings)
    (notes out : list Note) (timing_amount : option float)
    (velocity_amount : option Z) (g g' : rng R) :
  humanize R cfg notes timing_amount velocity_amount g = (Ok out, g') ->
  List.length out = List.length notes
  /\ Forall2 (fun n n' =>
                drum n' = drum n /\ midi_note n' = midi_note n
                /\ pitch n' = pitch n /\ duration n' = duration n
                /\ (in_bounds cfg n ->
                    in_bounds cfg n'
                    /\ Z.abs (velocity n' - velocity n)
                       <= velocity_amount_of cfg velocity_amount))
       notes out.
Proof.
  intros H. apply humanize_inv in H. split; [symmetry; exact (Forall2_length H)|].
  eapply Forall2_impl; [|exact H]. intros n n' Hn.
  destruct Hn as [H1 [H2 [H3 [H4 [_ [off [Hoff Hv]]]]]]].
  repeat split; try assumption; unfold in_bounds in *; lia.
Qed.

Lemma humanize_velocity_jitter_tape :
  List.length [drum_note "kick" 36 1.015 108] = 1%nat
  /\ Forall2 (fun n n' =>
                drum n' = drum n /\ midi_note n' = midi_note n
                /\ pitch n' = pitch n /\ duration n' = duration n
                /\ (in_bounds settings n ->
                    in_bounds settings n'
                    /\ Z.abs (velocity n' - velocity n) <= 8))
       [drum_note "kick" 36 1 100] [drum_note "kick" 36 1.015 108].
Proof.
  apply (humanize_velocity_jitter TapeSource settings
           [drum_note "kick" 36 1 100] _ None None [6; 16] []).
  reflexivity.
Defined.

(** X6: the timing offset of the Humanizer is clamped: with a timing
    amount [t] that is not negative, each output time is
    [max(0.0, time + offset)] for an offset with [-t <= offset <= t],
    whatever the Gaussian draw was ([nan] and the infinities included). *)
Theorem humanize_offset_clamped (R : RandomSource) (cfg : Settings)
    (notes out : list Note) (timing_amount : option float)
    (velocity_amount : option Z) (g g' : rng R) :
  PrimFloat.leb 0 (timing_of cfg timing_amount) = true ->
  humanize R cfg notes timing_amount velocity_amount g = (Ok out, g') ->
  Forall2 (fun n n' =>
             exists offset : float,
               time n' = Py.fmax 0 (time n + offset)
               /\ PrimFloat.leb (- timing_of cfg timing_amount) offset = true
               /\ PrimFloat.leb offset (timing_of cfg timing_amount) = true)
    notes out.
Proof.
  intros Hta H. apply humanize_inv in H.
  eapply Forall2_impl; [|exact H]. intros n n' Hn.
  destruct Hn as [_ [_ [_ [_ [[off [Ht Hoff]] _]]]]].
  exists off. split; [exact Ht | exact (Hoff Hta)].
Qed.

Lemma humanize_offset_clamped_tape :
  Forall2 (fun n n' =>
             exists offset : float,
               time n' = Py.fmax 0 (time n + offset)
               /\ PrimFloat.leb (- 0.015) offset = true
               /\ PrimFloat.leb offset 0.015 = true)
    [drum_note "kick" 36 1 100] [drum_note "kick" 36 1.015 108].
Proof.
  apply (humanize_offset_clamped TapeSource settings
           [drum_note "kick" 36 1 100] _ None None [6; 16] []).
  - reflexivity.
  - reflexivity.
Defined.

(** X7: a negative velocity amount makes the Humanizer raise ValueError
    on any list that is not empty ([random.randint] is given an empty
    range), and nothing else makes it raise; the empty list is returned as
    it is, without a draw, for every amount. *)
Theorem humanize_raises_on_negative_amount (R : RandomSource) (cfg : Settings)
    (notes : list Note) (timing_amount : option float)
    (velocity_amount : option Z) (g : rng R) :
  humanize R cfg [] timing_amount velocity_amount g = (Ok [], g)
  /\ (forall e g',
        humanize R cfg notes timing_amount velocity_amount g = (Err e, g') ->
        e = ValueError /\ velocity_amount_of cfg velocity_amount < 0 /\ notes <> [])
  /\ (velocity_amount_of cfg velocity_amount < 0 -> notes <> [] ->
      exists g',
        humanize R cfg notes timing_amount velocity_amount g = (Err ValueError, g')
        /\ draws R 1 g g').
Proof.
  split; [reflexivity|]. split.
  - intros e g' H. exact (humanize_loop_inv R _ _ _ _ _ _ _ _ H).
  - intros Hva Hne. destruct notes as [|n ns]; [congruence|].
    unfold humanize. rewrite humanize_loop_cons.
    destruct (humanize_note R cfg (timing_of cfg timing_amount)
                (velocity_amount_of cfg velocity_amount) n g) as [r g1] eqn:E.
    change (match timing_amount with Some t => t | None => humanize_timing cfg end)
      with (timing_of cfg timing_amount).
    change (match velocity_amount with Some v => v | None => humanize_velocity cfg end)
      with (velocity_amount_of cfg velocity_amount).
    rewrite E. apply humanize_note_inv in E. destruct r as [n'|e].
    + exfalso. destruct E as [[_ [_ [_ [_ [_ [off [Hoff _]]]]]]] _]. lia.
    + destruct E as [-> [_ Hd]]. exists g1. split; [reflexivity | exact Hd].
Qed.

Lemma humanize_raises_on_negative_amount_tape :
  exists g',
    humanize TapeSource settings [drum_note "kick" 36 1 100] None (Some (-1)) [6; 16]
    = (Err ValueError, g')
    /\ draws TapeSource 1 [6; 16] g'.
Proof.
  apply (proj2 (proj2 (humanize_raises_on_negative_amount TapeSource settings
                         [drum_note "kick" 36 1 100] None (Some (-1)) [6; 16]))).
  - simpl. lia.
  - discriminate.
Defined.

(** ** The whole of [post_process] *)

Lemma insert_by_times_from (lo : float) (x : Note) (l : list Note) :
  PrimFloat.leb lo (time x) = true -> times_from lo l ->
  times_from lo (insert_by time_lt x l).
Proof.
  revert lo. induction l as [|y l IH]; intros lo Hx Hl; simpl.
  - auto.
  - destruct Hl as [Hy Hl]. unfold time_lt at 1.
    destruct (PrimFloat.ltb (time y) (time x)) eqn:E.
    + simpl. split; [assumption|]. apply IH; [now apply ltb_leb | assumption].
    + simpl. split; [assumption|]. split; [|assumption].
      apply not_ltb_leb; [exact (proj2 (leb_numbers _ _ Hy))
                         | exact (proj2 (leb_numbers _ _ Hx)) | exact E].
Qed.

Lemma sort_by_times_from (lo : float) (l : list Note) :
  Forall (fun n => PrimFloat.leb lo (time n) = true) l ->
  times_from lo (sort_by time_lt l).
Proof.
  induction l as [|x l IH]; intros H; simpl; [trivial|].
  inversion H; subst. apply insert_by_times_from; auto.
Qed.

Lemma list_eq_nil_dec {A : Type} (l : list A) : {l = []} + {l <> []}.
Proof. destruct l; [now left | right; discriminate]. Qed.

Section PostProcess.

Context (R : RandomSource).

Lemma style_transform_length (cfg : Settings) (category : StyleCategory)
    (instrument : string) (processed out : list Note) (g g' : rng R) :
  style_transform R cfg category instrument processed g = (Ok out, g') ->
  (List.length processed <= List.length out)%nat
  /\ ((match category with Funk => String.eqb instrument "drums" | _ => false end)
      = false ->
      List.length out = List.length processed).
Proof.
  unfold style_transform, lift, ret. destruct category; intros H.
  - destruct (apply_swing_defined cfg processed None) as [o [Ho [HF _]]].
    rewrite Ho in H. injection H as <- <-. rewrite (Forall2_length HF).
    split; [lia | reflexivity].
  - unfold rbind in H.
    destruct (apply_rock_emphasis cfg processed) as [rock|e] eqn:Er; [|discriminate].
    apply apply_rock_emphasis_Forall2, Forall2_length in Er.
    destruct (String.eqb instrument "drums").
    + destruct (add_funk_ghost_notes_spec R _ _ _ _ H) as [_ [ghosts [-> _]]].
      rewrite length_app, <- Er. split; [lia | discriminate].
    + injection H as <- <-. rewrite Er. split; [lia | reflexivity].
  - injection H as H <-. apply apply_rock_emphasis_Forall2, Forall2_length in H.
    rewrite H. split; [lia | reflexivity].
  - injection H as H <-. apply apply_reggae_offbeat_Forall2, Forall2_length in H.
    rewrite H. split; [lia | reflexivity].
  - injection H as <- <-. split; [lia | reflexivity].
Qed.

(** The steps of a call of [post_process] that returns, on a list that is
    not empty. *)
Lemma post_process_inv (cfg : Settings) (notes out : list Note)
    (style instrument : string) (g g' : rng R) :
  notes <> [] ->
  post_process R cfg notes style instrument g = (Ok out, g') ->
  exists quantized styled humanized_notes g1,
    quantize_notes cfg notes None = Ok quantized
    /\ style_transform R cfg (_detect_style_category style) instrument quantized g
       = (Ok styled, g1)
    /\ humanize R cfg styled None None g1 = (Ok humanized_notes, g')
    /\ out = sort_by time_lt humanized_notes.
Proof.
  intros Hne H. destruct notes as [|n ns]; [congruence|].
  unfold post_process in H. unfold rbind at 1, lift at 1 in H.
  destruct (quantize_notes cfg (n :: ns) None) as [q|e]; [|discriminate].
  unfold rbind at 1 in H.
  destruct (style_transform R cfg (_detect_style_category style) instrument q g)
    as [[st|e] g1] eqn:Es; [|discriminate].
  unfold rbind at 1 in H.
  destruct (humanize R cfg st None None g1) as [[h|e] g2] eqn:Eh; [|discriminate].
  unfold ret in H. injection H as <- <-.
  exists q, st, h, g1. repeat split; assumption.
Qed.

End PostProcess.

(** X9: whenever [post_process] returns, every velocity it returns is
    within the configured bounds, for any input velocities and for the
    Funk style on drums too: the ghost notes of velocity 35 to 55 pass
    through the clamp of the Humanizer like every other note. *)
Theorem post_process_velocity_bounds (R : RandomSource) (cfg : Settings)
    (notes out : list Note) (style instrument : string) (g g' : rng R) :
  velocity_min cfg <= velocity_max cfg ->
  post_process R cfg notes style instrument g = (Ok out, g') ->
  Forall (in_bounds cfg) out.
Proof.
  intros Hb H. destruct (list_eq_nil_dec notes) as [-> | Hne].
  { unfold post_process, ret in H. cbv beta iota in H. injection H as <- <-.
    constructor. }
  destruct (post_process_inv R _ _ _ _ _ _ _ Hne H) as [q [st [h [g1 [_ [_ [Hh ->]]]]]]].
  apply humanize_inv in Hh.
  eapply Permutation_Forall; [apply sort_by_perm|].
  eapply Forall2_Forall_r; [|exact Hh]. intros a b. now apply humanized_bounds.
Qed.

Lemma post_process_velocity_bounds_funk :
  exists out,
    fst (post_process TapeSource settings
           [drum_note "snare" 38 2.1 100; drum_note "kick" 36 0.02 30]
           "funk groove" "drums" [0; 0; 50; 3; 8; 6; 16; 0; 0; 3; 8]) = Ok out
    /\ Forall (in_bounds settings) out.
Proof.
  eexists. split; [reflexivity|].
  apply (post_process_velocity_bounds TapeSource settings
           [drum_note "snare" 38 2.1 100; drum_note "kick" 36 0.02 30] _
           "funk groove" "drums" [0; 0; 50; 3; 8; 6; 16; 0; 0; 3; 8] []).
  - simpl. lia.
  - reflexivity.
Defined.

(** X10: [post_process] returns the empty list as it is, without a draw;
    whenever it returns on another list, it returns at least as many notes
    as it was given, and exactly as many unless the style is a Funk style
    and the instrument is "drums" (the one step that adds notes). *)
Theorem post_process_note_count (R : RandomSource) (cfg : Settings)
    (notes : list Note) (style instrument : string) (g : rng R) :
  post_process R cfg [] style instrument g = (Ok [], g)
  /\ forall out g',
       post_process R cfg notes style instrument g = (Ok out, g') ->
       (List.length notes <= List.length out)%nat
       /\ (adds_ghosts style instrument = false ->
           List.length out = List.length notes).
Proof.
  split; [reflexivity|]. intros out g' H.
  destruct notes as [|n ns].
  - unfold post_process, ret in H. cbv beta iota in H. injection H as <- <-.
    split; [apply Nat.le_refl | intros _; reflexivity].
  - assert (Hne : n :: ns <> []) by discriminate.
    destruct (post_process_inv R _ _ _ _ _ _ _ Hne H)
      as [q [st [h [g1 [Hq [Hs [Hh ->]]]]]]].
    apply quantize_notes_Forall2, Forall2_length in Hq.
    apply style_transform_length in Hs. destruct Hs as [Hs1 Hs2].
    apply humanize_inv, Forall2_length in Hh.
    rewrite <- (Permutation_length (sort_by_perm time_lt h)), <- Hh, Hq.
    split; [exact Hs1 | exact Hs2].
Qed.

Lemma post_process_note_count_rock :
  exists out,
    fst (post_process TapeSource settings
           [drum_note "snare" 38 2.1 100; drum_note "kick" 36 0.02 30]
           "hard rock" "drums" [3; 8; 6; 16]) = Ok out
    /\ List.length out = 2%nat.
Proof.
  eexists. split; [reflexivity|].
  apply (proj2 (post_process_note_count TapeSource settings
                  [drum_note "snare" 38 2.1 100; drum_note "kick" 36 0.02 30]
                  "hard rock" "drums" [3; 8; 6; 16]) _ []).
  - reflexivity.
  - reflexivity.
Defined.

(** ** The track of the fallback writer *)

Section Stability.

Context {A : Type} (lt : A -> A -> bool).

Lemma precedes_cons (a b x : A) (l : list A) :
  precedes a b l -> precedes a b (x :: l).
Proof.
  intros [l1 [l2 [l3 ->]]]. now exists (x :: l1), l2, l3.
Qed.

Lemma precedes_head (a b : A) (l : list A) : In b l -> precedes a b (a :: l).
Proof.
  intros H. apply in_split in H. destruct H as [l2 [l3 ->]]. now exists [], l2, l3.
Qed.

Lemma precedes_inv (a b x : A) (l : list A) :
  precedes a b (x :: l) -> (x = a /\ In b l) \/ precedes a b l.
Proof.
  intros [l1 [l2 [l3 H]]]. destruct l1 as [|y l1]; simpl in H.
  - injection H as -> ->. left. split; [reflexivity|].
    apply in_or_app. right. now left.
  - injection H as -> ->. right. now exists l1, l2, l3.
Qed.

Lemma insert_by_precedes (a b x : A) (l : list A) :
  precedes a b l -> precedes a b (insert_by lt x l).
Proof.
  induction l as [|y l IH]; intros H; simpl.
  - destruct H as [l1 [l2 [l3 H]]]. now destruct l1.
  - destruct (lt y x).
    + destruct (precedes_inv _ _ _ _ H) as [[-> Hb] | H'].
      * apply precedes_head. eapply Permutation_in; [apply insert_by_perm|].
        now right.
      * now apply precedes_cons, IH.
    + now apply precedes_cons.
Qed.

Lemma insert_by_first (x b : A) (l : list A) :
  In b l -> lt b x = false -> precedes x b (insert_by lt x l).
Proof.
  induction l as [|y l IH]; intros Hb Hlt; simpl; [destruct Hb|].
  destruct (lt y x) eqn:E.
  - destruct Hb as [-> | Hb]; [congruence|]. now apply precedes_cons, IH.
  - now apply precedes_head.
Qed.

(** The sort is stable: of two elements, the one that came first stays
    first unless the key of the other is strictly smaller. *)
Lemma sort_by_stable (a b : A) (l : list A) :
  precedes a b l -> lt b a = false -> precedes a b (sort_by lt l).
Proof.
  induction l as [|x l IH]; intros H Hlt; simpl.
  - destruct H as [l1 [l2 [l3 H]]]. now destruct l1.
  - destruct (precedes_inv _ _ _ _ H) as [[-> Hb] | H'].
    + apply insert_by_first; [|assumption].
      eapply Permutation_in; [apply sort_by_perm | assumption].
    + now apply insert_by_precedes, IH.
Qed.

End Stability.

Lemma precedes_map {A B : Type} (f : A -> B) (a b : A) (l : list A) :
  precedes a b l -> precedes (f a) (f b) (map f l).
Proof.
  intros [l1 [l2 [l3 ->]]]. exists (map f l1), (map f l2), (map f l3).
  now rewrite map_app, (map_cons f a), map_app.
Qed.

Lemma precedes_app_r {A : Type} (a b : A) (l l' : list A) :
  precedes a b l' -> precedes a b (l ++ l').
Proof.
  intros [l1 [l2 [l3 ->]]]. exists (l ++ l1), l2, l3. now rewrite <- app_assoc.
Qed.

Lemma delta_loop_untimed (prev : Z) (events : list Event) :
  map untimed (delta_loop prev events) = map event_message events.
Proof.
  revert prev. induction events as [|e rest IH]; intros prev; simpl; [reflexivity|].
  now rewrite IH.
Qed.

Lemma delta_loop_deltas (prev : Z) (events : list Event) :
  Forall (fun m => 0 <= delta_time m) (delta_loop prev events).
Proof.
  revert prev. induction events as [|e rest IH]; intros prev; simpl; constructor.
  - simpl. lia.
  - apply IH.
Qed.

Lemma accumulate_ticks_from (now : Z) (msgs : list TrackMessage) :
  Forall (fun m => 0 <= delta_time m) msgs -> ticks_from now (accumulate now msgs).
Proof.
  intros H. revert now. induction H as [|m msgs Hm _ IH]; intros now; simpl; [trivial|].
  destruct m as [bpm | ty p v ch delta]; [apply IH|].
  simpl in *. split; [lia | apply IH].
Qed.

(** The events of the notes, in the order of the notes. *)
Lemma collect_events_flat (bpm : Z) (ns : list FallbackNote) (events : list Event) :
  collect_events bpm ns [] = Ok events ->
  events = flat_map (events_of bpm) ns
  /\ map event_message events = flat_map note_messages ns.
Proof.
  revert events. induction ns as [|n ns IH]; intros events H.
  - injection H as <-. split; reflexivity.
  - cbn [collect_events] in H. bind_inv H. rewrite collect_events_acc in H.
    bind_inv H. injection H as <-. destruct (IH _ E0) as [IH1 IH2].
    cbn [flat_map]. unfold events_of at 1. rewrite E. rewrite map_app, IH2, <- IH1.
    split; [reflexivity|]. f_equal.
    unfold note_events in E. bind_inv E. bind_inv E. injection E as <-. reflexivity.
Qed.

Lemma write_inv (sequence : FallbackSequence) (track : list TrackMessage) :
  _write_midi_with_mido sequence = Ok track ->
  exists events,
    collect_events (sequence_tempo_bpm sequence) (notes sequence) [] = Ok events
    /\ track = MetaSetTempo (sequence_tempo_bpm sequence)
               :: delta_loop 0 (sort_events events).
Proof.
  unfold _write_midi_with_mido. intros H. bind_inv H. injection H as <-.
  now exists x.
Qed.

(** X11: whenever the writer returns a track, the track is the tempo
    message, with the BPM of the sequence, followed by two messages for
    each note; no delta time is negative; and the absolute ticks a reader
    accumulates never go down. *)
Theorem track_shape (sequence : FallbackSequence) (track : list TrackMessage) :
  _write_midi_with_mido sequence = Ok track ->
  exists msgs,
    track = MetaSetTempo (sequence_tempo_bpm sequence) :: msgs
    /\ List.length msgs = (2 * List.length (notes sequence))%nat
    /\ Forall (fun m => 0 <= delta_time m) msgs
    /\ ticks_from 0 (decode_track track).
Proof.
  intros H. destruct (write_inv _ _ H) as [events [Hc ->]].
  eexists. split; [reflexivity|].
  pose proof (delta_loop_deltas 0 (sort_events events)) as Hd.
  split; [|split; [exact Hd|]].
  - destruct (collect_events_flat _ _ _ Hc) as [_ Hm].
    rewrite <- (length_map untimed), delta_loop_untimed, length_map.
    rewrite <- (Permutation_length (sort_events_perm events)).
    rewrite <- (length_map event_message), Hm.
    clear. induction (notes sequence) as [|n ns IH]; [reflexivity|].
    cbn [flat_map note_messages]. simpl List.length. rewrite IH. lia.
  - unfold decode_track. cbn [accumulate]. now apply accumulate_ticks_from.
Qed.

Lemma track_shape_kick :
  exists msgs,
    [MetaSetTempo 120; Message note_on 36 100 9 0; Message note_off 36 0 9 48]
    = MetaSetTempo (sequence_tempo_bpm kick_sequence) :: msgs
    /\ List.length msgs = (2 * List.length (notes kick_sequence))%nat
    /\ Forall (fun m => 0 <= delta_time m) msgs
    /\ ticks_from 0 (decode_track
                       [MetaSetTempo 120; Message note_on 36 100 9 0;
                        Message note_off 36 0 9 48]).
Proof.
  apply (track_shape kick_sequence). reflexivity.
Defined.

(** X12: whenever the writer returns a track, its messages after the
    tempo message are, apart from their order and their delta times,
    exactly one Note-On and one Note-Off for each note of the sequence:
    the Note-On with the pitch and the velocity of the note, the Note-Off
    with the pitch and velocity 0, both on channel 9 for a drum note and
    on channel 0 for any other. *)
Theorem track_messages (sequence : FallbackSequence) (track : list TrackMessage) :
  _write_midi_with_mido sequence = Ok track ->
  Permutation (map untimed (tl track)) (flat_map note_messages (notes sequence)).
Proof.
  intros H. destruct (write_inv _ _ H) as [events [Hc ->]].
  cbn [tl]. rewrite delta_loop_untimed.
  destruct (collect_events_flat _ _ _ Hc) as [_ <-].
  apply Permutation_map, Permutation_sym, sort_events_perm.
Qed.

Lemma track_messages_kick :
  Permutation
    (map untimed (tl [MetaSetTempo 120; Message note_on 36 100 9 0;
                      Message note_off 36 0 9 48]))
    (flat_map note_messages (notes kick_sequence)).
Proof.
  apply (track_messages kick_sequence). reflexivity.
Defined.

Lemma collect_events_pair (bpm : Z) (ns : list FallbackNote) (events : list Event)
    (n : FallbackNote) :
  collect_events bpm ns [] = Ok events -> In n ns ->
  exists s e,
    seconds_to_tick (start_time n) bpm = Ok s
    /\ seconds_to_tick (end_time n) bpm = Ok e
    /\ precedes (note_on_event s (fn_pitch n) (fn_velocity n) (channel_of n))
         (note_off_event e (fn_pitch n) (channel_of n)) events.
Proof.
  revert events. induction ns as [|m ns IH]; intros events H Hin; [destruct Hin|].
  cbn [collect_events] in H. bind_inv H. rewrite collect_events_acc in H.
  bind_inv H. injection H as <-. destruct Hin as [-> | Hin].
  - unfold note_events in E. bind_inv E. bind_inv E. injection E as <-.
    do 2 eexists. split; [eassumption|]. split; [eassumption|].
    eexists [], [], _. reflexivity.
  - destruct (IH _ E0 Hin) as [s [e [Hs [He Hp]]]].
    exists s, e. split; [assumption|]. split; [assumption|].
    now apply precedes_app_r.
Qed.

(** X13: the sort of the events is stable, so a note keeps its Note-On
    ahead of its Note-Off: whenever the writer returns a track, both ticks
    of every note of the sequence are defined, and if the end tick is not
    below the start tick (equal ticks included), the Note-On message of
    the note comes before its Note-Off message in the track. *)
Theorem note_on_before_note_off (sequence : FallbackSequence)
    (track : list TrackMessage) (n : FallbackNote) :
  _write_midi_with_mido sequence = Ok track ->
  In n (notes sequence) ->
  exists s e,
    seconds_to_tick (start_time n) (sequence_tempo_bpm sequence) = Ok s
    /\ seconds_to_tick (end_time n) (sequence_tempo_bpm sequence) = Ok e
    /\ (s <= e ->
        precedes (note_on_message n) (note_off_message n) (map untimed track)).
Proof.
  intros H Hin. destruct (write_inv _ _ H) as [events [Hc ->]].
  destruct (collect_events_pair _ _ _ _ Hc Hin) as [s [e [Hs [He Hp]]]].
  exists s, e. split; [assumption|]. split; [assumption|]. intros Hle.
  cbn [map]. apply precedes_cons. rewrite delta_loop_untimed.
  apply (precedes_map event_message) with
    (a := note_on_event s (fn_pitch n) (fn_velocity n) (channel_of n))
    (b := note_off_event e (fn_pitch n) (channel_of n)).
  unfold sort_events. apply sort_by_stable; [exact Hp|].
  simpl. apply Z.ltb_ge. exact Hle.
Qed.

Lemma note_on_before_note_off_kick :
  exists s e,
    seconds_to_tick 0 120 = Ok s
    /\ seconds_to_tick 0.05 120 = Ok e
    /\ (s <= e ->
        precedes (Message note_on 36 100 9 0) (Message note_off 36 0 9 0)
          (map untimed [MetaSetTempo 120; Message note_on 36 100 9 0;
                        Message note_off 36 0 9 48])).
Proof.
  apply (note_on_before_note_off kick_sequence _
           {| fn_pitch := 36; start_time := 0; end_time := 0.05;
              fn_velocity := 100; is_drum := true; instrument := 9 |}).
  - reflexivity.
  - left. reflexivity.
Defined.



(** ** The sequences of the builders *)

Lemma add_note_latest_end (seq : FallbackSequence) (p : Z) (s e : float) (v : Z)
    (d : bool) (i : Z) :
  total_time seq = latest_end (notes seq) ->
  total_time (add_note seq p s e v d i) = latest_end (notes (add_note seq p s e v d i)).
Proof.
  intros H. unfold latest_end in *. simpl. now rewrite map_app, fold_left_app, <- H.
Qed.

Lemma drum_loop_shape (bpm : Z) (ns : list Note) (seq0 seq : FallbackSequence) :
  drum_loop bpm ns seq0 = Ok seq ->
  total_time seq0 = latest_end (notes seq0) ->
  tempos seq = tempos seq0 /\ tempo seq = tempo seq0
  /\ ticks_per_quarter seq = ticks_per_quarter seq0
  /\ total_time seq = latest_end (notes seq)
  /\ exists fns, notes seq = notes seq0 ++ fns /\ Forall2 (drum_entry bpm) ns fns.
Proof.
  revert seq0. induction ns as [|n ns IH]; intros seq0 H Ht; simpl in H.
  - injection H as <-. repeat split; try assumption. exists [].
    now rewrite app_nil_r.
  - bind_inv H. bind_inv H.
    destruct (IH _ H (add_note_latest_end _ _ _ _ _ _ _ Ht))
      as [H1 [H2 [H3 [H4 [fns [Hn HF]]]]]].
    simpl in H1, H2, H3, Hn. repeat split; try assumption.
    eexists (_ :: fns). rewrite Hn, <- app_assoc. split; [reflexivity|].
    constructor; [|assumption].
    unfold drum_entry, drum_built, get_key in *; simpl.
    destruct (midi_note n); [|discriminate]. injection E0 as ->. auto 6.
Qed.

Lemma piano_loop_shape (bpm : Z) (ns : list Note) (seq0 seq : FallbackSequence) :
  piano_loop bpm ns seq0 = Ok seq ->
  total_time seq0 = latest_end (notes seq0) ->
  tempos seq = tempos seq0 /\ tempo seq = tempo seq0
  /\ ticks_per_quarter seq = ticks_per_quarter seq0
  /\ total_time seq = latest_end (notes seq)
  /\ exists fns, notes seq = notes seq0 ++ fns /\ Forall2 (piano_entry bpm) ns fns.
Proof.
  revert seq0. induction ns as [|n ns IH]; intros seq0 H Ht; simpl in H.
  - injection H as <-. repeat split; try assumption. exists [].
    now rewrite app_nil_r.
  - bind_inv H. bind_inv H. bind_inv H. bind_inv H.
    destruct (IH _ H (add_note_latest_end _ _ _ _ _ _ _ Ht))
      as [H1 [H2 [H3 [H4 [fns [Hn HF]]]]]].
    simpl in H1, H2, H3, Hn. repeat split; try assumption.
    eexists (_ :: fns). rewrite Hn, <- app_assoc. split; [reflexivity|].
    constructor; [|assumption].
    unfold piano_entry, get_key in *; simpl.
    destruct (duration n) as [d|]; [|discriminate]. injection E0 as ->.
    destruct (pitch n); [|discriminate]. injection E2 as ->.
    repeat split; try assumption. now exists x0, x1.
Qed.

(** X15: whenever a builder returns a sequence, the sequence carries the
    tempo it was given (as its tempo and as its one tempo entry) and 480
    ticks per quarter; it holds one entry for each note, in the order of
    the notes: for a drum note the MIDI key, a start of
    [time * 60.0 / tempo] seconds, an end 0.05 seconds later, the velocity,
    the drum flag and instrument 9; for a piano note the pitch, the same
    start, an end later by [duration * 60.0 / tempo], no drum flag and
    instrument 0; and its total time is the latest end (0.0 when there is
    no note). *)
Theorem builders_shape (notes0 : list Note) (tempo0 : Z) (seq : FallbackSequence) :
  (_drum_notes_to_sequence notes0 tempo0 = Ok seq ->
   Forall2 (drum_entry tempo0) notes0 (notes seq)
   /\ tempo seq = tempo0 /\ tempos seq = [tempo0] /\ ticks_per_quarter seq = 480
   /\ total_time seq = latest_end (notes seq))
  /\ (_piano_notes_to_sequence notes0 tempo0 = Ok seq ->
      Forall2 (piano_entry tempo0) notes0 (notes seq)
      /\ tempo seq = tempo0 /\ tempos seq = [tempo0] /\ ticks_per_quarter seq = 480
      /\ total_time seq = latest_end (notes seq)).
Proof.
  split; intros H.
  - apply drum_loop_shape in H; [|reflexivity].
    destruct H as [H1 [H2 [H3 [H4 [fns [Hn HF]]]]]]. simpl in *. subst fns.
    repeat split; assumption.
  - apply piano_loop_shape in H; [|reflexivity].
    destruct H as [H1 [H2 [H3 [H4 [fns [Hn HF]]]]]]. simpl in *. subst fns.
    repeat split; assumption.
Qed.

Lemma builders_shape_kick :
  Forall2 (drum_entry 120) [drum_note "kick" 36 0 100] (notes kick_sequence)
  /\ tempo kick_sequence = 120 /\ tempos kick_sequence = [120]
  /\ ticks_per_quarter kick_sequence = 480
  /\ total_time kick_sequence = latest_end (notes kick_sequence).
Proof.
  apply (proj1 (builders_shape [drum_note "kick" 36 0 100] 120 kick_sequence)).
  reflexivity.
Defined.

Lemma drum_loop_KeyError (bpm : Z) (ns : list Note) :
  bpm <> 0 -> Z.abs bpm < 2 ^ 53 ->
  Exists (fun n => midi_note n = None) ns ->
  forall seq, drum_loop bpm ns seq = Err KeyError.
Proof.
  intros H0 Hb. induction ns as [|n ns IH]; intros Hex seq.
  - inversion Hex.
  - simpl. destruct (beats_to_seconds_defined (time n) bpm H0 Hb) as [s ->].
    cbn [bind]. destruct (midi_note n) as [p|] eqn:Ep; [|reflexivity].
    cbn [get_key bind]. apply IH. inversion Hex; subst; [congruence | assumption].
Qed.

Lemma piano_loop_KeyError (bpm : Z) (ns : list Note) :
  bpm <> 0 -> Z.abs bpm < 2 ^ 53 ->
  Exists (fun n => pitch n = None \/ duration n = None) ns ->
  forall seq, piano_loop bpm ns seq = Err KeyError.
Proof.
  intros H0 Hb. induction ns as [|n ns IH]; intros Hex seq.
  - inversion Hex.
  - simpl. destruct (beats_to_seconds_defined (time n) bpm H0 Hb) as [s ->].
    cbn [bind]. destruct (duration n) as [d|] eqn:Ed; [|reflexivity].
    cbn [get_key bind]. destruct (beats_to_seconds_defined d bpm H0 Hb) as [l ->].
    cbn [bind]. destruct (pitch n) as [p|] eqn:Ep; [|reflexivity].
    cbn [get_key bind]. apply IH.
    inversion Hex as [? ? [H | H] | ]; subst; [congruence | congruence | assumption].
Qed.

(** X16: a note that lacks a key the builder reads makes the builder raise
    KeyError, for every tempo other than 0 (of magnitude below [2^53]):
    the drum builder on a list with a note without [midi_note] (a piano
    note, say), the piano builder on a list with a note without [pitch] or
    without [duration] (a drum note, say); and [primer_only_to_sequence]
    takes the piano builder for every instrument name other than the
    exact string "drums". *)
Theorem builders_raise_KeyError (ns : list Note) (bpm : Z) :
  bpm <> 0 -> Z.abs bpm < 2 ^ 53 ->
  (Exists (fun n => midi_note n = None) ns ->
   _drum_notes_to_sequence ns bpm = Err KeyError
   /\ primer_only_to_sequence ns "drums" bpm = Err KeyError)
  /\ (Exists (fun n => pitch n = None \/ duration n = None) ns ->
      _piano_notes_to_sequence ns bpm = Err KeyError
      /\ forall name, name <> "drums"%string ->
           primer_only_to_sequence ns name bpm = Err KeyError).
Proof.
  intros H0 Hb. split; intros Hex.
  - split; now apply drum_loop_KeyError.
  - split; [now apply piano_loop_KeyError|]. intros name Hname.
    unfold primer_only_to_sequence. apply String.eqb_neq in Hname. rewrite Hname.
    now apply piano_loop_KeyError.
Qed.

Lemma builders_raise_KeyError_Drums :
  _piano_notes_to_sequence [drum_note "kick" 36 0 100] 120 = Err KeyError
  /\ forall name, name <> "drums"%string ->
       primer_only_to_sequence [drum_note "kick" 36 0 100] name 120 = Err KeyError.
Proof.
  apply (builders_raise_KeyError [drum_note "kick" 36 0 100] 120).
  - discriminate.
  - reflexivity.
  - left. left. reflexivity.
Defined.

(** ** The validators of the primer *)




Lemma validate_drum_notes_keys (cfg : Settings) (raw : list RawDrumNote)
    (max_time : float) :
  List.length (_validate_drum_notes cfg raw max_time)
  = List.length (filter known_drum raw)
  /\ Forall (fun n => midi_note n <> None) (_validate_drum_notes cfg raw max_time).
Proof.
  induction raw as [|note rest [IH1 IH2]]; [split; [reflexivity | constructor]|].
  cbn [_validate_drum_notes filter]. unfold known_drum at 1.
  destruct (lookup (raw_drum note) DRUM_MIDI_MAP) as [key|].
  - split; [simpl; now rewrite IH1|]. constructor; [discriminate | exact IH2].
  - split; assumption.
Qed.

Lemma validate_piano_notes_keys (cfg : Settings) (raw : list RawPianoNote)
    (max_time : float) :
  List.length (_validate_piano_notes cfg raw max_time) = List.length raw
  /\ Forall (fun n => pitch n <> None /\ duration n <> None)
       (_validate_piano_notes cfg raw max_time).
Proof.
  induction raw as [|note rest [IH1 IH2]]; [split; [reflexivity | constructor]|].
  cbn [_validate_piano_notes]. cbv zeta. split; [simpl; now rewrite IH1|].
  constructor; [split; discriminate | exact IH2].
Qed.



(** X19: validated notes always assemble: for every tempo other than 0
    (of magnitude below [2^53]) the drum builder returns a sequence for
    the output of [_validate_drum_notes], and the piano builder for the
    output of [_validate_piano_notes], with one entry for each validated
    note; no KeyError is possible after validation. *)
Theorem validated_notes_assemble (cfg : Settings) (raw_drums : list RawDrumNote)
    (raw_piano : list RawPianoNote) (max_time : float) (bpm : Z) :
  bpm <> 0 -> Z.abs bpm < 2 ^ 53 ->
  (exists seq,
     _drum_notes_to_sequence (_validate_drum_notes cfg raw_drums max_time) bpm = Ok seq
     /\ List.length (notes seq) = List.length (filter known_drum raw_drums))
  /\ (exists seq,
        _piano_notes_to_sequence (_validate_piano_notes cfg raw_piano max_time) bpm
        = Ok seq
        /\ List.length (notes seq) = List.length raw_piano).
Proof.
  intros H0 Hb. split.
  - destruct (validate_drum_notes_keys cfg raw_drums max_time) as [Hlen Hv].
    destruct (drum_loop_defined bpm (_validate_drum_notes cfg raw_drums max_time)
                (new_sequence bpm) H0 Hb) as [seq Hseq].
    { exact Hv. }
    exists seq. split; [exact Hseq|].
    apply drum_loop_shape in Hseq; [|reflexivity].
    destruct Hseq as [_ [_ [_ [_ [fns [-> HF]]]]]]. simpl.
    now rewrite <- (Forall2_length HF).
  - destruct (validate_piano_notes_keys cfg raw_piano max_time) as [Hlen Hv].
    destruct (piano_loop_defined bpm (_validate_piano_notes cfg raw_piano max_time)
                (new_sequence bpm) H0 Hb) as [seq Hseq].
    { exact Hv. }
    exists seq. split; [exact Hseq|].
    apply piano_loop_shape in Hseq; [|reflexivity].
    destruct Hseq as [_ [_ [_ [_ [fns [-> HF]]]]]]. simpl.
    now rewrite <- (Forall2_length HF).
Qed.

Lemma validated_notes_assemble_kick :
  (exists seq,
     _drum_notes_to_sequence
       (_validate_drum_notes settings
          [ {| raw_drum := "kick"; raw_time := 0; raw_velocity := 100 |};
            {| raw_drum := "gong"; raw_time := 1; raw_velocity := 100 |} ] 7.75) 120
     = Ok seq
     /\ List.length (notes seq)
        = List.length (filter known_drum
            [ {| raw_drum := "kick"; raw_time := 0; raw_velocity := 100 |};
              {| raw_drum := "gong"; raw_time := 1; raw_velocity := 100 |} ]))
  /\ (exists seq,
        _piano_notes_to_sequence
          (_validate_piano_notes settings
             [ {| raw_pitch := Some 200; raw_piano_time := None;
                  raw_duration := None; raw_piano_velocity := None |} ] 7.75) 120
        = Ok seq
        /\ List.length (notes seq) = 1%nat).
Proof.
  apply (validated_notes_assemble settings
           [ {| raw_drum := "kick"; raw_time := 0; raw_velocity := 100 |};
             {| raw_drum := "gong"; raw_time := 1; raw_velocity := 100 |} ]
           [ {| raw_pitch := Some 200; raw_piano_time := None;
                raw_duration := None; raw_piano_velocity := None |} ] 7.75 120).
  - discriminate.
  - reflexivity.
Defined.

(** ** Style detection and instrument routing *)

Local Open Scope string_scope.

Lemma lower_ascii_idempotent (c : ascii) : lower_ascii (lower_ascii c) = lower_ascii c.
Proof. destruct c as [[] [] [] [] [] [] [] []]; reflexivity. Qed.

Lemma lower_idempotent (s : string) : lower (lower s) = lower s.
Proof.
  induction s as [|c s IH]; simpl; [reflexivity|].
  now rewrite lower_ascii_idempotent, IH.
Qed.



(** X21: the handler routes an instrument name without looking at the
    case of its letters; a name it accepts reaches the later stages as
    "drums" or as "piano" and nothing else; on the routed name the drum
    test of [generate_primer] and the test [instrument == "drums"] of the
    later stages agree; and a routed name routes to itself. *)
Theorem instrument_routing (name : string) :
  route_instrument (lower name) = route_instrument name
  /\ forall routed, route_instrument name = Some routed ->
       (routed = "drums" \/ routed = "piano")
       /\ is_drums routed = String.eqb routed "drums"
       /\ route_instrument routed = Some routed.
Proof.
  split.
  - unfold route_instrument. cbv zeta. now rewrite lower_idempotent.
  - intros routed. unfold route_instrument. cbv zeta.
    destruct (among (lower name) _).
    + intros H. injection H as <-. repeat split. now left.
    + destruct (among (lower name) _); [|discriminate].
      intros H. injection H as <-. repeat split. now right.
Qed.

Lemma instrument_routing_percussion :
  (("drums" = "drums" \/ "drums" = "piano")
   /\ is_drums "drums" = String.eqb "drums" "drums"
   /\ route_instrument "drums" = Some "drums").
Proof.
  apply (proj2 (instrument_routing "Percussion") "drums"). reflexivity.
Defined.

(** ** The number of ghost notes *)

Local Open Scope list_scope.
Local Open Scope rand_scope.

Section GhostCount.

Context (R : RandomSource).

Lemma ghost_slots_count (bar : Z) (max_time : float) (snares : list float)
    (sixteenths : list Z) :
  forall (acc out : list Note) (g g' : rng R),
  ghost_slots R bar max_time snares sixteenths acc g = (Ok out, g') ->
  (List.length out
   <= List.length acc + List.length (filter ghost_slot sixteenths))%nat.
Proof.
  induction sixteenths as [|s rest IH]; intros acc out g g' H.
  - injection H as <- <-. simpl. lia.
  - cbn [ghost_slots] in H. unfold rbind at 1, lift at 1 in H.
    cbn [filter]. unfold ghost_slot at 1.
    destruct (slot_time bar s) as [t|e]; [|discriminate].
    destruct (PrimFloat.ltb max_time t).
    { injection H as <- <-. lia. }
    destruct (near_snare t snares).
    { specialize (IH _ _ _ _ H). destruct (_ || _); simpl; lia. }
    destruct ((s mod 4 =? 1) || (s mod 4 =? 3))%Z.
    2:{ exact (IH _ _ _ _ H). }
    unfold rbind at 1, random_random at 1 in H.
    destruct (next_random R g) as [x g1].
    destruct (PrimFloat.ltb x 0.4).
    2:{ specialize (IH _ _ _ _ H). simpl. lia. }
    unfold rbind at 1, random_randint at 1 in H.
    change (55 <? 35)%Z with false in H. cbv iota in H.
    destruct (next_randint R 35 55 g1) as [v g2].
    specialize (IH _ _ _ _ H). rewrite length_app in IH. simpl in *. lia.
Qed.

Lemma ghost_bars_count (max_time : float) (snares : list float) (bars : list Z) :
  forall (acc out : list Note) (g g' : rng R),
  ghost_bars R max_time snares bars acc g = (Ok out, g') ->
  (List.length out <= List.length acc + 8 * List.length bars)%nat.
Proof.
  induction bars as [|bar rest IH]; intros acc out g g' H.
  - injection H as <- <-. simpl. lia.
  - rewrite ghost_bars_cons in H.
    destruct (ghost_slots R bar max_time snares range16 acc g) as [[out1|e] g1] eqn:E1;
      [|discriminate].
    apply ghost_slots_count in E1.
    change (List.length (filter ghost_slot range16)) with 8%nat in E1.
    apply IH in H. cbn [List.length]. lia.
Qed.

End GhostCount.

(** X22: the ghost-note stage adds at most eight notes for each bar it
    walks: whenever it returns, the number of bars is
    [int(max_time / 4) + 1] for the latest input time [max_time], and the
    output has at most [8 * bars] notes more than the input. *)
Theorem ghost_notes_count (R : RandomSource) (notes out : list Note) (g g' : rng R) :
  add_funk_ghost_notes R notes g = (Ok out, g') ->
  exists b,
    Py.int_of_float (max_time_of notes / 4) = Ok b
    /\ (List.length notes <= List.length out
        <= List.length notes + 8 * Z.to_nat (b + 1))%nat.
Proof.
  unfold add_funk_ghost_notes. intros H.
  unfold rbind at 1, lift at 1 in H.
  change (Py.div (max_time_of notes) 4)
    with (Ok (A := float) (max_time_of notes / 4)%float) in H.
  cbv iota in H. unfold rbind at 1, lift at 1 in H.
  destruct (Py.int_of_float (max_time_of notes / 4)) as [b|e]; [|discriminate].
  exists b. split; [reflexivity|].
  unfold rbind at 1 in H.
  destruct (ghost_bars R (max_time_of notes) (snare_times_of notes) (range (b + 1)) [] g)
    as [[new|e] g1] eqn:E1; [|discriminate].
  unfold ret in H. injection H as <- <-.
  apply ghost_bars_count in E1. unfold range in E1.
  rewrite length_map, length_seq in E1. rewrite length_app. simpl in E1. lia.
Qed.

Lemma ghost_notes_count_kick :
  exists b,
    Py.int_of_float (max_time_of [drum_note "kick" 36 1 100] / 4) = Ok b
    /\ (List.length [drum_note "kick" 36 1 100]
        <= List.length [drum_note "kick" 36 1 100; ghost_note 0.25 35]
        <= List.length [drum_note "kick" 36 1 100] + 8 * Z.to_nat (b + 1))%nat.
Proof.
  apply (ghost_notes_count TapeSource [drum_note "kick" 36 1 100] _ [0; 0; 50] []).
  reflexivity.
Defined.

(** ** The keys of the notes through [post_process] *)

Local Open Scope string_scope.

Lemma has_keys_kept (instrument : string) (n n' : Note) :
  midi_note n' = midi_note n -> pitch n' = pitch n ->
  (duration n <> None -> duration n' <> None) ->
  has_keys instrument n -> has_keys instrument n'.
Proof.
  unfold has_keys. intros -> -> Hd. destruct (String.eqb instrument "drums"); [auto|].
  intros [Hp Hdur]. auto.
Qed.

Lemma Forall2_Forall_transfer {A : Type} (P : A -> Prop) (Q : A -> A -> Prop)
    (l l' : list A) :
  (forall a b, Q a b -> P a -> P b) -> Forall2 Q l l' -> Forall P l -> Forall P l'.
Proof.
  intros H HF. induction HF as [|a b l l' Hab _ IH]; intros HP; [constructor|].
  inversion HP; subst. constructor; eauto.
Qed.

Lemma quantized_frame_keys (instrument : string) (g : float) (n n' : Note) :
  quantized_frame g n n' -> has_keys instrument n -> has_keys instrument n'.
Proof.
  intros [_ [Hm [Hp [_ Hd]]]]. apply has_keys_kept; try assumption.
  destruct (duration n), (duration n'); try contradiction; congruence.
Qed.

Lemma same_but_time_keys (instrument : string) (n n' : Note) :
  same_but_time n n' -> has_keys instrument n -> has_keys instrument n'.
Proof.
  unfold same_but_time. intros ->. apply has_keys_kept; auto.
Qed.

Lemma same_but_velocity_keys (instrument : string) (n n' : Note) :
  same_but_velocity n n' -> has_keys instrument n -> has_keys instrument n'.
Proof.
  unfold same_but_velocity. intros ->. apply has_keys_kept; auto.
Qed.

Lemma humanized_keys (cfg : Settings) (ta : float) (va : Z) (instrument : string)
    (n n' : Note) :
  humanized cfg ta va n n' -> has_keys instrument n -> has_keys instrument n'.
Proof.
  intros [_ [Hm [Hp [Hd _]]]]. apply has_keys_kept; try assumption.
  now rewrite Hd.
Qed.

Lemma ghost_of_keys (max_time : float) (snares : list float) (n : Note) :
  ghost_of max_time snares n -> has_keys "drums" n.
Proof.
  intros [bar [s [t [v [-> _]]]]]. unfold has_keys. simpl. discriminate.
Qed.

Section Keys.

Context (R : RandomSource).

Lemma style_transform_keys (cfg : Settings) (category : StyleCategory)
    (instrument : string) (processed out : list Note) (g g' : rng R) :
  style_transform R cfg category instrument processed g = (Ok out, g') ->
  Forall (has_keys instrument) processed -> Forall (has_keys instrument) out.
Proof.
  unfold style_transform, lift, ret. destruct category; intros H Hk.
  - destruct (apply_swing_defined cfg processed None) as [o [Ho [HF _]]].
    rewrite Ho in H. injection H as <- <-.
    eapply Forall2_Forall_transfer; [|exact HF | exact Hk].
    intros a b. apply same_but_time_keys.
  - unfold rbind in H.
    destruct (apply_rock_emphasis cfg processed) as [rock|e] eqn:Er; [|discriminate].
    apply apply_rock_emphasis_Forall2 in Er.
    assert (Hrock : Forall (has_keys instrument) rock).
    { eapply Forall2_Forall_transfer; [|exact Er | exact Hk].
      intros a b. apply same_but_velocity_keys. }
    destruct (String.eqb instrument "drums") eqn:Ei.
    + apply String.eqb_eq in Ei. subst instrument.
      destruct (add_funk_ghost_notes_spec R _ _ _ _ H) as [_ [ghosts [-> Hg]]].
      apply Forall_app. split; [exact Hrock|].
      eapply Forall_impl; [|exact Hg]. intros n. apply ghost_of_keys.
    + injection H as <- <-. exact Hrock.
  - injection H as H <-. apply apply_rock_emphasis_Forall2 in H.
    eapply Forall2_Forall_transfer; [|exact H | exact Hk].
    intros a b. apply same_but_velocity_keys.
  - injection H as H <-. apply apply_reggae_offbeat_Forall2 in H.
    eapply Forall2_Forall_transfer; [|exact H | exact Hk].
    intros a b. apply same_but_velocity_keys.
  - injection H as <- <-. exact Hk.
Qed.

End Keys.

(** X23: [post_process] keeps the keys the builders read: when every
    input note carries the keys of the instrument ([midi_note] for
    "drums", [pitch] and [duration] for any other), so does every note of
    the output, the ghost notes of the Funk stage included; hence the
    builder of the instrument assembles the output for every tempo other
    than 0 (of magnitude below [2^53]) and cannot raise KeyError. *)
Theorem post_process_keeps_keys (R : RandomSource) (cfg : Settings)
    (notes out : list Note) (style instrument : string) (g g' : rng R) :
  Forall (has_keys instrument) notes ->
  post_process R cfg notes style instrument g = (Ok out, g') ->
  Forall (has_keys instrument) out
  /\ forall bpm, bpm <> 0%Z -> (Z.abs bpm < 2 ^ 53)%Z ->
       exists seq, primer_only_to_sequence out instrument bpm = Ok seq.
Proof.
  intros Hk H.
  assert (Hout : Forall (has_keys instrument) out).
  { destruct (list_eq_nil_dec notes) as [-> | Hne].
    { unfold post_process, ret in H. cbv beta iota in H. injection H as <- <-.
      constructor. }
    destruct (post_process_inv R _ _ _ _ _ _ _ Hne H)
      as [q [st [h [g1 [Hq [Hs [Hh ->]]]]]]].
    apply quantize_notes_Forall2 in Hq. apply humanize_inv in Hh.
    eapply Permutation_Forall; [apply sort_by_perm|].
    eapply Forall2_Forall_transfer; [|exact Hh|].
    { intros a b. apply humanized_keys. }
    eapply style_transform_keys; [exact Hs|].
    eapply Forall2_Forall_transfer; [|exact Hq | exact Hk].
    intros a b. apply quantized_frame_keys. }
  split; [exact Hout|]. intros bpm H0 Hb.
  unfold primer_only_to_sequence, has_keys in *.
  destruct (String.eqb instrument "drums").
  - now apply drum_loop_defined.
  - now apply piano_loop_defined.
Qed.

Lemma post_process_keeps_keys_funk :
  exists out,
    fst (post_process TapeSource settings
           [drum_note "snare" 38 2.1 100; drum_note "kick" 36 0.02 30]
           "funk groove" "drums" [0; 0; 50; 3; 8; 6; 16; 0; 0; 3; 8]) = Ok out
    /\ Forall (has_keys "drums") out
    /\ forall bpm, bpm <> 0%Z -> (Z.abs bpm < 2 ^ 53)%Z ->
         exists seq, primer_only_to_sequence out "drums" bpm = Ok seq.
Proof.
  eexists. split; [reflexivity|].
  apply (post_process_keeps_keys TapeSource settings
           [drum_note "snare" 38 2.1 100; drum_note "kick" 36 0.02 30] _
           "funk groove" "drums" [0; 0; 50; 3; 8; 6; 16; 0; 0; 3; 8] []).
  - repeat constructor; discriminate.
  - reflexivity.
Defined.

(** ** When [post_process] returns *)

Local Open Scope Z_scope.

Lemma max_time_of_times (a b : list Note) :
  map time a = map time b -> max_time_of a = max_time_of b.
Proof.
  destruct a as [|x a], b as [|y b]; simpl; intros H; try discriminate; [reflexivity|].
  injection H as -> ->. reflexivity.
Qed.

Lemma same_but_velocity_times (l l' : list Note) :
  Forall2 same_but_velocity l l' -> map time l' = map time l.
Proof.
  induction 1 as [|n n' l l' Hn _ IH]; [reflexivity|].
  simpl. rewrite IH. f_equal. unfold same_but_velocity in Hn. now rewrite Hn.
Qed.

Lemma quantize_notes_quantized (cfg : Settings) (notes : list Note) :
  PrimFloat.eqb (quantize_grid cfg) 0 = false ->
  Forall (quantizable (quantize_grid cfg)) notes ->
  quantize_notes cfg notes None = Ok (map (quantized (quantize_grid cfg)) notes).
Proof.
  intros Hg Hq. unfold quantize_notes. cbn zeta. cbn [effective_grid].
  rewrite quantize_loop_for_each. apply for_each_map.
  eapply Forall_impl; [|exact Hq]. intros n Hn. now apply quantize_note_quantized.
Qed.

(** X24: [post_process] returns, for every state of the generator, when
    each stage can do its work: the configured grid is not zero and the
    quotients [time / grid] and [duration / grid] are finite numbers; the
    configured velocity bounds are MIDI velocities and the input
    velocities are within them; the configured velocity amount of the
    Humanizer is not negative; and, for a Funk style on "drums", the bar
    count [int(max_time / 4)] of the latest quantized time is a number
    below [2^53]. *)
Theorem post_process_returns (R : RandomSource) (cfg : Settings)
    (notes : list Note) (style instrument : string) (g : rng R) :
  PrimFloat.eqb (quantize_grid cfg) 0 = false ->
  Forall (quantizable (quantize_grid cfg)) notes ->
  midi_bounds cfg ->
  Forall (in_bounds cfg) notes ->
  0 <= humanize_velocity cfg ->
  (adds_ghosts style instrument = true ->
   exists b,
     Py.int_of_float
       (max_time_of (map (quantized (quantize_grid cfg)) notes) / 4) = Ok b
     /\ b < 2 ^ 53) ->
  exists out g', post_process R cfg notes style instrument g = (Ok out, g').
Proof.
  intros Hg Hq Hb Hn Hva Hbars.
  destruct notes as [|n0 ns]; [now exists [], g|].
  unfold post_process. unfold rbind at 1, lift at 1.
  rewrite (quantize_notes_quantized cfg _ Hg Hq).
  set (q := map (quantized (quantize_grid cfg)) (n0 :: ns)) in *.
  assert (Hqb : Forall (in_bounds cfg) q).
  { subst q. apply Forall_map. eapply Forall_impl; [|exact Hn]. intros n H. exact H. }
  assert (Hst : exists st g1,
            style_transform R cfg (_detect_style_category style) instrument q g
            = (Ok st, g1)).
  { unfold adds_ghosts in Hbars. unfold style_transform, lift, ret.
    destruct (_detect_style_category style).
    - destruct (apply_swing_bounds cfg q None Hqb) as [o [-> _]]. eauto.
    - destruct (apply_rock_emphasis_bounds cfg q Hb Hqb) as [rock [Hrock _]].
      unfold rbind. rewrite Hrock.
      destruct (String.eqb instrument "drums"); [|eauto].
      destruct (Hbars eq_refl) as [b [Hbar Hlt]].
      apply apply_rock_emphasis_Forall2, same_but_velocity_times, max_time_of_times
        in Hrock.
      rewrite <- Hrock in Hbar.
      destruct (add_funk_ghost_notes_defined R rock g b Hbar Hlt) as [gh [g1 [Hgh _]]].
      eauto.
    - destruct (apply_rock_emphasis_bounds cfg q Hb Hqb) as [o [-> _]]. eauto.
    - destruct (apply_reggae_offbeat_bounds cfg q Hb Hqb) as [o [-> _]]. eauto.
    - eauto. }
  destruct Hst as [st [g1 Hst]]. unfold rbind at 1. rewrite Hst.
  unfold rbind at 1. unfold humanize.
  destruct (humanize_loop_spec R cfg (humanize_timing cfg) (humanize_velocity cfg)
              st Hva [] g1) as [h [g2 [Hh _]]].
  rewrite Hh. unfold ret. eauto.
Qed.

Lemma post_process_returns_funk :
  exists out g',
    post_process TapeSource settings
      [drum_note "snare" 38 2.1 100; drum_note "kick" 36 0.02 50]
      "funk groove" "drums" [0; 0; 50; 3; 8; 6; 16; 0; 0; 3; 8] = (Ok out, g').
Proof.
  apply (post_process_returns TapeSource settings
           [drum_note "snare" 38 2.1 100; drum_note "kick" 36 0.02 50]
           "funk groove" "drums" [0; 0; 50; 3; 8; 6; 16; 0; 0; 3; 8]).
  - reflexivity.
  - repeat constructor; simpl; intros d Hd; discriminate.
  - unfold midi_bounds. simpl. lia.
  - repeat constructor; simpl; lia.
  - simpl. lia.
  - intros _. exists 0. split; reflexivity.
Defined.

(** ** The order of the floats is that of their places *)

Lemma compare_cont_compare (m1 m2 : positive) :
  Pos.compare_cont Eq m1 m2 = (Zpos m1 ?= Zpos m2).
Proof. reflexivity. Qed.

Lemma float_key_finite (m : positive) (e : Z) :
  bounded prec emax m e = true ->
  Zpos m < 9007199254740992 /\ -1074 <= e <= 971.
Proof.
  intros H. apply bounded_range in H. destruct H as [Hm [He _]].
  change (2 ^ 53) with 9007199254740992 in *. lia.
Qed.

Lemma SFcompare_key (x y : spec_float) :
  valid_binary x = true -> valid_binary y = true ->
  x <> S754_nan -> y <> S754_nan ->
  SFcompare x y = Some (float_key x ?= float_key y).
Proof.
  intros Vx Vy Nx Ny.
  destruct x as [sx | sx | | sx mx ex]; [| | congruence |];
    destruct y as [sy | sy | | sy my ey]; try congruence;
    cbn [valid_binary] in Vx, Vy;
    try (apply float_key_finite in Vx); try (apply float_key_finite in Vy);
    unfold float_key, SFcompare; cbv beta iota;
    change (2 ^ 65) with 36893488147419103232 in *;
    change (2 ^ 53) with 9007199254740992 in *;
    try rewrite compare_cont_compare;
    destruct sx, sy; cbn [cond_Zopp]; apply f_equal;
    try (destruct (Z.compare_spec ex ey));
    try (destruct (Z.compare_spec (Zpos mx) (Zpos my)));
    cbn [CompOpp]; symmetry;
    first [ apply Z.compare_eq_iff; lia
          | apply Z.compare_lt_iff; lia
          | apply Z.compare_gt_iff; lia ].
Qed.

Lemma leb_key (a b : float) :
  PrimFloat.leb a b = true <->
  is_number a = true /\ is_number b = true
  /\ float_key (Prim2SF a) <= float_key (Prim2SF b).
Proof.
  split.
  - intros H. destruct (leb_numbers _ _ H) as [Ha Hb]. split; [exact Ha|].
    split; [exact Hb|]. rewrite leb_spec in H. unfold SFleb in H.
    rewrite SFcompare_key in H;
      try apply Prim2SF_valid; try (now apply is_number_spec).
    unfold Z.le. revert H.
    destruct (float_key (Prim2SF a) ?= float_key (Prim2SF b)); intros H; congruence.
  - intros [Ha [Hb H]]. rewrite leb_spec. unfold SFleb.
    rewrite SFcompare_key;
      try apply Prim2SF_valid; try (now apply is_number_spec).
    unfold Z.le in H. revert H.
    destruct (float_key (Prim2SF a) ?= float_key (Prim2SF b)); intros H; congruence.
Qed.

Lemma leb_trans (a b c : float) :
  PrimFloat.leb a b = true -> PrimFloat.leb b c = true -> PrimFloat.leb a c = true.
Proof.
  rewrite !leb_key. intros [Ha [_ H1]] [_ [Hc H2]]. repeat split; try assumption. lia.
Qed.

Lemma fmax_upper (a x : float) :
  is_number a = true -> is_number x = true ->
  PrimFloat.leb x (Py.fmax a x) = true /\ is_number (Py.fmax a x) = true.
Proof.
  intros Ha Hx. unfold Py.fmax. destruct (PrimFloat.ltb a x) eqn:E.
  - split; [now apply leb_refl | assumption].
  - split; [now apply not_ltb_leb | assumption].
Qed.

Lemma fold_fmax (l : list float) :
  forall a, is_number a = true -> Forall (fun x => is_number x = true) l ->
  (fold_left Py.fmax l a = a \/ In (fold_left Py.fmax l a) l)
  /\ PrimFloat.leb a (fold_left Py.fmax l a) = true
  /\ Forall (fun x => PrimFloat.leb x (fold_left Py.fmax l a) = true) l.
Proof.
  induction l as [|x l IH]; intros a Ha Hl; simpl.
  - split; [now left|]. split; [now apply leb_refl | constructor].
  - inversion Hl as [|? ? Hx Hl']; subst.
    destruct (fmax_upper a x Ha Hx) as [Hxm Hm].
    destruct (IH (Py.fmax a x) Hm Hl') as [Hin [Hle Hall]].
    split; [|split].
    + destruct Hin as [-> | Hin]; [|now right; right].
      unfold Py.fmax. destruct (PrimFloat.ltb a x); [right; now left | now left].
    + eapply leb_trans; [|exact Hle]. now apply fmax_lower.
    + constructor; [|exact Hall]. eapply leb_trans; [exact Hxm | exact Hle].
Qed.

(** ** Latest times and the order of the output *)

Lemma times_from_sorted (lo : float) (l : list Note) :
  times_from lo l ->
  Forall (fun n => PrimFloat.leb lo (time n) = true) l
  /\ StronglySorted (fun a b => PrimFloat.leb (time a) (time b) = true) l.
Proof.
  revert lo. induction l as [|n l IH]; intros lo H; [split; constructor|].
  destruct H as [Hn Hl]. destruct (IH _ Hl) as [IH1 IH2]. split.
  - constructor; [exact Hn|]. eapply Forall_impl; [|exact IH1].
    intros m Hm. exact (leb_trans _ _ _ Hn Hm).
  - constructor; assumption.
Qed.

(** X8: whenever [post_process] returns, the notes it returns are sorted
    by time: every note has a time at or after the time of every note
    before it; no time is negative and none is [nan]. *)
Theorem post_process_sorted (R : RandomSource) (cfg : Settings)
    (notes out : list Note) (style instrument : string) (g g' : rng R) :
  post_process R cfg notes style instrument g = (Ok out, g') ->
  StronglySorted (fun a b => PrimFloat.leb (time a) (time b) = true) out
  /\ Forall (fun n => PrimFloat.leb 0 (time n) = true /\ is_number (time n) = true) out.
Proof.
  intros H. destruct (list_eq_nil_dec notes) as [-> | Hne].
  { unfold post_process, ret in H. cbv beta iota in H. injection H as <- <-.
    split; constructor. }
  destruct (post_process_inv R _ _ _ _ _ _ _ Hne H) as [q [st [h [g1 [_ [_ [Hh ->]]]]]]].
  apply humanize_inv in Hh.
  assert (Ht : Forall (fun n => PrimFloat.leb 0 (time n) = true) h).
  { eapply Forall2_Forall_r; [|exact Hh]. intros a b. apply humanized_time. }
  destruct (times_from_sorted _ _ (sort_by_times_from 0 h Ht)) as [H0 Hs].
  split; [exact Hs|]. eapply Forall_impl; [|exact H0].
  intros n Hn. split; [exact Hn | exact (proj2 (leb_numbers _ _ Hn))].
Qed.

Lemma post_process_sorted_funk :
  exists out,
    fst (post_process TapeSource settings
           [drum_note "snare" 38 2.1 100; drum_note "kick" 36 0.02 30]
           "funk groove" "drums" [0; 0; 50; 3; 8; 6; 16; 0; 0; 3; 8]) = Ok out
    /\ StronglySorted (fun a b => PrimFloat.leb (time a) (time b) = true) out
    /\ Forall (fun n => PrimFloat.leb 0 (time n) = true /\ is_number (time n) = true)
         out.
Proof.
  eexists. split; [reflexivity|].
  apply (post_process_sorted TapeSource settings
           [drum_note "snare" 38 2.1 100; drum_note "kick" 36 0.02 30] _
           "funk groove" "drums" [0; 0; 50; 3; 8; 6; 16; 0; 0; 3; 8] []).
  reflexivity.
Defined.

(** X25: [max(n["time"] ...)] of the ghost-note stage is the latest time
    when no time is [nan]: on a list that is not empty it is the time of
    one of the notes, and no note has a later time; on the empty list it
    is 0. *)
Theorem max_time_of_latest (ns : list Note) :
  max_time_of [] = 0%float
  /\ (ns <> [] ->
      Forall (fun n => is_number (time n) = true) ns ->
      In (max_time_of ns) (map time ns)
      /\ Forall (fun n => PrimFloat.leb (time n) (max_time_of ns) = true) ns).
Proof.
  split; [reflexivity|]. intros Hne Hnum.
  destruct ns as [|n ns]; [congruence|]. inversion Hnum as [|? ? Hn Hns]; subst.
  unfold max_time_of.
  destruct (fold_fmax (map time ns) (time n) Hn) as [Hin [Hle Hall]].
  { apply Forall_map. exact Hns. }
  split.
  - destruct Hin as [-> | Hin]; [now left | now right].
  - constructor; [exact Hle|]. apply Forall_map in Hall. exact Hall.
Qed.

Lemma max_time_of_latest_two :
  In (max_time_of [drum_note "kick" 36 1 100; drum_note "snare" 38 0.5 90])
    (map time [drum_note "kick" 36 1 100; drum_note "snare" 38 0.5 90])
  /\ Forall (fun n =>
               PrimFloat.leb (time n)
                 (max_time_of [drum_note "kick" 36 1 100; drum_note "snare" 38 0.5 90])
               = true)
       [drum_note "kick" 36 1 100; drum_note "snare" 38 0.5 90].
Proof.
  apply (proj2 (max_time_of_latest
                  [drum_note "kick" 36 1 100; drum_note "snare" 38 0.5 90])).
  - discriminate.
  - repeat constructor.
Defined.

(** X26: the total time of an assembled sequence is its latest end:
    whenever [primer_only_to_sequence] returns a sequence whose end times
    are numbers, the total time is not negative, no note ends after it,
    and it is 0.0 or the end of one of the notes. *)
Theorem total_time_latest_end (ns : list Note) (name : string) (bpm : Z)
    (seq : FallbackSequence) :
  primer_only_to_sequence ns name bpm = Ok seq ->
  Forall (fun fn => is_number (end_time fn) = true) (notes seq) ->
  PrimFloat.leb 0 (total_time seq) = true
  /\ Forall (fun fn => PrimFloat.leb (end_time fn) (total_time seq) = true) (notes seq)
  /\ (total_time seq = 0%float \/ In (total_time seq) (map end_time (notes seq))).
Proof.
  intros H Hnum.
  assert (Ht : total_time seq = latest_end (notes seq)).
  { unfold primer_only_to_sequence in H. destruct (String.eqb name "drums").
    - apply drum_loop_shape in H; [|reflexivity]. exact (proj1 (proj2 (proj2 (proj2 H)))).
    - apply piano_loop_shape in H; [|reflexivity]. exact (proj1 (proj2 (proj2 (proj2 H)))). }
  rewrite Ht. unfold latest_end.
  destruct (fold_fmax (map end_time (notes seq)) 0 eq_refl) as [Hin [Hle Hall]].
  { apply Forall_map. exact Hnum. }
  split; [exact Hle|]. split; [|exact Hin].
  apply Forall_map in Hall. exact Hall.
Qed.

Lemma total_time_latest_end_kick :
  PrimFloat.leb 0 (total_time kick_sequence) = true
  /\ Forall (fun fn => PrimFloat.leb (end_time fn) (total_time kick_sequence) = true)
       (notes kick_sequence)
  /\ (total_time kick_sequence = 0%float
      \/ In (total_time kick_sequence) (map end_time (notes kick_sequence))).
Proof.
  apply (total_time_latest_end [drum_note "kick" 36 0 100] "drums" 120 kick_sequence).
  - reflexivity.
  - repeat constructor.
Defined.

(** ** Quantized values lie on the grid *)

Lemma snap_on_grid (x g y : float) :
  pow2_grid g -> snap x g = Ok y -> on_grid g y.
Proof.
  intros Hg H. destruct (snap_result _ _ _ H) as [k [kf [Hk [Hf ->]]]].
  destruct Hg as [eg [Hg Heg]].
  assert (Hq : (kf * g / g)%float = kf).
  { destruct Hk as [[-> ->] | [s [m [e [K [Hkf [Hn [He _]]]]]]]].
    - apply Prim2SF_inj. rewrite div_spec, mul_spec, Hg. reflexivity.
    - now destruct (mul_pow2_grid kf g s m e eg Hkf Hn He Hg Heg). }
  exists k, kf. split; [exact Hf|]. split; [reflexivity|]. split; [exact Hq|].
  rewrite Hq. now apply round_int_float.
Qed.

Lemma grid_on_grid (g : float) : pow2_grid g -> on_grid g g.
Proof.
  intros [eg [Hg Heg]].
  assert (Hn : normal two52 (-52)) by (split; [reflexivity | lia]).
  destruct (mul_pow2_grid 1 g false two52 (-52) eg eq_refl Hn ltac:(lia) Hg Heg)
    as [Hm Hq].
  assert (E : (1 * g)%float = g).
  { apply Prim2SF_inj. rewrite Hm, Hg. f_equal. lia. }
  rewrite E in Hq.
  exists 1, 1%float. split; [reflexivity|]. split; [now rewrite E|].
  split; [exact Hq|]. rewrite Hq. reflexivity.
Qed.

Lemma quantize_note_on_grid (g : float) (n n' : Note) :
  pow2_grid g -> quantize_note g n = Ok n' ->
  on_grid g (time n') /\ forall d, duration n' = Some d -> on_grid g d.
Proof.
  intros Hg H. unfold quantize_note in H. bind_inv H.
  pose proof (snap_on_grid _ _ _ Hg E) as Ht.
  cbn [duration with_time] in H. destruct (duration n) as [d0|] eqn:Ed.
  - bind_inv H. injection H as <-. simpl. split; [exact Ht|].
    intros d Hd. injection Hd as <-. unfold Py.fmax.
    destruct (PrimFloat.ltb g _).
    + exact (snap_on_grid _ _ _ Hg E0).
    + now apply grid_on_grid.
  - injection H as <-. simpl. split; [exact Ht|]. rewrite Ed. discriminate.
Qed.

(** X27: for a grid that is a power of two not above 1 (the default 1/4
    among them), every time and every duration that quantization returns
    lies on the grid exactly: the value divided by the grid is an integer
    with no rounding error, and the value is that integer times the
    grid. *)
Theorem quantized_on_grid (cfg : Settings) (notes out : list Note)
    (grid : option float) :
  pow2_grid (effective_grid cfg grid) ->
  quantize_notes cfg notes grid = Ok out ->
  Forall (fun n =>
            on_grid (effective_grid cfg grid) (time n)
            /\ forall d, duration n = Some d -> on_grid (effective_grid cfg grid) d)
    out.
Proof.
  unfold quantize_notes. cbn zeta.
  intros Hg. rewrite quantize_loop_for_each, for_each_Forall2. intros H.
  eapply Forall2_Forall_r; [|exact H]. intros n n'. now apply quantize_note_on_grid.
Qed.

Lemma quantized_on_grid_default :
  Forall (fun n =>
            on_grid 0.25 (time n)
            /\ forall d, duration n = Some d -> on_grid 0.25 d)
    [drum_note "kick" 36 0.5 100; piano_note 60 1.25 0.25 80].
Proof.
  apply (quantized_on_grid settings
           [drum_note "kick" 36 0.498 100; piano_note 60 1.3 0.05 80] _ None).
  - exists (-54). split; [reflexivity | lia].
  - reflexivity.
Defined.

(** ** The note counts of a primer-only response *)

(** X28: when the response is built from the primer alone (no Magenta
    model is loaded, so the sequence is the one [primer_only_to_sequence]
    makes of the post-processed notes), the sequence has at least as many
    notes as the primer, so the clamp [max(0, ...)] of [generated_notes]
    never acts: the count reported is the number of notes that
    [post_process] added, which is 0 unless the style is a Funk style on
    "drums". *)
Theorem primer_only_generated_notes (R : RandomSource) (cfg : Settings)
    (primer processed : list Note) (style name : string) (bpm : Z)
    (seq : FallbackSequence) (g g' : rng R) :
  post_process R cfg primer style name g = (Ok processed, g') ->
  primer_only_to_sequence processed name bpm = Ok seq ->
  generated_notes (Z.of_nat (List.length primer)) (Z.of_nat (List.length (notes seq)))
  = Z.of_nat (List.length processed) - Z.of_nat (List.length primer)
  /\ (adds_ghosts style name = false ->
      generated_notes (Z.of_nat (List.length primer))
        (Z.of_nat (List.length (notes seq))) = 0).
Proof.
  intros Hp Hs.
  assert (Hlen : List.length (notes seq) = List.length processed).
  { unfold primer_only_to_sequence in Hs. destruct (String.eqb name "drums").
    - apply drum_loop_shape in Hs; [|reflexivity].
      destruct Hs as [_ [_ [_ [_ [fns [-> HF]]]]]]. simpl.
      symmetry. exact (Forall2_length HF).
    - apply piano_loop_shape in Hs; [|reflexivity].
      destruct Hs as [_ [_ [_ [_ [fns [-> HF]]]]]]. simpl.
      symmetry. exact (Forall2_length HF). }
  assert (Hcount : (List.length primer <= List.length processed)%nat
                   /\ (adds_ghosts style name = false ->
                       List.length processed = List.length primer)).
  { destruct (list_eq_nil_dec primer) as [-> | Hne].
    { unfold post_process, ret in Hp. cbv beta iota in Hp. injection Hp as <- <-.
      split; [apply Nat.le_refl | intros _; reflexivity]. }
    destruct (post_process_inv R _ _ _ _ _ _ _ Hne Hp)
      as [q [st [h [g1 [Hq [Hst [Hh ->]]]]]]].
    apply quantize_notes_Forall2, Forall2_length in Hq.
    apply style_transform_length in Hst. destruct Hst as [Hs1 Hs2].
    apply humanize_inv, Forall2_length in Hh.
    rewrite <- (Permutation_length (sort_by_perm time_lt h)), <- Hh, Hq.
    split; [exact Hs1 | exact Hs2]. }
  destruct Hcount as [Hle Heq]. unfold generated_notes. rewrite Hlen. split.
  - lia.
  - intros Ha. rewrite (Heq Ha). lia.
Qed.

Lemma primer_only_generated_notes_funk :
  exists processed seq,
    fst (post_process TapeSource settings
           [drum_note "kick" 36 1 100] "funk groove" "drums" [0; 0; 50; 3; 8; 6; 16])
    = Ok processed
    /\ primer_only_to_sequence processed "drums" 120 = Ok seq
    /\ generated_notes (Z.of_nat (List.length [drum_note "kick" 36 1 100]))
         (Z.of_nat (List.length (notes seq)))
       = Z.of_nat (List.length processed)
         - Z.of_nat (List.length [drum_note "kick" 36 1 100])
    /\ (adds_ghosts "funk groove" "drums" = false ->
        generated_notes (Z.of_nat (List.length [drum_note "kick" 36 1 100]))
          (Z.of_nat (List.length (notes seq))) = 0).
Proof.
  do 2 eexists. split; [vm_compute; reflexivity|]. split; [vm_compute; reflexivity|].
  apply (primer_only_generated_notes TapeSource settings
           [drum_note "kick" 36 1 100] _ "funk groove" "drums" 120 _
           [0; 0; 50; 3; 8; 6; 16] []).
  - vm_compute. reflexivity.
  - vm_compute. reflexivity.
Defined.

(** ** What the notes play, through [post_process] *)

Local Open Scope list_scope.

Lemma Forall2_map_eq {A B : Type} (f : A -> B) (Q : A -> A -> Prop) (l l' : list A) :
  (forall a b, Q a b -> f b = f a) -> Forall2 Q l l' -> map f l' = map f l.
Proof.
  intros H. induction 1 as [|a b l l' Hab _ IH]; [reflexivity|].
  simpl. now rewrite IH, (H _ _ Hab).
Qed.

Lemma quantized_frame_sound (g : float) (n n' : Note) :
  quantized_frame g n n' -> sound n' = sound n.
Proof. intros [H1 [H2 [H3 _]]]. unfold sound. now rewrite H1, H2, H3. Qed.

Lemma same_but_time_sound (n n' : Note) : same_but_time n n' -> sound n' = sound n.
Proof. unfold same_but_time. now intros ->. Qed.

Lemma same_but_velocity_sound (n n' : Note) :
  same_but_velocity n n' -> sound n' = sound n.
Proof. unfold same_but_velocity. now intros ->. Qed.

Lemma humanized_sound (cfg : Settings) (ta : float) (va : Z) (n n' : Note) :
  humanized cfg ta va n n' -> sound n' = sound n.
Proof. intros [H1 [H2 [H3 _]]]. unfold sound. now rewrite H1, H2, H3. Qed.

Lemma ghosts_sound (max_time : float) (snares : list float) (ghosts : list Note) :
  Forall (ghost_of max_time snares) ghosts ->
  map sound ghosts = repeat ghost_sound (List.length ghosts).
Proof.
  induction 1 as [|n l Hn _ IH]; [reflexivity|].
  simpl. rewrite IH. f_equal. now destruct Hn as [bar [s [t [v [-> _]]]]].
Qed.

Section Sounds.

Context (R : RandomSource).

Lemma style_transform_sounds (cfg : Settings) (category : StyleCategory)
    (instrument : string) (processed out : list Note) (g g' : rng R) :
  style_transform R cfg category instrument processed g = (Ok out, g') ->
  exists k,
    map sound out = map sound processed ++ repeat ghost_sound k
    /\ ((match category with Funk => String.eqb instrument "drums" | _ => false end)
        = false -> k = 0%nat).
Proof.
  unfold style_transform, lift, ret. destruct category; intros H.
  - destruct (apply_swing_defined cfg processed None) as [o [Ho [HF _]]].
    rewrite Ho in H. injection H as <- <-. exists 0%nat. rewrite app_nil_r.
    split; [|reflexivity]. exact (Forall2_map_eq sound _ _ _ same_but_time_sound HF).
  - unfold rbind in H.
    destruct (apply_rock_emphasis cfg processed) as [rock|e] eqn:Er; [|discriminate].
    apply apply_rock_emphasis_Forall2 in Er.
    pose proof (Forall2_map_eq sound _ _ _ same_but_velocity_sound Er) as Hrock.
    destruct (String.eqb instrument "drums").
    + destruct (add_funk_ghost_notes_spec R _ _ _ _ H) as [_ [ghosts [-> Hg]]].
      exists (List.length ghosts). rewrite map_app, Hrock, (ghosts_sound _ _ _ Hg).
      split; [reflexivity | discriminate].
    + injection H as <- <-. exists 0%nat. rewrite app_nil_r.
      split; [exact Hrock | reflexivity].
  - injection H as H <-. apply apply_rock_emphasis_Forall2 in H.
    exists 0%nat. rewrite app_nil_r. split; [|reflexivity].
    exact (Forall2_map_eq sound _ _ _ same_but_velocity_sound H).
  - injection H as H <-. apply apply_reggae_offbeat_Forall2 in H.
    exists 0%nat. rewrite app_nil_r. split; [|reflexivity].
    exact (Forall2_map_eq sound _ _ _ same_but_velocity_sound H).
  - injection H as <- <-. exists 0%nat. rewrite app_nil_r. split; reflexivity.
Qed.

End Sounds.

(** X29: [post_process] neither drops a note nor changes what a note
    plays: whenever it returns, the drum names, MIDI keys and pitches of
    its output are, up to the order, those of its input followed by some
    number of snare ghost notes (drum "snare", key 38), and that number is
    0 unless the style is a Funk style and the instrument is "drums". *)
Theorem post_process_sounds (R : RandomSource) (cfg : Settings)
    (notes out : list Note) (style instrument : string) (g g' : rng R) :
  post_process R cfg notes style instrument g = (Ok out, g') ->
  exists k,
    Permutation (map sound out) (map sound notes ++ repeat ghost_sound k)
    /\ (adds_ghosts style instrument = false -> k = 0%nat).
Proof.
  intros H. destruct (list_eq_nil_dec notes) as [-> | Hne].
  { unfold post_process, ret in H. cbv beta iota in H. injection H as <- <-.
    exists 0%nat. split; [apply Permutation_refl | reflexivity]. }
  destruct (post_process_inv R _ _ _ _ _ _ _ Hne H)
    as [q [st [h [g1 [Hq [Hs [Hh ->]]]]]]].
  apply quantize_notes_Forall2 in Hq. apply humanize_inv in Hh.
  destruct (style_transform_sounds R _ _ _ _ _ _ _ Hs) as [k [Hk Hk0]].
  exists k. split; [|exact Hk0].
  rewrite <- (Forall2_map_eq sound _ _ _ (quantized_frame_sound _) Hq), <- Hk.
  rewrite <- (Forall2_map_eq sound _ _ _ (humanized_sound _ _ _) Hh).
  apply Permutation_map, Permutation_sym, sort_by_perm.
Qed.

Lemma post_process_sounds_funk :
  exists k,
    Permutation (map sound [ghost_note 0.25 40; drum_note "kick" 36 1.015 103])
      (map sound [drum_note "kick" 36 1 100] ++ repeat ghost_sound k)
    /\ (adds_ghosts "funk groove" "drums" = false -> k = 0%nat).
Proof.
  apply (post_process_sounds TapeSource settings [drum_note "kick" 36 1 100] _
           "funk groove" "drums" [0; 0; 50; 6; 16; 3; 8] []).
  vm_compute. reflexivity.
Defined.

(** ** The exceptions of the quantizer *)

Lemma for_each_error (body : Note -> result Note) (ns : list Note) (e : exn) :
  for_each body ns [] = Err e -> exists n, In n ns /\ body n = Err e.
Proof.
  induction ns as [|n ns IH]; [discriminate|].
  rewrite for_each_cons. destruct (body n) as [n'|e'] eqn:En; simpl.
  - destruct (for_each body ns []) as [l|e'']; simpl; [discriminate|].
    intros H. injection H as ->. destruct (IH eq_refl) as [m [Hm Hb]].
    exists m. split; [now right | exact Hb].
  - intros H. injection H as ->. exists n. split; [now left | exact En].
Qed.

Lemma snap_error (x g : float) (e : exn) :
  snap x g = Err e ->
  (PrimFloat.eqb g 0 = true /\ e = ZeroDivisionError)
  \/ (PrimFloat.eqb g 0 = false /\ quotient_error (x / g) = Some e).
Proof.
  unfold snap, Py.div. destruct (PrimFloat.eqb g 0); simpl.
  - intros H. injection H as <-. now left.
  - intros H. right. split; [reflexivity|].
    destruct (Py.round (x / g)) as [k|e'] eqn:Er; simpl in H.
    + destruct (round_float_of_int _ _ Er) as [kf [Hf _]].
      unfold Py.int_mul_float in H. rewrite Hf in H. discriminate.
    + injection H as ->. unfold Py.round in Er. unfold quotient_error.
      destruct (Prim2SF (x / g)); try discriminate; now injection Er as ->.
Qed.

(** X30: the exceptions of [quantize_notes] and their causes: whenever
    it raises, a time or a duration [x] of some note is at fault, and
    either the grid is zero and the exception is ZeroDivisionError, or the
    grid is not zero and the quotient [x / grid] is [nan] (ValueError) or
    infinite (OverflowError); and with a zero grid every list that is not
    empty raises ZeroDivisionError. *)
Theorem quantize_notes_errors (cfg : Settings) (notes : list Note)
    (grid : option float) :
  (forall e,
     quantize_notes cfg notes grid = Err e ->
     exists n x,
       In n notes /\ (x = time n \/ duration n = Some x)
       /\ ((PrimFloat.eqb (effective_grid cfg grid) 0 = true /\ e = ZeroDivisionError)
           \/ (PrimFloat.eqb (effective_grid cfg grid) 0 = false
               /\ quotient_error (x / effective_grid cfg grid) = Some e)))
  /\ (PrimFloat.eqb (effective_grid cfg grid) 0 = true -> notes <> [] ->
      quantize_notes cfg notes grid = Err ZeroDivisionError).
Proof.
  unfold quantize_notes. cbn zeta. split.
  - intros e H. rewrite quantize_loop_for_each in H.
    destruct (for_each_error _ _ _ H) as [n [Hin Hn]].
    unfold quantize_note in Hn.
    destruct (snap (time n) (effective_grid cfg grid)) as [t|e'] eqn:Et; simpl in Hn.
    + destruct (duration n) as [d|] eqn:Ed; [|discriminate].
      destruct (snap d (effective_grid cfg grid)) as [x|e'] eqn:Ex; simpl in Hn;
        [discriminate|].
      injection Hn as ->. exists n, d. split; [exact Hin|]. split; [now right|].
      exact (snap_error _ _ _ Ex).
    + injection Hn as ->. exists n, (time n). split; [exact Hin|]. split; [now left|].
      exact (snap_error _ _ _ Et).
  - intros Hg Hne. destruct notes as [|n ns]; [congruence|].
    cbn [quantize_loop]. unfold quantize_note, snap, Py.div. now rewrite Hg.
Qed.

Lemma quantize_notes_errors_nan :
  exists n x,
    In n [drum_note "kick" 36 nan 100]
    /\ (x = time n \/ duration n = Some x)
    /\ ((PrimFloat.eqb (effective_grid settings None) 0 = true
         /\ ValueError = ZeroDivisionError)
        \/ (PrimFloat.eqb (effective_grid settings None) 0 = false
            /\ quotient_error (x / effective_grid settings None) = Some ValueError)).
Proof.
  apply (proj1 (quantize_notes_errors settings [drum_note "kick" 36 nan 100] None)).
  reflexivity.
Defined.
